(** * OldBant: types, type checker, interpreter, built-ins and import
    pre-processing

    A shallow embedding of the parts of the Bant interpreter that the
    specification makes checkable statements about:

    - [Types]: the [Types::Type] class hierarchy with its virtual
      [compare] (the unnamed header holding [namespace Types]);
    - [TypeChecker]: [compare], [resolveType], [addName], the function
      pass of [evalProgram], [evalLiteral], [evalPrimitive] and
    [evalBranch]
      (src/core/typeChecker/typeChecker.cpp);
    - [Values], [Interpreter]: runtime values, [doOperation], the function
      pass of [interpretProgram] and the call environment of
      [interpretApplication] (the unnamed interpreter source);
    - [BuiltinImplementations]: the list and conversion built-ins (the
      unnamed built-in source);
    - [Lexer]: [readFile] and [makeTokenStream]
      (src/core/lexer/lexer.cpp);
    - [Parser]: [preprocessImports] and [parseImport] (the unnamed parser
      source).

    C++ objects reached through [std::shared_ptr] are modelled as follows.
    Type objects are trees held by value: a field of pointer type is the
    pointed-to tree, a possibly null pointer is an [option].  A method that
    writes to [*this] or to its argument returns the new contents of both.
    Runtime values live in an explicit store indexed by locations, because
    the built-ins alias and mutate list values. *)

From Stdlib Require Import ZArith Ascii String.
From stdpp Require Import gmap strings list pretty.

Set Warnings "-register-all".
Set Default Proof Using "Type".

Open Scope Z_scope.

(* ================================================================== *)
(** * Types *)
(* ================================================================== *)

Module Types.

(** [enum class DataTypes]. *)
Inductive DataTypes :=
| INT | CHAR | STRING | BOOL | NULLVAL | LIST | TUPLE | FUNC | GEN
| TYPECLASS | UNKNOWN.

#[global] Instance DataTypes_eq_dec : EqDecision DataTypes.
Proof. solve_decision. Defined.

(** [class GenType]: a [Type] with an [identifier]. *)
Record GenTypePtr := mkGenType { genDataType : DataTypes; identifier : string }.

(** The class hierarchy under [Type].  Every object carries the mutable
    tag [dataType] of the base class; the constructor is the dynamic
    class of the object.  The two can disagree: [ListType()] and
    [TupleType()] start with the tag [UNKNOWN], and [compare] overwrites
    the tag of an [UNKNOWN] argument whatever its class.

    [functionBody] points into the syntax tree; it is only copied here,
    never dereferenced, and is kept as an opaque node reference.  The
    [resolved] flag of the base class is read by [evalApplication] only
    and is left out. *)
Inductive TypePtr :=
| IntType (dataType : DataTypes)
| CharType (dataType : DataTypes)
| StringType (dataType : DataTypes)
| BoolType (dataType : DataTypes)
| NullType (dataType : DataTypes)
| UnknownType (dataType : DataTypes)
| GenType (gen : GenTypePtr)
| ListType (dataType : DataTypes) (listType : option TypePtr)
| TupleType (dataType : DataTypes) (tupleTypes : list TypePtr)
| FuncType (dataType : DataTypes)
           (genericTypes : list GenTypePtr)
           (argumentTypes : list TypePtr)
           (argumentNames : list string)
           (returnType : TypePtr)
           (functionBody : option nat)
           (functionInnerEnvironment : option (gmap string TypePtr))
           (isBuiltin : bool)
| TypeclassType (dataType : DataTypes) (ident : string)
                (fieldTypes : list (string * TypePtr)).

Abbreviation EnvironmentRaw := (gmap string TypePtr).

(** The objects the constructors of the source build. *)
Definition mkInt : TypePtr := IntType INT.
Definition mkChar : TypePtr := CharType CHAR.
Definition mkString : TypePtr := StringType STRING.
Definition mkBool : TypePtr := BoolType BOOL.
Definition mkNull : TypePtr := NullType NULLVAL.
Definition mkUnknown : TypePtr := UnknownType UNKNOWN.
Definition mkGen (name : string) : TypePtr := GenType (mkGenType GEN name).
Definition mkList (elem : TypePtr) : TypePtr := ListType LIST (Some elem).
Definition mkTuple (elems : list TypePtr) : TypePtr := TupleType TUPLE elems.
Definition mkFunc (gens : list GenTypePtr) (args : list TypePtr) (ret : TypePtr)
  : TypePtr := FuncType FUNC gens args [] ret None None false.
Definition mkTypeclass (name : string) (fields : list (string * TypePtr))
  : TypePtr := TypeclassType TYPECLASS name fields.

(** [t->dataType]. *)
Definition dataType (t : TypePtr) : DataTypes :=
  match t with
  | IntType d | CharType d | StringType d | BoolType d | NullType d
  | UnknownType d | ListType d _ | TupleType d _
  | FuncType d _ _ _ _ _ _ _ | TypeclassType d _ _ => d
  | GenType g => genDataType g
  end.

(** [t->dataType = d]. *)
Definition setDataType (d : DataTypes) (t : TypePtr) : TypePtr :=
  match t with
  | IntType _ => IntType d
  | CharType _ => CharType d
  | StringType _ => StringType d
  | BoolType _ => BoolType d
  | NullType _ => NullType d
  | UnknownType _ => UnknownType d
  | GenType g => GenType (mkGenType d (identifier g))
  | ListType _ lt => ListType d lt
  | TupleType _ ts => TupleType d ts
  | FuncType _ g a n r b e i => FuncType d g a n r b e i
  | TypeclassType _ i f => TypeclassType d i f
  end.

(** What a call of [compare] leaves behind: the returned flag, the
    receiver and the argument after the call.  [None] stands for
    undefined behaviour: a member read through a [static_pointer_cast]
    to a class the object does not have, or through a null pointer. *)
Definition CompareResult : Type := option (bool * TypePtr * TypePtr).

(** [Type::compare], the version of the base class, used by every class
    that does not override it ([IntType], [CharType], [StringType],
    [BoolType], [NullType], [GenType], [UnknownType]). *)
Definition compareBase (this other : TypePtr) : CompareResult :=
  if decide (dataType other = UNKNOWN) then
    Some (true, this, setDataType (dataType this) other)
  else
    Some (bool_decide (dataType this = dataType other), this, other).

Section Loops.
(** The virtual call made on the elements. *)
Variable compare : TypePtr → TypePtr → CompareResult.

(** The loop of [TupleType::compare] over two vectors of the same
    size: an element with the tag [UNKNOWN] is replaced by the other
    side's element, any other element is compared; the first failure
    ends the loop. *)
Fixpoint compareTupleTypes (tupleTypes otherTupleTypes : list TypePtr)
  {struct tupleTypes} : option (bool * list TypePtr * list TypePtr) :=
  match tupleTypes, otherTupleTypes with
  | t :: ts', o :: ots' =>
      if decide (dataType t = UNKNOWN) then
        match compareTupleTypes ts' ots' with
        | Some (b, r, ro) => Some (b, o :: r, o :: ro)
        | None => None
        end
      else
        match compare t o with
        | Some (true, t', o') =>
            match compareTupleTypes ts' ots' with
            | Some (b, r, ro) => Some (b, t' :: r, o' :: ro)
            | None => None
            end
        | Some (false, t', o') => Some (false, t' :: ts', o' :: ots')
        | None => None
        end
  | _, _ => Some (true, tupleTypes, otherTupleTypes)
  end.

(** The loop of [FuncType::compare] over the argument types. *)
Fixpoint compareArgumentTypes (argumentTypes otherArgumentTypes : list TypePtr)
  {struct argumentTypes} : option (bool * list TypePtr * list TypePtr) :=
  match argumentTypes, otherArgumentTypes with
  | a :: args', o :: oargs' =>
      match compare a o with
      | Some (true, a', o') =>
          match compareArgumentTypes args' oargs' with
          | Some (b, r, ro) => Some (b, a' :: r, o' :: ro)
          | None => None
          end
      | Some (false, a', o') => Some (false, a' :: args', o' :: oargs')
      | None => None
      end
  | _, _ => Some (true, argumentTypes, otherArgumentTypes)
  end.
End Loops.

(** The virtual [compare], dispatched on the class of the receiver.  The
    argument is not null here; a null argument is handled where a field
    that may be null is passed. *)
Fixpoint compare (this other : TypePtr) {struct this} : CompareResult :=
  match this with
  | ListType d lt =>
      if decide (dataType other = UNKNOWN) then
        Some (true, this, setDataType d other)
      else if decide (d = UNKNOWN ∧ dataType other = LIST) then
        match other with
        | ListType _ olt => Some (true, ListType LIST olt, other)
        | _ => None
        end
      else if decide (d = dataType other) then
        match lt with
        | None => None
        | Some l =>
            match other with
            | ListType od olt =>
                if decide (dataType l = UNKNOWN) then
                  Some (true, ListType d olt, other)
                else
                  match olt with
                  | None => Some (false, this, other)
                  | Some ol =>
                      match compare l ol with
                      | Some (b, l', ol') =>
                          Some (b, ListType d (Some l'), ListType od (Some ol'))
                      | None => None
                      end
                  end
            | _ => None
            end
        end
      else Some (false, this, other)
  | TupleType d ts =>
      if decide (d = UNKNOWN ∧ dataType other = TUPLE) then
        match other with
        | TupleType _ ots => Some (true, TupleType TUPLE ots, other)
        | _ => None
        end
      else if decide (d ≠ dataType other) then Some (false, this, other)
      else
        match other with
        | TupleType od ots =>
            if decide (length ts ≠ length ots) then Some (false, this, other)
            else
              match compareTupleTypes compare ts ots
              with
              | Some (b, ts', ots') =>
                  Some (b, TupleType d ts', TupleType od ots')
              | None => None
              end
        | _ => None
        end
  | FuncType d gens args names ret body ienv builtin =>
      if decide (d = UNKNOWN ∧ dataType other = FUNC) then
        match other with
        | FuncType _ ogens oargs _ oret obody oienv _ =>
            Some (true, FuncType FUNC ogens oargs names oret obody oienv builtin,
                  other)
        | _ => None
        end
      else if decide (d = FUNC ∧ dataType other = FUNC) then
        match other with
        | FuncType od ogens oargs onames oret obody oienv obuiltin =>
            if decide (length args ≠ length oargs) then
              Some (false, this, other)
            else
              match compareArgumentTypes compare args oargs
              with
              | Some (true, args', oargs') =>
                  match compare ret oret with
                  | Some (b, ret', oret') =>
                      Some (b,
                            FuncType d gens args' names ret' body ienv builtin,
                            FuncType od ogens oargs' onames oret' obody oienv
                                     obuiltin)
                  | None => None
                  end
              | Some (false, args', oargs') =>
                  Some (false,
                        FuncType d gens args' names ret body ienv builtin,
                        FuncType od ogens oargs' onames oret obody oienv
                                 obuiltin)
              | None => None
              end
        | _ => None
        end
      else Some (true, this, other)
  | TypeclassType d ident _ =>
      if decide (d = dataType other) then
        match other with
        | TypeclassType _ oident _ =>
            Some (bool_decide (ident = oident), this, other)
        | _ => None
        end
      else Some (false, this, other)
  | _ => compareBase this other
  end.

(** [isPrimitiveType]. *)
Definition isPrimitiveType (t : TypePtr) : bool :=
  bool_decide (dataType t = INT) || bool_decide (dataType t = CHAR)
  || bool_decide (dataType t = STRING) || bool_decide (dataType t = BOOL)
  || bool_decide (dataType t = GEN).

(** The types of the specification's grammar: objects as the
    constructors build them, the tag agreeing with the class, with no
    [Unknown] and no null element type anywhere the comparison looks. *)
Fixpoint concrete (t : TypePtr) : bool :=
  match t with
  | IntType d => bool_decide (d = INT)
  | CharType d => bool_decide (d = CHAR)
  | StringType d => bool_decide (d = STRING)
  | BoolType d => bool_decide (d = BOOL)
  | NullType d => bool_decide (d = NULLVAL)
  | UnknownType _ => false
  | GenType g => bool_decide (genDataType g = GEN)
  | ListType d lt =>
      bool_decide (d = LIST)
      && match lt with Some l => concrete l | None => false end
  | TupleType d ts =>
      bool_decide (d = TUPLE)
      && forallb concrete ts
  | FuncType d _ args _ ret _ _ _ =>
      bool_decide (d = FUNC)
      && forallb concrete args
      && concrete ret
  | TypeclassType d _ _ => bool_decide (d = TYPECLASS)
  end.

End Types.

(* ================================================================== *)
(** * Results of effectful code *)
(* ================================================================== *)

(** The exceptions the modelled code throws: [std::out_of_range] from
    [at], and the interpreter's [RuntimeException]. *)
Inductive Exception := out_of_range | RuntimeException.

(** A computation over a state [S] either returns, or unwinds with an
    exception, or has undefined behaviour (a cast to a class the object
    does not have, an iterator outside its container, signed overflow,
    a division the hardware traps on). *)
Inductive Result (S A : Type) :=
| Done (a : A) (s : S)
| Throw (e : Exception) (s : S)
| Undefined.
Arguments Done {S A} a s.
Arguments Throw {S A} e s.
Arguments Undefined {S A}.

Definition M (S A : Type) : Type := S → Result S A.

Definition ret {S A} (a : A) : M S A := λ s, Done a s.

Definition bind {S A B} (m : M S A) (k : A → M S B) : M S B :=
  λ s, match m s with
       | Done a s' => k a s'
       | Throw e s' => Throw e s'
       | Undefined => Undefined
       end.

Definition throw {S A} (e : Exception) : M S A := λ s, Throw e s.
Definition undefined {S A} : M S A := λ _, Undefined.
Definition get {S} : M S S := λ s, Done s s.
Definition modify {S} (f : S → S) : M S unit := λ s, Done tt (f s).

(** A read that is undefined behaviour when it fails. *)
Definition orUndefined {S A} (o : option A) : M S A :=
  match o with Some a => ret a | None => undefined end.

(** A read through [at]. *)
Definition orOutOfRange {S A} (o : option A) : M S A :=
  match o with Some a => ret a | None => throw out_of_range end.

Declare Scope m_scope.
Delimit Scope m_scope with M.
Notation "x <- m ;; k" := (bind m (λ x, k))
  (at level 100, m at next level, right associativity) : m_scope.
Notation "m ;;; k" := (bind m (λ _, k))
  (at level 100, right associativity) : m_scope.

(* ================================================================== *)
(** * Tokens and expressions *)
(* ================================================================== *)

Module Expressions.
Import Types.

Record FilePosition := mkFilePosition
  { fileLine : Z; fileColumn : Z; currentLineText : string }.

Inductive TokenType := IDENT | KEYWORD | VAL | DELIM | ERROR.

Record Token := mkToken
  { tokenType : TokenType; position : FilePosition; text : string }.

(** [Operator::OperatorTypes], the enumerators the sources name. *)
Inductive OperatorTypes :=
| NONE | PLUS | MINUS | TIMES | DIV | MOD | GRT | LST | NOT | EQ | NOTEQ
| GRTEQ | LSTEQ | AND | OR.

#[global] Instance OperatorTypes_eq_dec : EqDecision OperatorTypes.
Proof. solve_decision. Defined.

(** [BuiltinDefinitions::BuiltinEnums], the enumerators [runBuiltin]
    dispatches on and the default [BUILTINNUM]. *)
Inductive BuiltinEnums :=
| INSERT | REMOVE | REPLACE | PUSHFRONT | PUSHBACK | INSERTINPLACE
| REMOVEINPLACE | REPLACEINPLACE | FRONT | BACK | HEAD | TAIL | COMBINE
| APPEND | SIZE | RANGE | ISEMPTY | PRINTLIST | PRINT2TUPLE | PRINT3TUPLE
| PRINT4TUPLE | INTTOCHAR | CHARTOINT | STRINGTOCHARLIST | CHARLISTTOSTRING
| PRINTINT | PRINTBOOL | READCHAR | PRINTCHAR | READSTRING | PRINTSTRING
| HALT | BUILTINNUM.

#[global] Instance BuiltinEnums_eq_dec : EqDecision BuiltinEnums.
Proof. solve_decision. Defined.

(** The payload of a [Literal]. *)
Inductive LiteralData :=
| IntData (i : Z) | BoolData (b : bool) | CharData (c : ascii)
| StringData (s : string) | NoData.

(** [class Argument]: a parameter or typeclass field. *)
Record Argument := mkArgument
  { argToken : Token; argReturnType : TypePtr; argName : string }.

(** The expression classes, with the members the parser initialises and
    the checker and the interpreter read.  Every node has the [token] and
    the [returnType] slot of [class Expression]. *)
Inductive Exp :=
| Program (token : Token) (returnType : TypePtr)
          (functions : list Function) (body : Exp)
| Literal (token : Token) (returnType : TypePtr) (data : LiteralData)
| Primitive (token : Token) (returnType : TypePtr) (op : OperatorTypes)
            (leftSide rightSide : Exp)
| Let (token : Token) (returnType : TypePtr) (ident : string)
      (valueType : TypePtr) (value afterLet : Exp)
| Reference (token : Token) (returnType : TypePtr) (ident fieldIdent : string)
| Branch (token : Token) (returnType : TypePtr)
         (condition ifBranch elseBranch : Exp)
| Typeclass (token : Token) (returnType : TypePtr) (ident : string)
            (fields : list Argument)
| Application (token : Token) (returnType : TypePtr) (ident : Exp)
              (arguments : list Exp) (genericReplacementTypes : list TypePtr)
| ListDefinition (token : Token) (returnType : TypePtr) (values : list Exp)
| TupleDefinition (token : Token) (returnType : TypePtr) (values : list Exp)
| Match (token : Token) (returnType : TypePtr) (ident : string)
        (cases : list Case)
| End (token : Token) (returnType : TypePtr)
with Function :=
| mkFunction (token : Token) (returnType : TypePtr) (name : string)
             (genericParameters : list GenTypePtr)
             (parameters : list Argument) (functionBody : Exp)
             (isBuiltin : bool) (builtinEnum : BuiltinEnums)
with Case :=
| mkCase (token : Token) (returnType : TypePtr) (ident body : Exp).

(** [expression->returnType]. *)
Definition returnType (e : Exp) : TypePtr :=
  match e with
  | Program _ t _ _ | Literal _ t _ | Primitive _ t _ _ _
  | Let _ t _ _ _ _ | Reference _ t _ _ | Branch _ t _ _ _
  | Typeclass _ t _ _ | Application _ t _ _ _ | ListDefinition _ t _
  | TupleDefinition _ t _ | Match _ t _ _ | End _ t => t
  end.

Definition functionName (f : Function) : string :=
  match f with mkFunction _ _ n _ _ _ _ _ => n end.
Definition functionReturnType (f : Function) : TypePtr :=
  match f with mkFunction _ t _ _ _ _ _ _ => t end.
Definition functionGenericParameters (f : Function) : list GenTypePtr :=
  match f with mkFunction _ _ _ g _ _ _ _ => g end.
Definition functionParameters (f : Function) : list Argument :=
  match f with mkFunction _ _ _ _ p _ _ _ => p end.
Definition functionBody (f : Function) : Exp :=
  match f with mkFunction _ _ _ _ _ b _ _ => b end.
Definition functionIsBuiltin (f : Function) : bool :=
  match f with mkFunction _ _ _ _ _ _ b _ => b end.

End Expressions.

(* ================================================================== *)
(** * The table of built-in names *)
(* ================================================================== *)

Module BuiltinDefinitions.
Import Expressions.

(** Modelled from the spec: [BuiltinDefinitions], the registry of
    built-in names, is not among the sources.  The names are those of
    section 4.4, each with the enumerator [runBuiltin] dispatches on. *)
Definition builtins : list (string * BuiltinEnums) :=
  [("insert", INSERT); ("remove", REMOVE); ("replace", REPLACE);
   ("pushFront", PUSHFRONT); ("pushBack", PUSHBACK);
   ("insertInPlace", INSERTINPLACE); ("removeInPlace", REMOVEINPLACE);
   ("replaceInPlace", REPLACEINPLACE); ("front", FRONT); ("back", BACK);
   ("head", HEAD); ("tail", TAIL); ("combine", COMBINE); ("append", APPEND);
   ("size", SIZE); ("range", RANGE); ("isEmpty", ISEMPTY);
   ("printList", PRINTLIST); ("print2Tuple", PRINT2TUPLE);
   ("print3Tuple", PRINT3TUPLE); ("print4Tuple", PRINT4TUPLE);
   ("intToChar", INTTOCHAR); ("charToInt", CHARTOINT);
   ("stringToCharList", STRINGTOCHARLIST);
   ("charListToString", CHARLISTTOSTRING); ("printInt", PRINTINT);
   ("printBool", PRINTBOOL); ("readChar", READCHAR); ("printChar", PRINTCHAR);
   ("readString", READSTRING); ("printString", PRINTSTRING); ("halt", HALT)].

Definition getBuiltin (name : string) : BuiltinEnums :=
  default BUILTINNUM (snd <$> List.find (λ b, bool_decide (b.1 = name)) builtins).

Definition isBuiltin (name : string) : bool :=
  bool_decide (getBuiltin name ≠ BUILTINNUM).

End BuiltinDefinitions.

(* ================================================================== *)
(** * Type checker *)
(* ================================================================== *)

Module TypeChecker.
Import Types Expressions.

(** What [printMismatchError] and [printError] write through [ERROR]. *)
Inductive Diagnostic :=
| Mismatch (token : Token) (type expectedType : TypePtr)
| Message (token : Token) (errorMessage : string).

(** The checker's [error] latch and its diagnostic output. *)
Record State := mkState { error : bool; output : list Diagnostic }.

Abbreviation TC := (M State).

Definition printMismatchError (token : Token) (type expectedType : TypePtr)
  : TC unit :=
  modify (λ s, mkState true (output s ++ [Mismatch token type expectedType])).

Definition printError (token : Token) (errorMessage : string) : TC unit :=
  modify (λ s, mkState true (output s ++ [Message token errorMessage])).

(** [TypeChecker::compare].  Both parameters are references to pointers:
    the result carries what [leftType] and [rightType] refer to after the
    call, be it through re-seating the pointer (first two cases) or
    through the writes of the virtual [compare]. *)
Definition compare (leftType rightType : TypePtr) : CompareResult :=
  if decide (dataType leftType = UNKNOWN) then
    Some (true, rightType, rightType)
  else if decide (dataType rightType = UNKNOWN) then
    Some (true, leftType, leftType)
  else Types.compare leftType rightType.

(** A [static_pointer_cast] of [resolveType] applied to an object of
    another class. *)
Definition badCast (d : DataTypes) : bool :=
  bool_decide (d = GEN) || bool_decide (d = LIST) || bool_decide (d = TUPLE)
  || bool_decide (d = FUNC).

(** The loops of [resolveType] over the element and argument types. *)
Fixpoint resolveEach (resolve : TypePtr → option TypePtr)
  (types : list TypePtr) : option (list TypePtr) :=
  match types with
  | [] => Some []
  | t :: rest =>
      match resolve t, resolveEach resolve rest with
      | Some t', Some r => Some (t' :: r)
      | _, _ => None
      end
  end.

(** [TypeChecker::resolveType]: the switch is on the tag, the members are
    read through a cast to the class of that tag. *)
Fixpoint resolveType (returnType : TypePtr) (environment : EnvironmentRaw)
  {struct returnType} : option TypePtr :=
  match returnType with
  | GenType g =>
      if decide (genDataType g = GEN) then
        match environment !! identifier g with
        | Some envType => Some envType
        | None => Some returnType
        end
      else if badCast (genDataType g) then None else Some returnType
  | ListType d lt =>
      if decide (d = LIST) then
        match lt with
        | Some l =>
            match resolveType l environment with
            | Some l' => Some (ListType d (Some l'))
            | None => None
            end
        | None => None
        end
      else if badCast d then None else Some returnType
  | TupleType d ts =>
      if decide (d = TUPLE) then
        match
          resolveEach (λ t, resolveType t environment) ts
        with
        | Some ts' => Some (TupleType d ts')
        | None => None
        end
      else if badCast d then None else Some returnType
  | FuncType d gens args names ret body ienv builtin =>
      if decide (d = FUNC) then
        match
          resolveEach (λ t, resolveType t environment) args,
          resolveType ret environment
        with
        | Some args', Some ret' =>
            Some (FuncType d gens args' names ret' body ienv builtin)
        | _, _ => None
        end
      else if badCast d then None else Some returnType
  | _ => if badCast (dataType returnType) then None else Some returnType
  end.

(** [TypeChecker::addName]: erase the name if present, then insert. *)
Definition addName (environment : EnvironmentRaw) (name : string)
  (type : TypePtr) : EnvironmentRaw :=
  <[name := type]> (if decide (is_Some (environment !! name))
                    then delete name environment else environment).

(** The first loop of [evalProgram]: every function name is bound to the
    function's type in the environment passed in. *)
Definition bindFunctions (functions : list Function)
  (environment : EnvironmentRaw) : EnvironmentRaw :=
  foldl (λ env function,
           addName env (functionName function) (functionReturnType function))
        environment functions.

(** The generic-parameter loop of [evalProgram]. *)
Definition addGenericParameters (genericParameters : list GenTypePtr)
  (functionInnerEnvironment : EnvironmentRaw) : EnvironmentRaw :=
  foldl (λ inner genericParameter,
           match inner !! identifier genericParameter with
           | None => addName inner (identifier genericParameter)
                             (GenType genericParameter)
           | Some _ => inner
           end)
        functionInnerEnvironment genericParameters.

(** The parameter loop of [evalProgram].  A parameter whose type carries
    the tag [GEN] is bound to what its generic name is bound to; reading
    through [find] when the name is absent is undefined. *)
Fixpoint addParameters (parameters : list Argument)
  (functionInnerEnvironment : EnvironmentRaw) : option EnvironmentRaw :=
  match parameters with
  | [] => Some functionInnerEnvironment
  | parameter :: rest =>
      if decide (dataType (argReturnType parameter) = GEN) then
        match argReturnType parameter with
        | GenType genericType =>
            match functionInnerEnvironment !! identifier genericType with
            | Some realType =>
                addParameters rest
                  (addName functionInnerEnvironment (argName parameter)
                           realType)
            | None => None
            end
        | _ => None
        end
      else
        addParameters rest
          (addName functionInnerEnvironment (argName parameter)
                   (argReturnType parameter))
  end.

Section Program.
(** [BuiltinDefinitions::isBuiltin] and [getBuiltin]: the table of
    built-in names is not part of the sources at hand. *)
Variable isBuiltin : string → bool.
Variable getBuiltin : string → BuiltinEnums.

(** The environment the second loop of [evalProgram] builds for one
    function. *)
Definition innerEnvironment (environment : EnvironmentRaw)
  (function : Function) : option EnvironmentRaw :=
  let builtin := functionIsBuiltin function || isBuiltin (functionName function) in
  let functionInnerEnvironment :=
    if negb builtin then delete (functionName function) environment
    else ∅ in
  addParameters (functionParameters function)
    (addGenericParameters (functionGenericParameters function)
                          functionInnerEnvironment).

(** One iteration of the second loop: the function node and the
    [FuncType] object in its [returnType] slot after it. *)
Definition evalFunction (environment : EnvironmentRaw)
  (function : Function) : option Function :=
  match function with
  | mkFunction token type name generics parameters body builtin0 enum0 =>
      let builtin := builtin0 || isBuiltin name in
      let enum := if isBuiltin name then getBuiltin name else enum0 in
      match type, innerEnvironment environment function with
      | FuncType d g a n r b _ tb, Some functionInnerEnvironment =>
          Some (mkFunction token
                  (FuncType d g a n r b (Some functionInnerEnvironment)
                            (tb || isBuiltin name))
                  name generics parameters body builtin enum)
      | _, _ => None
      end
  end.

(** Both loops of [evalProgram]: the environment after the first and
    the function nodes after the second. *)
Definition evalFunctions (functions : list Function)
  (environment : EnvironmentRaw)
  : option (list Function * EnvironmentRaw) :=
  let environment' := bindFunctions functions environment in
  match mapM (evalFunction environment') functions with
  | Some functions' => Some (functions', environment')
  | None => None
  end.

(** [function->returnType->functionInnerEnvironment]. *)
Definition storedInnerEnvironment (function : Function)
  : option EnvironmentRaw :=
  match functionReturnType function with
  | FuncType _ _ _ _ _ _ ienv _ => ienv
  | _ => None
  end.
End Program.

(** What a call of [eval] leaves behind: the node it was called on
    (nodes are written in place), the node whose pointer it returns, the
    environment it was given (a map that [evalProgram] and
    [evalTypeclass] write to) and the referent of [expectedType], which
    is passed by reference.  The slots of type pointers are held by
    value: a type object shared between two slots is not tracked. *)
Record EvalResult := mkEvalResult
  { tree : Exp; node : Exp; environment : EnvironmentRaw;
    expectedType : TypePtr }.

(** [TypeChecker::evalLiteral]. *)
Definition evalLiteral (token : Token) (returnType : TypePtr)
  (data : LiteralData) (environment : EnvironmentRaw)
  (expectedType : TypePtr) : TC EvalResult :=
  (c <- orUndefined (compare returnType expectedType);;
   let '(equal, returnType', expectedType') := c in
   (if equal then ret tt
    else printMismatchError token returnType' expectedType');;;
   let literal := Literal token returnType' data in
   ret (mkEvalResult literal literal environment expectedType'))%M.

Section Eval.
Variable isBuiltin : string → bool.
Variable getBuiltin : string → BuiltinEnums.

(** [TypeChecker::eval], the dispatch every rule recurses through. *)
Variable eval : Exp → EnvironmentRaw → TypePtr → TC EvalResult.

(** [TypeChecker::evalProgram]. *)
Definition evalProgram (token : Token) (returnType : TypePtr)
  (functions : list Function) (body : Exp)
  (environment : EnvironmentRaw) (expectedType : TypePtr)
  : TC EvalResult :=
  (fe <- orUndefined (evalFunctions isBuiltin getBuiltin functions
                                    environment);;
   r <- eval body fe.2 expectedType;;
   ret (mkEvalResult (Program token returnType fe.1 (tree r)) (node r)
                     (TypeChecker.environment r)
                     (TypeChecker.expectedType r)))%M.

(** [TypeChecker::evalBranch]. *)
Definition evalBranch (token : Token) (returnType : TypePtr)
  (condition ifBranch elseBranch : Exp)
  (environment : EnvironmentRaw) (expectedType : TypePtr)
  : TC EvalResult :=
  (c <- eval condition environment mkBool;;
   e <- eval elseBranch (TypeChecker.environment c) expectedType;;
   let elseType := Expressions.returnType (node e) in
   i <- eval ifBranch (TypeChecker.environment e) elseType;;
   ret (mkEvalResult
          (Branch token returnType (tree c) (tree i) (tree e))
          (node i) (TypeChecker.environment i)
          (TypeChecker.expectedType e)))%M.
End Eval.

Section Primitive.
(** [Operator::isUnaryOperator], [isBinaryBooleanOperator] and
    [isArithmeticOperator]: [Operator] is not among the sources, so the
    three are left open. *)
Variable isUnaryOperator : OperatorTypes → bool.
Variable isBinaryBooleanOperator : OperatorTypes → bool.
Variable isArithmeticOperator : OperatorTypes → bool.
Variable eval : Exp → EnvironmentRaw → TypePtr → TC EvalResult.

(** [TypeChecker::evalPrimitive].  The operands are checked against
    the [returnType] of a [Temp], which the second check finds as the
    first left it; the node gets a new type object for [returnType].
    [expectedType] is not read. *)
Definition evalPrimitive (token : Token) (returnType : TypePtr)
  (op : OperatorTypes) (leftSide rightSide : Exp)
  (environment : EnvironmentRaw) (expectedType : TypePtr)
  : TC EvalResult :=
  let finish returnType' leftSide' rightSide' environment' : TC EvalResult :=
    let primitive := Primitive token returnType' op leftSide' rightSide' in
    ret (mkEvalResult primitive primitive environment' expectedType) in
  let unary type : TC EvalResult :=
    (r <- eval rightSide environment type;;
     finish type leftSide (tree r) (TypeChecker.environment r))%M in
  let binary type : TC EvalResult :=
    (l <- eval leftSide environment type;;
     r <- eval rightSide (TypeChecker.environment l)
               (TypeChecker.expectedType l);;
     finish type (tree l) (tree r) (TypeChecker.environment r))%M in
  if isUnaryOperator op then
    if decide (op = NOT) then unary mkBool
    else if decide (op = PLUS ∨ op = MINUS) then unary mkInt
    else finish returnType leftSide rightSide environment
  else if isBinaryBooleanOperator op || isArithmeticOperator op then
    if decide (op = AND ∨ op = OR) then binary mkBool
    else if isArithmeticOperator op then binary mkInt
    else
      (l <- eval leftSide environment mkUnknown;;
       (if isPrimitiveType (Expressions.returnType (tree l)) then ret tt
        else printError token
               "Binary operators can only be used on primitive types");;;
       r <- eval rightSide (TypeChecker.environment l)
                 (TypeChecker.expectedType l);;
       finish mkBool (tree l) (tree r) (TypeChecker.environment r))%M
  else finish returnType leftSide rightSide environment.
End Primitive.

(** [TypeChecker::getName]: a name that is not bound is reported, and a
    new [UnknownType] returned. *)
Definition getName (token : Token) (environment : EnvironmentRaw)
  (name : string) : TC TypePtr :=
  match environment !! name with
  | Some type => ret type
  | None =>
      (printError token ("Error: " ++ name ++ " does not exist in this scope");;;
       ret mkUnknown)%M
  end.

End TypeChecker.

(* ================================================================== *)
(** * Runtime values *)
(* ================================================================== *)

Module Values.
Import Types Expressions.

(** A [ValuePtr]: the address of a value object in the store. *)
Abbreviation ValuePtr := nat.

(** [Values::Environment], the pointee: [std::map<std::string, ValuePtr>]. *)
Abbreviation Environment := (gmap string ValuePtr).

(** The members [class FunctionValue] adds to [Value]. *)
Record FunctionValueData := mkFunctionValue
  { parameterNames : list string;
    functionBody : Exp;
    functionBodyEnvironment : Environment;
    isBuiltin : bool;
    builtinEnum : BuiltinEnums }.

(** The value classes; [BaseValue] is an object of [class Value]
    itself.  [char] is a byte, [int] an integer whose range the
    operations enforce. *)
Inductive Value :=
| BaseValue (type : TypePtr)
| IntValue (type : TypePtr) (data : Z)
| CharValue (type : TypePtr) (data : ascii)
| StringValue (type : TypePtr) (data : string)
| BoolValue (type : TypePtr) (data : bool)
| NullValue (type : TypePtr)
| ListValue (type : TypePtr) (listData : list ValuePtr)
| TupleValue (type : TypePtr) (tupleData : list ValuePtr)
| FunctionValue (type : TypePtr) (function : FunctionValueData)
| TypeclassValue (type : TypePtr) (fields : Environment).

(** [value->type]. *)
Definition type (v : Value) : TypePtr :=
  match v with
  | BaseValue t | IntValue t _ | CharValue t _ | StringValue t _
  | BoolValue t _ | NullValue t | ListValue t _ | TupleValue t _
  | FunctionValue t _ | TypeclassValue t _ => t
  end.

(** The type object of a value after a [compare] wrote to it. *)
Definition setType (t : TypePtr) (v : Value) : Value :=
  match v with
  | BaseValue _ => BaseValue t
  | IntValue _ d => IntValue t d
  | CharValue _ d => CharValue t d
  | StringValue _ d => StringValue t d
  | BoolValue _ d => BoolValue t d
  | NullValue _ => NullValue t
  | ListValue _ d => ListValue t d
  | TupleValue _ d => TupleValue t d
  | FunctionValue _ f => FunctionValue t f
  | TypeclassValue _ f => TypeclassValue t f
  end.

(** What the interpreter and the built-ins write through [ERROR] and
    [Format::printError]. *)
Inductive ErrorOutput :=
| ErrorMessage (token : Token) (errorMessage : string)
| StackTrace (frames : list (string * Token)).

(** The state of a run: the value objects, the two [error] latches
    ([Interpreter::error] and the static [BuiltinImplementations::error]),
    the interpreter's [callStack], and the two output streams. *)
Record State := mkState
  { store : list Value;
    error : bool;
    builtinError : bool;
    callStack : list (string * Token);
    stdout : string;
    stderr : list ErrorOutput }.

(** The two null objects made before any evaluation:
    [BuiltinImplementations::nullValue] and the interpreter's
    [errorNullValue]. *)
Definition nullValue : ValuePtr := 0%nat.
Definition errorNullValue : ValuePtr := 1%nat.

Definition initialState : State :=
  mkState [NullValue mkNull; NullValue mkNull] false false [] EmptyString [].

Definition setStore (f : list Value → list Value) (s : State) : State :=
  mkState (f (store s)) (error s) (builtinError s) (callStack s) (stdout s)
          (stderr s).

(** [std::make_shared]: a new object at an address not in use. *)
Definition alloc (v : Value) : M State ValuePtr :=
  λ s, Done (length (store s)) (setStore (λ st, st ++ [v]) s).

(** Reading the object behind a pointer. *)
Definition load (p : ValuePtr) : M State Value :=
  (s <- get;; orUndefined (store s !! p))%M.

(** Writing the type object of the value behind a pointer. *)
Definition writeType (p : ValuePtr) (t : TypePtr) : M State unit :=
  modify (setStore (λ st, match st !! p with
                          | Some v => <[p := setType t v]> st
                          | None => st
                          end)).

(** Writing [listData] of the list value behind a pointer. *)
Definition writeListData (p : ValuePtr) (listData : list ValuePtr)
  : M State unit :=
  modify (setStore (λ st, match st !! p with
                          | Some (ListValue t _) =>
                              <[p := ListValue t listData]> st
                          | _ => st
                          end)).

(** [std::static_pointer_cast<T>(p)->member] for the value classes:
    undefined when the object is of another class. *)
Definition asInt (p : ValuePtr) : M State Z :=
  (v <- load p;;
   match v with IntValue _ d => ret d | _ => undefined end)%M.
Definition asChar (p : ValuePtr) : M State ascii :=
  (v <- load p;;
   match v with CharValue _ d => ret d | _ => undefined end)%M.
Definition asString (p : ValuePtr) : M State string :=
  (v <- load p;;
   match v with StringValue _ d => ret d | _ => undefined end)%M.
Definition asBool (p : ValuePtr) : M State bool :=
  (v <- load p;;
   match v with BoolValue _ d => ret d | _ => undefined end)%M.
Definition asList (p : ValuePtr) : M State (TypePtr * list ValuePtr) :=
  (v <- load p;;
   match v with ListValue t d => ret (t, d) | _ => undefined end)%M.

(** The range of [int] and the conversion to [unsigned int]. *)
Definition INT_MIN : Z := - 2 ^ 31.
Definition INT_MAX : Z := 2 ^ 31 - 1.
Definition toUnsigned (i : Z) : Z := i mod 2 ^ 32.

(** The result of signed arithmetic: undefined outside of [int]. *)
Definition checked (z : Z) : M State Z :=
  if decide (INT_MIN ≤ z ≤ INT_MAX) then ret z else undefined.

(** The conversion of an integer of another type to [int]: the value
    modulo [2 ^ 32] in the range of [int]. *)
Definition toInt (z : Z) : Z := (z + 2 ^ 31) mod 2 ^ 32 - 2 ^ 31.

(** [(char)i]: the low byte. *)
Definition toChar (i : Z) : ascii := ascii_of_N (Z.to_N (i mod 256)).

Definition asTuple (p : ValuePtr) : M State (TypePtr * list ValuePtr) :=
  (v <- load p;;
   match v with TupleValue t d => ret (t, d) | _ => undefined end)%M.

End Values.

(* ================================================================== *)
(** * Interpreter *)
(* ================================================================== *)

Module Interpreter.
Import Types Expressions Values.

(** [Interpreter::printError]: sets the latch, writes the message and
    the stack trace, and throws. *)
Definition printError {A} (token : Token) (errorMessage : string)
  : M State A :=
  (modify (λ s, mkState (store s) true (builtinError s) (callStack s)
                        (stdout s)
                        (stderr s ++ [ErrorMessage token errorMessage;
                                      StackTrace (rev (callStack s))]));;;
   throw RuntimeException)%M.

(** [Interpreter::addName]. *)
Definition addName (environment : Environment) (name : string)
  (value : ValuePtr) : Environment :=
  <[name := value]> (if decide (is_Some (environment !! name))
                     then delete name environment else environment).

(** [Interpreter::getName]. *)
Definition getName (token : Token) (environment : Environment)
  (name : string) : M State ValuePtr :=
  match environment !! name with
  | Some value => ret value
  | None =>
      (printError (A := unit) token
         ("Error: " ++ name ++ " does not exist in this scope");;;
       ret errorNullValue)%M
  end.

(** The template parameter of [doOperation]: a value class with a
    [data] member and the comparison operators of its type. *)
Class PrimitiveType := mkPrimitiveType
  { data : Type;
    read : ValuePtr → M State data;
    less : data → data → bool;
    equal : data → data → bool }.

(** [char] is signed on the platforms the interpreter is built for. *)
Definition charToInt (c : ascii) : Z :=
  let n := Z.of_N (N_of_ascii c) in if decide (n < 128) then n else n - 256.

Definition PrimitiveInt : PrimitiveType :=
  mkPrimitiveType Z asInt Z.ltb Z.eqb.
Definition PrimitiveChar : PrimitiveType :=
  mkPrimitiveType ascii asChar (λ a b, charToInt a <? charToInt b) Ascii.eqb.
Definition PrimitiveString : PrimitiveType :=
  mkPrimitiveType string asString String.ltb String.eqb.
Definition PrimitiveBool : PrimitiveType :=
  mkPrimitiveType bool asBool (λ a b, negb a && b) Bool.eqb.

Definition setError : M State unit :=
  modify (λ s, mkState (store s) true (builtinError s) (callStack s)
                       (stdout s) (stderr s)).

Definition newInt (z : Z) : M State ValuePtr := alloc (IntValue mkInt z).
Definition newBool (b : bool) : M State ValuePtr := alloc (BoolValue mkBool b).

(** [Interpreter::doOperation<PrimitiveType>]. *)
Definition doOperation (P : PrimitiveType) (token : Token)
  (op : OperatorTypes) (leftSide rightSide : ValuePtr) : M State ValuePtr :=
  let compareWith (f : data → data → bool) : M State ValuePtr :=
    (l <- read leftSide;; r <- read rightSide;; newBool (f l r))%M in
  match op with
  | PLUS =>
      (l <- asInt leftSide;; r <- asInt rightSide;;
       z <- checked (l + r);; newInt z)%M
  | MINUS =>
      (l <- asInt leftSide;; r <- asInt rightSide;;
       z <- checked (l - r);; newInt z)%M
  | TIMES =>
      (l <- asInt leftSide;; r <- asInt rightSide;;
       z <- checked (l * r);; newInt z)%M
  | DIV =>
      (r <- asInt rightSide;;
       if decide (r = 0) then
         (setError;;;
          printError (A := unit) token "Error: Division by zero!";;;
          ret errorNullValue)
       else
         (l <- asInt leftSide;;
          z <- checked (Z.quot l r);; newInt z))%M
  | MOD =>
      (l <- asInt leftSide;; r <- asInt rightSide;;
       if decide (r = 0) then undefined
       else (checked (Z.quot l r);;; newInt (Z.rem l r)))%M
  | GRT => compareWith (λ l r, less r l)
  | LST => compareWith less
  | NOT => compareWith equal
  | EQ => compareWith equal
  | NOTEQ => compareWith (λ l r, negb (equal l r))
  | GRTEQ => compareWith (λ l r, negb (less l r))
  | LSTEQ => compareWith (λ l r, negb (less r l))
  | AND =>
      (l <- asBool leftSide;; r <- asBool rightSide;; newBool (l && r))%M
  | OR =>
      (l <- asBool leftSide;; r <- asBool rightSide;; newBool (l || r))%M
  | NONE => ret errorNullValue
  end.

Section Interpret.
(** [BuiltinDefinitions::isBuiltin] and [getBuiltin], and
    [BuiltinImplementations::runBuiltin]. *)
Variable isBuiltin : string → bool.
Variable getBuiltin : string → BuiltinEnums.
Variable runBuiltin : Token → FunctionValueData → Environment → M State ValuePtr.

(** [Interpreter::interpret], the dispatch every case recurses
    through.  The environment is a map the callee may write to
    ([interpretProgram], [interpretTypeclass]); the result carries it. *)
Variable interpret : Exp → Environment → M State (ValuePtr * Environment).

(** [Interpreter::interpretPrimitive]. *)
Definition interpretPrimitive (token : Token) (op : OperatorTypes)
  (leftSide rightSide : Exp) (environment : Environment)
  : M State (ValuePtr * Environment) :=
  (l <- interpret leftSide environment;;
   r <- interpret rightSide l.2;;
   leftValue <- load l.1;;
   v <- match dataType (type leftValue) with
        | INT => doOperation PrimitiveInt token op l.1 r.1
        | CHAR => doOperation PrimitiveChar token op l.1 r.1
        | STRING => doOperation PrimitiveString token op l.1 r.1
        | BOOL => doOperation PrimitiveBool token op l.1 r.1
        | _ =>
            (printError (A := unit) token
               ("Error: Binary operator requires primitive types: "
                ++ currentLineText (position token));;;
             ret errorNullValue)
        end;;
   ret (v, r.2))%M.

(** [Interpreter::interpretLet]: [afterLetEnvironment] is a copy of the
    pointer [environment], so the name is bound in the map of the
    caller. *)
Definition interpretLet (ident : string) (value afterLet : Exp)
  (environment : Environment) : M State (ValuePtr * Environment) :=
  (v <- interpret value environment;;
   interpret afterLet (addName v.2 ident v.1))%M.

(** [Interpreter::interpretReference] on a reference whose [fieldIdent]
    is empty: the tag of the value is read, and neither of the two field
    cases applies. *)
Definition interpretName (token : Token) (ident : string)
  (environment : Environment) : M State (ValuePtr * Environment) :=
  (referenceValue <- getName token environment ident;;
   load referenceValue;;;
   ret (referenceValue, environment))%M.

(** One iteration of the loop of [interpretProgram]: the function
    value made for a declaration and the program environment after
    it is bound. *)
Definition declareFunction (programEnvironment : Environment)
  (function : Function) : M State Environment :=
  let name := functionName function in
  let parameterNames := argName <$> functionParameters function in
  let functionValue :=
    if isBuiltin name then
      mkFunctionValue parameterNames (Expressions.functionBody function) ∅
                      true (getBuiltin name)
    else
      mkFunctionValue parameterNames (Expressions.functionBody function)
                      (delete name programEnvironment) false BUILTINNUM in
  (p <- alloc (FunctionValue (functionReturnType function) functionValue);;
   ret (addName programEnvironment name p))%M.

(** The loop of [interpretProgram]. *)
Fixpoint declareFunctions (functions : list Function)
  (programEnvironment : Environment) : M State Environment :=
  match functions with
  | [] => ret programEnvironment
  | function :: rest =>
      (programEnvironment' <- declareFunction programEnvironment function;;
       declareFunctions rest programEnvironment')%M
  end.

(** [Interpreter::interpretProgram]. *)
Definition interpretProgram (functions : list Function) (body : Exp)
  (environment : Environment) : M State (ValuePtr * Environment) :=
  (programEnvironment <- declareFunctions functions environment;;
   interpret body programEnvironment)%M.

(** The first loop of the function case of [interpretApplication]:
    each argument is interpreted in the caller's environment and bound
    to the parameter name of its position.  (The order in which the two
    arguments of [addName] are evaluated is unspecified; the argument
    expression goes first here.) *)
Fixpoint bindArguments (arguments : list Exp) (argumentIndex : nat)
  (parameterNames : list string)
  (environment functionEnvironment : Environment)
  : M State (Environment * Environment) :=
  match arguments with
  | [] => ret (environment, functionEnvironment)
  | argument :: rest =>
      (a <- interpret argument environment;;
       name <- orOutOfRange (parameterNames !! argumentIndex);;
       bindArguments rest (S argumentIndex) parameterNames a.2
                     (addName functionEnvironment name a.1))%M
  end.

(** The second loop: every captured binding whose name is not a
    built-in is bound by [addName], over what is there. *)
Definition addCaptured (functionBodyEnvironment : Environment)
  (functionEnvironment : Environment) : Environment :=
  filter (λ kv, isBuiltin kv.1 = false) functionBodyEnvironment
  ∪ functionEnvironment.

(** The function case of [interpretApplication], from the push on the
    call stack on; [ident] is the value the callee evaluated to. *)
Definition applyFunction (token : Token) (callee : Exp)
  (arguments : list Exp) (ident : ValuePtr) (environment : Environment)
  : M State (ValuePtr * Environment) :=
  (match callee with
   | Reference refToken _ refIdent _ =>
       modify (λ s, mkState (store s) (error s) (builtinError s)
                            (callStack s ++ [(refIdent, refToken)])
                            (stdout s) (stderr s))
   | _ => ret tt
   end;;;
   v <- load ident;;
   match v with
   | FunctionValue _ functionValue =>
       e <- bindArguments arguments 0 (parameterNames functionValue)
                          environment environment;;
       let functionEnvironment :=
         addCaptured (functionBodyEnvironment functionValue) e.2 in
       if Values.isBuiltin functionValue then
         r <- runBuiltin token functionValue functionEnvironment;;
         ret (r, e.1)
       else
         r <- interpret (Values.functionBody functionValue)
                        functionEnvironment;;
         ret (r.1, e.1)
   | _ => undefined
   end)%M.

(** The loop of the typeclass case of [interpretApplication]: each
    argument is bound to the name of the field of its position.  (As in
    [bindArguments], the argument expression goes first.) *)
Fixpoint bindFields (arguments : list Exp) (argumentIndex : nat)
  (fieldTypes : list (string * TypePtr))
  (environment typeclassFields : Environment)
  : M State (Environment * Environment) :=
  match arguments with
  | [] => ret (environment, typeclassFields)
  | argument :: rest =>
      (a <- interpret argument environment;;
       field <- orOutOfRange (fieldTypes !! argumentIndex);;
       bindFields rest (S argumentIndex) fieldTypes a.2
                  (addName typeclassFields field.1 a.1))%M
  end.

(** [Interpreter::interpretApplication]: the callee is a typeclass, a
    list that is indexed, or else taken to be a function. *)
Definition interpretApplication (token : Token) (ident : Exp)
  (arguments : list Exp) (environment : Environment)
  : M State (ValuePtr * Environment) :=
  (i <- interpret ident environment;;
   v <- load i.1;;
   match dataType (type v) with
   | TYPECLASS =>
       match v with
       | TypeclassValue (TypeclassType _ _ fieldTypes as typeclassType)
                        fields =>
           r <- bindFields arguments 0 fieldTypes i.2 fields;;
           p <- alloc (TypeclassValue typeclassType r.2);;
           ret (p, r.1)
       | _ => undefined
       end
   | LIST =>
       a <- orOutOfRange (arguments !! 0%nat);;
       r <- interpret a i.2;;
       index <- asInt r.1;;
       l <- asList i.1;;
       if decide (Z.of_nat (length l.2) ≤ toUnsigned index) then
         printError (A := unit) token
           ("Error: Out of bounds list access: "
            ++ currentLineText (position token));;;
         ret (errorNullValue, r.2)
       else
         x <- orOutOfRange (l.2 !! Z.to_nat (toUnsigned index));;
         ret (x, r.2)
   | _ => applyFunction token ident arguments i.1 i.2
   end)%M.
End Interpret.

End Interpreter.

(* ================================================================== *)
(** * Built-in implementations *)
(* ================================================================== *)

Module BuiltinImplementations.
Import Types Expressions Values.

(** [BuiltinImplementations::printError]: sets the static latch and
    writes the message; the built-in then returns [nullValue]. *)
Definition printError (token : Token) (errorMessage : string) : M State unit :=
  modify (λ s, mkState (store s) (error s) true (callStack s) (stdout s)
                       (stderr s ++ [ErrorMessage token errorMessage])).

(** [getArgumentValue]: [environment.at(parameterNames.at(index))]. *)
Definition getArgumentValue (index : nat) (functionValue : FunctionValueData)
  (environment : Environment) : M State ValuePtr :=
  (name <- orOutOfRange (parameterNames functionValue !! index);;
   orOutOfRange (environment !! name))%M.

(** [static_pointer_cast<Types::ListType>(listValue->type)->listType]. *)
Definition listTypeOf (t : TypePtr) : M State (option TypePtr) :=
  match t with ListType _ lt => ret lt | _ => undefined end.

(** [makeListType]. *)
Definition makeListType (listValue : ValuePtr) (listData : list ValuePtr)
  : M State ValuePtr :=
  (l <- asList listValue;;
   lt <- listTypeOf l.1;;
   alloc (ListValue (ListType LIST lt) listData))%M.

(** [elementValue->type->compare(listType of listValue)]: the flag, with
    the writes of [compare] put back into the two type objects. *)
Definition compareElementType (elementValue listValue : ValuePtr)
  : M State bool :=
  (e <- load elementValue;;
   l <- asList listValue;;
   match l.1 with
   | ListType d (Some lt) =>
       c <- orUndefined (Types.compare (type e) lt);;
       let '(equal, elementType', listType') := c in
       writeType elementValue elementType';;;
       writeType listValue (ListType d (Some listType'));;;
       ret equal
   | ListType d None => ret false
   | _ => undefined
   end)%M.

(** [listValue1->type->compare(listValue2->type)]. *)
Definition compareListTypes (listValue1 listValue2 : ValuePtr) : M State bool :=
  (l1 <- asList listValue1;;
   l2 <- asList listValue2;;
   c <- orUndefined (Types.compare l1.1 l2.1);;
   let '(equal, type1', type2') := c in
   writeType listValue1 type1';;;
   writeType listValue2 type2';;;
   ret equal)%M.

(** [value->type->compare(std::make_shared<Types::IntType>())]. *)
Definition compareWithInt (value : ValuePtr) : M State bool :=
  (v <- load value;;
   c <- orUndefined (Types.compare (type v) mkInt);;
   let '(equal, type', _) := c in
   writeType value type';;;
   ret equal)%M.

(** [unsigned int index = ...->data]. *)
Definition indexOf (p : ValuePtr) : M State nat :=
  (i <- asInt p;; ret (Z.to_nat (toUnsigned i)))%M.

(** [v.insert(v.begin() + index, x)]: the iterator must be in range. *)
Definition vectorInsert {A} (index : nat) (x : A) (v : list A) : option (list A) :=
  if decide (index ≤ length v)%nat then Some (take index v ++ x :: drop index v)
  else None.

(** [v.erase(v.begin() + index)]: the iterator must point to an element. *)
Definition vectorErase {A} (index : nat) (v : list A) : option (list A) :=
  if decide (index < length v)%nat then Some (delete index v) else None.

(** [v.pop_back()] on a vector that is not empty. *)
Definition vectorPopBack {A} (v : list A) : option (list A) :=
  match v with [] => None | _ => Some (removelast v) end.

Definition elementMismatch (token : Token) : string :=
  "Error: Element type must match list type: "
  ++ currentLineText (position token).
Definition outOfBounds (token : Token) : string :=
  "Error: Out of bounds list access: " ++ currentLineText (position token).

Section Builtins.
Variable token : Token.
Variable functionValue : FunctionValueData.
Variable environment : Environment.

Definition insertBuiltin : M State ValuePtr :=
  (listValue <- getArgumentValue 0 functionValue environment;;
   elementValue <- getArgumentValue 1 functionValue environment;;
   equal <- compareElementType elementValue listValue;;
   if negb equal then printError token (elementMismatch token);;; ret nullValue
   else
     i <- getArgumentValue 2 functionValue environment;;
     index <- indexOf i;;
     l <- asList listValue;;
     if negb (bool_decide (l.2 = [])) && bool_decide (length l.2 ≤ index)%nat
     then printError token (outOfBounds token);;; ret nullValue
     else
       listData <- orUndefined (vectorInsert index elementValue l.2);;
       makeListType listValue listData)%M.

Definition removeBuiltin : M State ValuePtr :=
  (listValue <- getArgumentValue 0 functionValue environment;;
   l <- asList listValue;;
   if bool_decide (l.2 = []) then
     printError token ("Error: Cannot remove from empty list: "
                       ++ currentLineText (position token));;;
     ret nullValue
   else
     i <- getArgumentValue 1 functionValue environment;;
     index <- indexOf i;;
     if bool_decide (length l.2 ≤ index)%nat
     then printError token (outOfBounds token);;; ret nullValue
     else
       listData <- orUndefined (vectorErase index l.2);;
       makeListType listValue listData)%M.

Definition replaceBuiltin : M State ValuePtr :=
  (listValue <- getArgumentValue 0 functionValue environment;;
   l <- asList listValue;;
   if bool_decide (l.2 = []) then
     printError token ("Error: Cannot replace with element in empty list: "
                       ++ currentLineText (position token));;;
     ret nullValue
   else
     i <- getArgumentValue 2 functionValue environment;;
     index <- indexOf i;;
     if bool_decide (length l.2 ≤ index)%nat
     then printError token (outOfBounds token);;; ret nullValue
     else
       elementValue <- getArgumentValue 1 functionValue environment;;
       equal <- compareElementType elementValue listValue;;
       if negb equal
       then printError token (elementMismatch token);;; ret nullValue
       else
         (if decide (index < length l.2)%nat then ret tt
          else throw out_of_range);;;
         makeListType listValue (<[index := elementValue]> l.2))%M.

Definition pushFrontBuiltin : M State ValuePtr :=
  (listValue <- getArgumentValue 0 functionValue environment;;
   elementValue <- getArgumentValue 1 functionValue environment;;
   equal <- compareElementType elementValue listValue;;
   if negb equal then printError token (elementMismatch token);;; ret nullValue
   else
     l <- asList listValue;;
     listData <- orUndefined (vectorInsert 0 elementValue l.2);;
     makeListType listValue listData)%M.

Definition pushBackBuiltin : M State ValuePtr :=
  (listValue <- getArgumentValue 0 functionValue environment;;
   elementValue <- getArgumentValue 1 functionValue environment;;
   equal <- compareElementType elementValue listValue;;
   if negb equal then printError token (elementMismatch token);;; ret nullValue
   else
     l <- asList listValue;;
     listData <- orUndefined (vectorInsert (length l.2) elementValue l.2);;
     makeListType listValue listData)%M.
Definition insertInPlaceBuiltin : M State ValuePtr :=
  (listValue <- getArgumentValue 0 functionValue environment;;
   elementValue <- getArgumentValue 1 functionValue environment;;
   equal <- compareElementType elementValue listValue;;
   if negb equal then printError token (elementMismatch token);;; ret nullValue
   else
     i <- getArgumentValue 2 functionValue environment;;
     index <- indexOf i;;
     l <- asList listValue;;
     if negb (bool_decide (l.2 = [])) && bool_decide (length l.2 ≤ index)%nat
     then printError token (outOfBounds token);;; ret nullValue
     else
       listData <- orUndefined (vectorInsert index elementValue l.2);;
       writeListData listValue listData;;;
       ret listValue)%M.

Definition removeInPlaceBuiltin : M State ValuePtr :=
  (listValue <- getArgumentValue 0 functionValue environment;;
   l <- asList listValue;;
   if bool_decide (l.2 = []) then
     printError token ("Error: Cannot remove from empty list: "
                       ++ currentLineText (position token));;;
     ret nullValue
   else
     i <- getArgumentValue 1 functionValue environment;;
     index <- indexOf i;;
     if bool_decide (length l.2 ≤ index)%nat
     then printError token (outOfBounds token);;; ret nullValue
     else
       listData <- orUndefined (vectorErase index l.2);;
       writeListData listValue listData;;;
       ret listValue)%M.

Definition replaceInPlaceBuiltin : M State ValuePtr :=
  (listValue <- getArgumentValue 0 functionValue environment;;
   l <- asList listValue;;
   if bool_decide (l.2 = []) then
     printError token ("Error: Cannot replace with element in empty list: "
                       ++ currentLineText (position token));;;
     ret nullValue
   else
     i <- getArgumentValue 2 functionValue environment;;
     index <- indexOf i;;
     if bool_decide (length l.2 ≤ index)%nat
     then printError token (outOfBounds token);;; ret nullValue
     else
       elementValue <- getArgumentValue 1 functionValue environment;;
       equal <- compareElementType elementValue listValue;;
       if negb equal
       then printError token (elementMismatch token);;; ret nullValue
       else
         (if decide (index < length l.2)%nat then ret tt
          else throw out_of_range);;;
         writeListData listValue (<[index := elementValue]> l.2);;;
         ret listValue)%M.

Definition headBuiltin : M State ValuePtr :=
  (listValue <- getArgumentValue 0 functionValue environment;;
   l <- asList listValue;;
   if bool_decide (l.2 = []) then
     printError token ("Error: Cannot get sublist from empty list: "
                       ++ currentLineText (position token));;;
     ret nullValue
   else
     listData <- orUndefined (vectorPopBack l.2);;
     makeListType listValue listData)%M.

Definition tailBuiltin : M State ValuePtr :=
  (listValue <- getArgumentValue 0 functionValue environment;;
   l <- asList listValue;;
   if bool_decide (l.2 = []) then
     printError token ("Error: Cannot get sublist from empty list: "
                       ++ currentLineText (position token));;;
     ret nullValue
   else
     listData <- orUndefined (vectorErase 0 l.2);;
     makeListType listValue listData)%M.

Definition combineBuiltin : M State ValuePtr :=
  (listValue1 <- getArgumentValue 0 functionValue environment;;
   listValue2 <- getArgumentValue 1 functionValue environment;;
   equal <- compareListTypes listValue1 listValue2;;
   if negb equal then
     printError token ("Error: List types must match: "
                       ++ currentLineText (position token));;;
     ret nullValue
   else
     l1 <- asList listValue1;;
     l2 <- asList listValue2;;
     makeListType listValue1 (l1.2 ++ l2.2))%M.

(** The loop of [rangeBuiltin]: [at(index)] for every index from
    [startIndex] to [endIndex], both included. *)
Definition rangeLoop (startIndex endIndex : nat) (source : list ValuePtr)
  : M State (list ValuePtr) :=
  orOutOfRange (mapM (λ index, source !! index)
                     (seq startIndex (S endIndex - startIndex))).

(** [rangeBuiltin].  The two indices are [unsigned int]: the tests
    [startIndex < 0] and [endIndex < 0] of the source never hold. *)
Definition rangeBuiltin : M State ValuePtr :=
  (listValue <- getArgumentValue 0 functionValue environment;;
   startValue <- getArgumentValue 1 functionValue environment;;
   endValue <- getArgumentValue 2 functionValue environment;;
   l <- asList listValue;;
   if bool_decide (l.2 = []) then
     printError token ("Error: Cannot get sublist from empty list: "
                       ++ currentLineText (position token));;;
     ret nullValue
   else
     startIsInt <- compareWithInt startValue;;
     if negb startIsInt then
       printError token ("Error: Start range index must be integer type: "
                         ++ currentLineText (position token));;;
       ret nullValue
     else
       endIsInt <- compareWithInt endValue;;
       if negb endIsInt then
         printError token ("Error: End range index must be integer type: "
                           ++ currentLineText (position token));;;
         ret nullValue
       else
         startIndex <- indexOf startValue;;
         endIndex <- indexOf endValue;;
         if bool_decide (endIndex < startIndex)%nat
            || bool_decide (length l.2 ≤ startIndex)%nat
            || bool_decide (length l.2 ≤ endIndex)%nat
         then
           printError token ("Error: Invalid range: "
                             ++ currentLineText (position token));;;
           ret nullValue
         else
           listData <- rangeLoop startIndex endIndex l.2;;
           makeListType listValue listData)%M.

(** The loop of [stringToCharListBuiltin]: one new [CharValue] per
    character, in order. *)
Fixpoint charValues (stringValue : string) : M State (list ValuePtr) :=
  match stringValue with
  | EmptyString => ret []
  | String character rest =>
      (p <- alloc (CharValue mkChar character);;
       ps <- charValues rest;;
       ret (p :: ps))%M
  end.

Definition stringToCharListBuiltin : M State ValuePtr :=
  (s <- getArgumentValue 0 functionValue environment;;
   stringValue <- asString s;;
   listData <- charValues stringValue;;
   alloc (ListValue (mkList mkChar) listData))%M.

(** The loop of [charListToStringBuiltin]: the [data] of every element,
    read as a [CharValue], appended in order. *)
Fixpoint charData (listData : list ValuePtr) : M State string :=
  match listData with
  | [] => ret EmptyString
  | value :: rest =>
      (c <- asChar value;;
       s <- charData rest;;
       ret (String c s))%M
  end.

Definition charListToStringBuiltin : M State ValuePtr :=
  (listValue <- getArgumentValue 0 functionValue environment;;
   l <- asList listValue;;
   stringValue <- charData l.2;;
   alloc (StringValue mkString stringValue))%M.

(** [std::cout << text]. *)
Definition cout (text : string) : M State unit :=
  modify (λ s, mkState (store s) (error s) (builtinError s) (callStack s)
                       (stdout s ++ text) (stderr s)).

Definition endl : string := String (ascii_of_nat 10) EmptyString.

(** [printValue]. *)
Definition printValue (value : ValuePtr) (collectionType : string)
  : M State unit :=
  (v <- load value;;
   (if negb (isPrimitiveType (type v))
       || bool_decide (dataType (type v) = GEN)
    then printError token ("Error: " ++ collectionType
                           ++ " only takes non-generic primitives")
    else ret tt);;;
   match dataType (type v) with
   | INT => i <- asInt value;; cout (pretty i)
   | CHAR => c <- asChar value;; cout ("'" ++ String c EmptyString ++ "'")
   | STRING =>
       s <- asString value;;
       cout (String (ascii_of_nat 34) s ++ String (ascii_of_nat 34) EmptyString)
   | BOOL => b <- asBool value;; cout (if b then "true" else "false")
   | _ => ret tt
   end)%M.

(** The loop of [printListBuiltin] over a list that is not empty: every
    element but the last is followed by a comma. *)
Fixpoint printElements (listData : list ValuePtr) : M State unit :=
  match listData with
  | [] => ret tt
  | [value] => printValue value "printList"
  | value :: rest =>
      (printValue value "printList";;; cout ", ";;; printElements rest)%M
  end.

Definition printListBuiltin : M State ValuePtr :=
  (listValue <- getArgumentValue 0 functionValue environment;;
   l <- asList listValue;;
   cout "(";;;
   if bool_decide (l.2 = []) then cout (")" ++ endl);;; ret nullValue
   else printElements l.2;;; cout (")" ++ endl);;; ret nullValue)%M.

Definition pushFrontInPlaceBuiltin : M State ValuePtr :=
  (listValue <- getArgumentValue 0 functionValue environment;;
   elementValue <- getArgumentValue 1 functionValue environment;;
   equal <- compareElementType elementValue listValue;;
   if negb equal then printError token (elementMismatch token);;; ret nullValue
   else
     l <- asList listValue;;
     listData <- orUndefined (vectorInsert 0 elementValue l.2);;
     writeListData listValue listData;;;
     ret listValue)%M.

Definition pushBackInPlaceBuiltin : M State ValuePtr :=
  (listValue <- getArgumentValue 0 functionValue environment;;
   elementValue <- getArgumentValue 1 functionValue environment;;
   equal <- compareElementType elementValue listValue;;
   if negb equal then printError token (elementMismatch token);;; ret nullValue
   else
     l <- asList listValue;;
     listData <- orUndefined (vectorInsert (length l.2) elementValue l.2);;
     writeListData listValue listData;;;
     ret listValue)%M.

Definition emptyElement : string :=
  "Error: Cannot get element from empty list: "
  ++ currentLineText (position token).

Definition frontBuiltin : M State ValuePtr :=
  (listValue <- getArgumentValue 0 functionValue environment;;
   l <- asList listValue;;
   if bool_decide (l.2 = []) then printError token emptyElement;;; ret nullValue
   else orOutOfRange (l.2 !! 0%nat))%M.

Definition backBuiltin : M State ValuePtr :=
  (listValue <- getArgumentValue 0 functionValue environment;;
   l <- asList listValue;;
   if bool_decide (l.2 = []) then printError token emptyElement;;; ret nullValue
   else orOutOfRange (l.2 !! (length l.2 - 1)%nat))%M.

(** [appendBuiltin].  The range inserted at the end of the first vector
    is the second vector; [insert] of a range of the vector written to
    is undefined. *)
Definition appendBuiltin : M State ValuePtr :=
  (listValue1 <- getArgumentValue 0 functionValue environment;;
   listValue2 <- getArgumentValue 1 functionValue environment;;
   equal <- compareListTypes listValue1 listValue2;;
   if negb equal then
     printError token ("Error: List types must match: "
                       ++ currentLineText (position token));;;
     ret nullValue
   else
     l1 <- asList listValue1;;
     l2 <- asList listValue2;;
     (if decide (listValue1 = listValue2) then undefined else ret tt);;;
     writeListData listValue1 (l1.2 ++ l2.2);;;
     ret listValue1)%M.

(** [sizeBuiltin]: [size()] is converted to the [int] of [IntValue]. *)
Definition sizeBuiltin : M State ValuePtr :=
  (listValue <- getArgumentValue 0 functionValue environment;;
   l <- asList listValue;;
   alloc (IntValue mkInt (toInt (Z.of_nat (length l.2)))))%M.

Definition isEmptyBuiltin : M State ValuePtr :=
  (listValue <- getArgumentValue 0 functionValue environment;;
   l <- asList listValue;;
   alloc (BoolValue mkBool (bool_decide (l.2 = []))))%M.

Definition intToCharBuiltin : M State ValuePtr :=
  (p <- getArgumentValue 0 functionValue environment;;
   intValue <- asInt p;;
   alloc (CharValue mkChar (toChar intValue)))%M.

Definition charToIntBuiltin : M State ValuePtr :=
  (p <- getArgumentValue 0 functionValue environment;;
   charValue <- asChar p;;
   alloc (IntValue mkInt (Interpreter.charToInt charValue)))%M.

(** The loop of [printTuple] and the call after it, on a vector that is
    not empty: every element but the last is followed by a comma. *)
Fixpoint printTupleElements (tupleData : list ValuePtr)
  (collectionType : string) : M State unit :=
  match tupleData with
  | [] => ret tt
  | [value] => printValue value collectionType
  | value :: rest =>
      (printValue value collectionType;;; cout ", ";;;
       printTupleElements rest collectionType)%M
  end.

(** [printTuple].  On an empty vector the bound [size() - 1] of the loop
    wraps around, and [at(0)] throws. *)
Definition printTuple (tupleData : list ValuePtr) (collectionType : string)
  : M State unit :=
  (cout "(";;;
   if bool_decide (tupleData = []) then throw out_of_range
   else printTupleElements tupleData collectionType;;; cout (")" ++ endl))%M.

Definition print2TupleBuiltin : M State ValuePtr :=
  (tupleValue <- getArgumentValue 0 functionValue environment;;
   t <- asTuple tupleValue;;
   printTuple t.2 "print2Tuple";;; ret nullValue)%M.

Definition print3TupleBuiltin : M State ValuePtr :=
  (tupleValue <- getArgumentValue 0 functionValue environment;;
   t <- asTuple tupleValue;;
   printTuple t.2 "print3Tuple";;; ret nullValue)%M.

Definition print4TupleBuiltin : M State ValuePtr :=
  (tupleValue <- getArgumentValue 0 functionValue environment;;
   t <- asTuple tupleValue;;
   printTuple t.2 "print4Tuple";;; ret nullValue)%M.
End Builtins.

End BuiltinImplementations.

(* ================================================================== *)
(** * Lexer and parser: import pre-processing *)
(* ================================================================== *)

Module Lexer.
Import Expressions.

Section Files.
(** The files of the working directory: the text of a file that can
    be opened. *)
Variable fileSystem : string → option string.

Definition extension : string := ".bnt".

(** Whether [s] ends in [suffix]. *)
Definition endsWith (suffix s : string) : bool :=
  bool_decide (String.substring (String.length s - String.length suffix)
                                (String.length suffix) s = suffix).

(** [Lexer::readFile]: the empty string for a name without the
    extension or a file that cannot be opened. *)
Definition readFile (sourceFileName : string) : string :=
  if bool_decide (String.length sourceFileName ≤ String.length extension)%nat
     || negb (endsWith extension sourceFileName)
  then EmptyString
  else match fileSystem sourceFileName with
       | Some sourceStream => sourceStream
       | None => EmptyString
       end.
End Files.

(** The characters the lexer names. *)
Definition doubleQuote : ascii := "034"%char.
Definition singleQuote : ascii := "039"%char.
Definition newline : ascii := "010"%char.
Definition tab : ascii := "009"%char.
Definition carriageReturn : ascii := "013"%char.

(** [std::string(1, c)]. *)
Definition single (c : ascii) : string := String c EmptyString.

Definition CHAR_DELIMS : list ascii :=
  list_ascii_of_string "[](){}=->:;,*/+<!'"
  ++ doubleQuote :: list_ascii_of_string ".&|%".

Definition KEYWORDS : list string :=
  [ "if"; "else"; "func"; "typeclass"; "type"; "val"; "List"; "Tuple";
    "true"; "false"; "int"; "bool"; "char"; "null"; "string"; "case";
    "match"; "any"; "import"; ".." ].

Definition DELIMITERS : list string :=
  [ "["; "]"; "("; ")"; "{"; "}"; "="; "->"; ":"; ";"; ","; "'";
    single doubleQuote; "."; "+"; "-"; "/"; "*"; "%"; "<"; ">"; "!"; "&&";
    "||"; "=="; "!="; "<="; ">=" ].

(** The members of a [Lexer] that lexing changes, and the static
    [Lexer::inQuotes], which all lexers share.  The text written to the
    log is left out. *)
Record State := mkState
  { tokenStream : list Token;
    currentTokenBlock : string;
    currentPosition : FilePosition;
    inComment : bool;
    updateFilePosition : bool;
    error : bool;
    inQuotes : bool }.

Definition setTokenStream (v : list Token) (s : State) : State :=
  mkState v (currentTokenBlock s) (currentPosition s) (inComment s)
          (updateFilePosition s) (error s) (inQuotes s).

Definition setCurrentTokenBlock (v : string) (s : State) : State :=
  mkState (tokenStream s) v (currentPosition s) (inComment s)
          (updateFilePosition s) (error s) (inQuotes s).

Definition setCurrentPosition (v : FilePosition) (s : State) : State :=
  mkState (tokenStream s) (currentTokenBlock s) v (inComment s)
          (updateFilePosition s) (error s) (inQuotes s).

Definition setInComment (v : bool) (s : State) : State :=
  mkState (tokenStream s) (currentTokenBlock s) (currentPosition s) v
          (updateFilePosition s) (error s) (inQuotes s).

Definition setUpdateFilePosition (v : bool) (s : State) : State :=
  mkState (tokenStream s) (currentTokenBlock s) (currentPosition s)
          (inComment s) v (error s) (inQuotes s).

Definition setError (v : bool) (s : State) : State :=
  mkState (tokenStream s) (currentTokenBlock s) (currentPosition s)
          (inComment s) (updateFilePosition s) v (inQuotes s).

Definition setInQuotes (v : bool) (s : State) : State :=
  mkState (tokenStream s) (currentTokenBlock s) (currentPosition s)
          (inComment s) (updateFilePosition s) (error s) v.

(** [Lexer::Lexer]: the position starts at line 1, column 1; the flags of
    a new lexer, which [lexer.hpp] initialises, are taken to be clear;
    [inQuotes] is what the last lexer left. *)
Definition Lexer (inQuotes : bool) : State :=
  mkState [] EmptyString (mkFilePosition 1 1 EmptyString) false false false
          inQuotes.

(** [Lexer::printError]: the latch; the message goes to the log. *)
Definition printError (culprit : string) (s : State) : State :=
  setError true s.

Definition isCharDelimiter (character : ascii) : bool :=
  bool_decide (character ∈ CHAR_DELIMS).

Definition between (low high : nat) (character : ascii) : bool :=
  bool_decide (low ≤ nat_of_ascii character ≤ high)%nat.

Definition isdigit : ascii → bool := between 48 57.

(** [isalnum] in the C locale. *)
Definition isalnum (character : ascii) : bool :=
  isdigit character || between 65 90 character || between 97 122 character.

Definition isValidCharacter (character : ascii) : bool :=
  isalnum character || isCharDelimiter character
  || bool_decide (character = "_"%char) || bool_decide (character = "\"%char).

(** [Lexer::isDelimiter] flips [inQuotes] on a lone quote. *)
Definition isDelimiter (tokenString : string) (s : State) : bool * State :=
  (bool_decide (tokenString ∈ DELIMITERS),
   if bool_decide (tokenString = "'" ∨ tokenString = single doubleQuote)
   then setInQuotes (negb (inQuotes s)) s else s).

Definition isKeyword (tokenString : string) : bool :=
  bool_decide (tokenString ∈ KEYWORDS).

Definition isValue (tokenString : string) : bool :=
  forallb isdigit (list_ascii_of_string tokenString).

(** [IDENT_REGEX], [^[a-zA-z_][a-zA-Z0-9_]*$]: the range [A-z] of the
    first class runs over the codes 65 to 122. *)
Definition matchesIdent (tokenString : string) : bool :=
  match tokenString with
  | EmptyString => false
  | String first rest =>
      (between 97 122 first || between 65 122 first
       || bool_decide (first = "_"%char))
      && forallb (λ c, between 97 122 c || between 65 90 c || isdigit c
                       || bool_decide (c = "_"%char))
                 (list_ascii_of_string rest)
  end.

Definition isIdentity (tokenString : string) (s : State) : bool :=
  matchesIdent tokenString || inQuotes s.

(** [Lexer::makeToken]. *)
Definition makeToken (tokenString : string) (s : State) : Token * State :=
  let filePosition :=
    mkFilePosition (fileLine (currentPosition s))
                   (fileColumn (currentPosition s)
                    - Z.of_nat (String.length tokenString))
                   (currentLineText (currentPosition s)) in
  let '(delimiter, s1) := isDelimiter tokenString s in
  if delimiter then (mkToken DELIM filePosition tokenString, s1)
  else if isKeyword tokenString
       then (mkToken KEYWORD filePosition tokenString, s1)
  else if isValue tokenString then (mkToken VAL filePosition tokenString, s1)
  else if isIdentity tokenString s1
       then (mkToken IDENT filePosition tokenString, s1)
  else (mkToken ERROR filePosition tokenString, printError tokenString s1).

(** [tokenStream.push_back(makeToken(tokenString))]. *)
Definition pushToken (tokenString : string) (s : State) : State :=
  let '(token, s1) := makeToken tokenString s in
  setTokenStream (tokenStream s1 ++ [token]) s1.

Definition flush (tokenString : string) (s : State) : State :=
  if decide (tokenString = EmptyString) then s else pushToken tokenString s.

(** The [for] loop of [lexCharacter] over the rest of the block, with
    the local [tokenString]; it returns what is left in [tokenString].
    The character after the last one of the block is the terminator of
    the string. *)
Fixpoint lexBlock (block tokenString : string) (s : State) : string * State :=
  match block with
  | EmptyString => (tokenString, s)
  | String character rest =>
      if isCharDelimiter character && negb (inQuotes s)
         || bool_decide (character = doubleQuote)
         || bool_decide (character = singleQuote)
      then
        let s1 := flush tokenString s in
        match rest with
        | String next rest' =>
            if isCharDelimiter next then
              let delimString := String character (single next) in
              let '(delimiter, s2) := isDelimiter delimString s1 in
              lexBlock rest' EmptyString
                (if delimiter then pushToken delimString s2
                 else pushToken (single next)
                                (pushToken (single character) s2))
            else lexBlock rest EmptyString (pushToken (single character) s1)
        | EmptyString => (EmptyString, pushToken (single character) s1)
        end
      else lexBlock rest (tokenString ++ single character)%string s
  end.

Definition advance (columns : Z) (character : ascii) (s : State) : State :=
  let p := currentPosition s in
  setCurrentPosition
    (mkFilePosition (fileLine p) (fileColumn p + columns)
                    (currentLineText p ++ single character)%string) s.

Definition addToBlock (character : ascii) (s : State) : State :=
  setCurrentTokenBlock (currentTokenBlock s ++ single character)%string s.

(** [Lexer::filterComments]. *)
Definition filterComments (character : ascii) (s : State) : bool * State :=
  if decide (character = "#"%char)
  then (inQuotes s, setInComment (negb (inQuotes s)) s)
  else if decide (character = newline) then (true, setInComment false s)
  else (negb (inComment s), s).

(** [Lexer::filterWhitespace]. *)
Definition filterWhitespace (character : ascii) (s : State) : bool * State :=
  if decide (character = " "%char ∨ character = tab) then
    let s1 := advance (if decide (character = tab) then 8 else 1) character s in
    (negb (inQuotes s),
     if inQuotes s then addToBlock character s1 else s1)
  else if decide (character = carriageReturn) then (false, s)
  else if decide (character = newline) then
    let s1 := setUpdateFilePosition true s in
    (true, if inQuotes s then printError (single character) s1 else s1)
  else if decide (character = doubleQuote ∨ character = singleQuote) then
    let s1 := addToBlock character (advance 1 character s) in
    (inQuotes s, setInQuotes (negb (inQuotes s)) s1)
  else if isValidCharacter character || inQuotes s
       then (false, addToBlock character (advance 1 character s))
  else (false, printError (single character) (advance 1 character s)).

(** [Lexer::lexCharacter]. *)
Definition lexCharacter (character : ascii) (s : State) : State :=
  let '(kept, s1) := filterComments character s in
  let s2 :=
    if kept then
      let '(complete, s2) := filterWhitespace character s1 in
      if complete then
        let '(tokenString, s3) := lexBlock (currentTokenBlock s2) EmptyString s2 in
        setCurrentTokenBlock EmptyString (flush tokenString s3)
      else s2
    else s1 in
  if updateFilePosition s2 then
    setUpdateFilePosition false
      (setCurrentPosition
         (mkFilePosition (fileLine (currentPosition s2) + 1) 1 EmptyString) s2)
  else s2.

(** [Lexer(sourceStream).makeTokenStream()], from the value the static
    [inQuotes] has; it returns the tokens and the value it leaves. *)
Definition makeTokenStream (sourceStream : string) (inQuotes0 : bool)
  : list Token * bool :=
  let s1 := foldl (λ s character, lexCharacter character s) (Lexer inQuotes0)
                  (list_ascii_of_string sourceStream) in
  let s2 := if decide (currentTokenBlock s1 = EmptyString) then s1
            else lexCharacter newline s1 in
  (tokenStream s2, inQuotes s2).

End Lexer.

Module Parser.
Import Expressions.

(** [std::string::back]. *)
Fixpoint back (s : string) : option ascii :=
  match s with
  | EmptyString => None
  | String c EmptyString => Some c
  | String _ rest => back rest
  end.

(** The member [tokenStream] of the parser, and the static
    [Lexer::inQuotes] that the lexers of the imported files share. *)
Record State := mkState { tokenStream : list Token; inQuotes : bool }.

Section Imports.
Variable fileSystem : string → option string.

(** The [while] loop of [parseImport] on the tokens from [tokenIndex]
    on: the segments of the path are appended to the file name and
    erased.  [at] throws at the end of the stream. *)
Fixpoint pathSegments (sourceFileName : string) (rest : list Token)
  {struct rest} : option (string * list Token) :=
  match rest with
  | [] => None
  | t :: rest1 =>
      if decide (text t = "/") then
        match rest1 with
        | [] => None
        | segment :: rest2 =>
            pathSegments (sourceFileName ++ text t ++ text segment) rest2
        end
      else Some (sourceFileName, rest)
  end.

(** [Parser::parseImport]. *)
Definition parseImport (tokenIndex : nat) : M State (list Token) :=
  λ s,
    let erased := mkState (take tokenIndex (tokenStream s)) (inQuotes s) in
    match drop tokenIndex (tokenStream s) with
    | [] => Undefined
    | _ :: [] => Throw out_of_range erased
    | _ :: fileName :: rest =>
        match pathSegments (text fileName) rest with
        | None => Throw out_of_range erased
        | Some (sourceFileName, rest') =>
            let tokenStream' := take tokenIndex (tokenStream s) ++ rest' in
            let stream :=
              Lexer.readFile fileSystem (sourceFileName ++ ".bnt") in
            if decide (stream = EmptyString)
            then Done [] (mkState tokenStream' (inQuotes s))
            else
              let stream' :=
                if decide (back stream = Some ";"%char) then stream
                else (stream ++ ";")%string in
              let '(newStream, inQuotes') :=
                Lexer.makeTokenStream stream' (inQuotes s) in
              Done newStream (mkState tokenStream' inQuotes')
        end
    end.

(** [tokenStream.insert(tokenStream.begin() + tokenIndex, ...)]. *)
Definition insertTokens (tokenIndex : nat) (newStream : list Token)
  (s : State) : State :=
  mkState (take tokenIndex (tokenStream s) ++ newStream
           ++ drop tokenIndex (tokenStream s))
          (inQuotes s).

(** The [for] loop of [preprocessImports] from [tokenIndex] on, with
    the flag [importing].  The stream can grow while it is scanned;
    [fuel] bounds the number of iterations, [None] is a loop that has
    not finished within it. *)
Fixpoint scan (fuel : nat) (tokenIndex : nat) (importing : bool)
  (s : State) : option (Result State bool) :=
  match fuel with
  | O => None
  | S fuel' =>
      match tokenStream s !! tokenIndex with
      | None => Some (Done importing s)
      | Some t =>
          if decide (text t = "import") then
            match parseImport tokenIndex s with
            | Done newStream s' =>
                scan fuel' (S tokenIndex) true
                     (insertTokens tokenIndex newStream s')
            | Throw e s' => Some (Throw e s')
            | Undefined => Some Undefined
            end
          else scan fuel' (S tokenIndex) importing s
      end
  end.

(** [Parser::preprocessImports]: the [do]-[while] loop, bounded by
    [fuel] as well. *)
Fixpoint preprocessImports (fuel : nat) (s : State)
  : option (Result State unit) :=
  match fuel with
  | O => None
  | S fuel' =>
      match scan fuel 0 false s with
      | None => None
      | Some (Done true s') => preprocessImports fuel' s'
      | Some (Done false s') => Some (Done tt s')
      | Some (Throw e s') => Some (Throw e s')
      | Some Undefined => Some Undefined
      end
  end.
End Imports.

(** [Parser::dummy], with the static [dummy_count] passed in and
    returned; the increment of the largest [int] is undefined. *)
Definition dummy (dummy_count : Z) : option (string * Z) :=
  if decide (dummy_count < Values.INT_MAX)
  then Some (("dummy$" ++ pretty dummy_count)%string, dummy_count + 1)
  else None.

End Parser.

(* ================================================================== *)
(** * Vocabulary of the statements *)
(* ================================================================== *)

Module Statements.
Import Types Expressions Values.

(** A comparison that returns true; one with undefined behaviour
    returns nothing. *)
Definition succeeds (r : CompareResult) : Prop :=
  ∃ this' other', r = Some (true, this', other').

(** The state [Interpreter::printError] leaves when it throws. *)
Definition failed (token : Token) (errorMessage : string) (s : State) : State :=
  mkState (store s) true (builtinError s) (callStack s) (stdout s)
          (stderr s ++ [ErrorMessage token errorMessage;
                        StackTrace (rev (callStack s))]).

(** The operands of [1 / 0] and [1 % 0], and the token of the operator. *)
Definition oneAndZero : State :=
  setStore (λ st, st ++ [IntValue mkInt 1; IntValue mkInt 0]) initialState.

Definition operatorToken : Token :=
  mkToken DELIM (mkFilePosition 1 3 "1 % 0") "%".

(** The operands of [-7 / 2] and [-7 % 2]. *)
Definition minusSevenAndTwo : State :=
  setStore (λ st, st ++ [IntValue mkInt (-7); IntValue mkInt 2]) initialState.

(** [func f(f: int) -> int = f;] as [parseFunc] builds it. *)
Definition fToken : Token := mkToken IDENT (mkFilePosition 1 6 "func f(f: int) -> int = f;") "f".

Definition selfNamedParameter : Function :=
  mkFunction fToken
             (FuncType FUNC [] [mkInt] ["f"] mkInt (Some 0%nat) None false)
             "f" [] [mkArgument fToken mkInt "f"]
             (Reference fToken mkUnknown "f" EmptyString)
             false BUILTINNUM.

(** [func fact(n: int) -> int = ...;] with the body left out, and a call
    [fact(5)] whose argument evaluates to a value at address [2]. *)
Definition factToken : Token :=
  mkToken IDENT (mkFilePosition 1 6 "func fact(n: int) -> int = n;") "fact".

Definition fact : Function :=
  mkFunction factToken
             (FuncType FUNC [] [mkInt] ["n"] mkInt (Some 0%nat) None false)
             "fact" [] [mkArgument factToken mkInt "n"]
             (Reference factToken mkUnknown "n" EmptyString)
             false BUILTINNUM.

Definition interpretArgument (e : Exp) (environment : Environment)
  : M State (ValuePtr * Environment) := ret (2%nat, environment).

(** The types the parser gives to literals. *)
Definition literalType (t : TypePtr) : bool :=
  match t with
  | IntType INT | BoolType BOOL | CharType CHAR | StringType STRING
  | NullType NULLVAL => true
  | _ => false
  end.

(** An assignment of the operator classes that [Operator] decides: the
    arithmetic operators are those of section 4.3 of the spec, the binary
    boolean ones [&&] and [||], and no operator of a binary node is taken
    as unary. *)
Definition arithmeticOperator (op : OperatorTypes) : bool :=
  bool_decide (op ∈ [PLUS; MINUS; TIMES; DIV; MOD]).
Definition binaryBooleanOperator (op : OperatorTypes) : bool :=
  bool_decide (op ∈ [AND; OR]).
Definition unaryOperator (op : OperatorTypes) : bool := false.

(** The part of [TypeChecker::eval] for literals, operators and
    branches; every other expression is left out of it. *)
Fixpoint checkFragment (e : Exp) (environment : EnvironmentRaw)
  (expectedType : TypePtr) : TypeChecker.TC TypeChecker.EvalResult :=
  match e with
  | Literal token returnType data =>
      TypeChecker.evalLiteral token returnType data environment expectedType
  | Primitive token returnType op leftSide rightSide =>
      TypeChecker.evalPrimitive unaryOperator binaryBooleanOperator
        arithmeticOperator checkFragment token returnType op leftSide
        rightSide environment expectedType
  | Branch token returnType condition ifBranch elseBranch =>
      TypeChecker.evalBranch checkFragment token returnType condition
        ifBranch elseBranch environment expectedType
  | _ => undefined
  end.

(** The tokens of [if (true) 1 + 2 else false]. *)
Definition branchToken (column : Z) (tokenType : TokenType) (text : string)
  : Token :=
  mkToken tokenType (mkFilePosition 1 column "if (true) 1 + 2 else false") text.
Definition ifToken : Token := branchToken 1 KEYWORD "if".
Definition conditionToken : Token := branchToken 5 KEYWORD "true".
Definition oneToken : Token := branchToken 11 VAL "1".
Definition plusToken : Token := branchToken 13 DELIM "+".
Definition twoToken : Token := branchToken 15 VAL "2".
Definition falseToken : Token := branchToken 22 KEYWORD "false".

(** [1 + 2], as the parser leaves it, and as the checker does. *)
Definition onePlusTwo (returnType : TypePtr) : Exp :=
  Primitive plusToken returnType PLUS (Literal oneToken mkInt (IntData 1))
            (Literal twoToken mkInt (IntData 2)).

Definition checkerStart : TypeChecker.State := TypeChecker.mkState false [].

(** The call passes the value at [p] as argument number [index]. *)
Definition argument (index : nat) (functionValue : FunctionValueData)
  (environment : Environment) (p : ValuePtr) : Prop :=
  ∃ name, parameterNames functionValue !! index = Some name
          ∧ environment !! name = Some p.

(** Every list value of [s] is a list value of [s'] with the same
    elements, and no object of [s] is gone. *)
Definition keepsLists (s s' : State) : Prop :=
  (length (store s) ≤ length (store s'))%nat
  ∧ ∀ p t d, store s !! p = Some (ListValue t d) →
             ∃ t', store s' !! p = Some (ListValue t' d).

(** [r] is a list value made since [s]. *)
Definition freshList (s s' : State) (r : ValuePtr) : Prop :=
  store s !! r = None ∧ ∃ t d, store s' !! r = Some (ListValue t d).

(** The elements of the list value at [r]. *)
Definition elementsAt (s : State) (r : ValuePtr) (d : list ValuePtr) : Prop :=
  ∃ t, store s !! r = Some (ListValue t d).

Abbreviation Builtin :=
  (Token → FunctionValueData → Environment → M State ValuePtr).

(** The built-ins that are to leave their arguments alone. *)
Definition nonInPlace : list Builtin :=
  [BuiltinImplementations.insertBuiltin; BuiltinImplementations.removeBuiltin;
   BuiltinImplementations.replaceBuiltin;
   BuiltinImplementations.pushFrontBuiltin;
   BuiltinImplementations.pushBackBuiltin; BuiltinImplementations.headBuiltin;
   BuiltinImplementations.tailBuiltin; BuiltinImplementations.combineBuiltin;
   BuiltinImplementations.rangeBuiltin].

(** Each in-place built-in with its copying counterpart. *)
Definition inPlacePairs : list (Builtin * Builtin) :=
  [(BuiltinImplementations.insertBuiltin,
    BuiltinImplementations.insertInPlaceBuiltin);
   (BuiltinImplementations.removeBuiltin,
    BuiltinImplementations.removeInPlaceBuiltin);
   (BuiltinImplementations.replaceBuiltin,
    BuiltinImplementations.replaceInPlaceBuiltin)].

(** [val xs : List[int] = List{1,2,3}; printList(pushBack(xs, 4));
    printList(xs)]: the values of the literals, with [xs] at address [5]
    and the [4] at address [6], and the two calls. *)
Definition xsState : State :=
  setStore (λ st, st ++ [IntValue mkInt 1; IntValue mkInt 2; IntValue mkInt 3;
                         ListValue (mkList mkInt) [2; 3; 4]%nat;
                         IntValue mkInt 4]) initialState.

Definition callToken : Token :=
  mkToken IDENT (mkFilePosition 2 1 "printList(pushBack(xs, 4));") "printList".

Definition builtinFunction (names : list string) (enum : BuiltinEnums)
  : FunctionValueData :=
  mkFunctionValue names (End callToken mkNull) ∅ true enum.

Definition printPushBackThenXs : M State ValuePtr :=
  (r <- BuiltinImplementations.pushBackBuiltin callToken
          (builtinFunction ["list"; "element"] PUSHBACK)
          {["list" := 5%nat; "element" := 6%nat]};;
   BuiltinImplementations.printListBuiltin callToken
     (builtinFunction ["list"] PRINTLIST) {["list" := r]};;;
   BuiltinImplementations.printListBuiltin callToken
     (builtinFunction ["list"] PRINTLIST) {["list" := 5%nat]})%M.

(** The result of [m] from [s], when [m] returns, satisfies [Q]. *)
Definition wp {A} (m : M State A) (Q : A → State → Prop) (s : State) : Prop :=
  match m s with Done a s' => Q a s' | _ => True end.

(** A computation that only reads. *)
Definition readOnly {A} (m : M State A) : Prop :=
  ∀ s, wp m (λ _ s', s' = s) s.

(** The steps of a built-in keep the list values of the state the call
    started from. *)
Definition stable {A} (m : M State A) : Prop :=
  ∀ s0 s, keepsLists s0 s → wp m (λ _ s', keepsLists s0 s') s.

(** A computation that writes no error message. *)
Definition muted {A} (m : M State A) : Prop :=
  ∀ s, wp m (λ _ s', stderr s' = stderr s) s.

(** From [s] to [s'] one error was reported for [token]: the latch of
    the built-ins is set and the message is the only one written. *)
Definition reportsAnError (token : Token) (s s' : State) : Prop :=
  builtinError s' = true
  ∧ ∃ errorMessage, stderr s' = stderr s ++ [ErrorMessage token errorMessage].

(** What a copying built-in called for [token] is to do, from a state
    [s] reached from the state [s0] of the call with the lists of [s0]
    kept and nothing reported: it keeps the lists as well, and either
    reports one error and returns the null object, or reports nothing and
    returns a list value made since [s0]. *)
Definition copiesOrReports (token : Token) (m : M State ValuePtr) : Prop :=
  ∀ s0 s, keepsLists s0 s → stderr s = stderr s0 →
          wp m (λ r s', keepsLists s0 s'
                        ∧ ((r = nullValue ∧ reportsAnError token s0 s')
                           ∨ (stderr s' = stderr s0
                              ∧ (length (store s0) ≤ r)%nat
                              ∧ ∃ t d, store s' !! r = Some (ListValue t d))))
               s.

(** What a copying built-in and its in-place variant are to leave when
    both return, the former [r1] in [s1] and the latter [r2] in [s2],
    from the state [s]: either both reported the same error and returned
    the null object, or neither reported one and the two results are
    list values with the same elements. *)
Definition sameElements (token : Token) (s s1 s2 : State)
  (r1 r2 : ValuePtr) : Prop :=
  (r1 = nullValue ∧ r2 = nullValue ∧ s1 = s2
   ∧ ∃ errorMessage, stderr s1 = stderr s ++ [ErrorMessage token errorMessage])
  ∨ (stderr s1 = stderr s ∧ stderr s2 = stderr s
     ∧ ∃ d, elementsAt s1 r1 d ∧ elementsAt s2 r2 d).

(** [insert(xs, 4, 1)] and [insertInPlace(xs, 4, 1)] on [xs = List{1,2,3}],
    the index being the value at address [2]. *)
Definition insertFunction (enum : BuiltinEnums) : FunctionValueData :=
  builtinFunction ["list"; "element"; "index"] enum.

Definition insertArguments : Environment :=
  {["list" := 5%nat; "element" := 6%nat; "index" := 2%nat]}.

(** The state [BuiltinImplementations::printError] leaves. *)
Definition reported (token : Token) (errorMessage : string) (s : State) : State :=
  mkState (store s) (error s) true (callStack s) (stdout s)
          (stderr s ++ [ErrorMessage token errorMessage]).

(** The elements of [xs] at the positions from [s] to [e], both
    included. *)
Definition inclusiveSublist {A} (s e : Z) (xs : list A) : list A :=
  take (Z.to_nat (e - s + 1)) (drop (Z.to_nat s) xs).

(** [range(xs, 1, 2)] on [xs = List{1,2,3}]: the values at the addresses
    [2] and [3] are the integers 1 and 2. *)
Definition rangeFunction : FunctionValueData :=
  builtinFunction ["list"; "start"; "end"] RANGE.

Definition rangeArguments : Environment :=
  {["list" := 5%nat; "start" := 2%nat; "end" := 3%nat]}.

(** The values at [ps] are [CharValue]s holding the characters [cs], in
    order. *)
Definition charsAt (s : State) (ps : list ValuePtr) (cs : list ascii) : Prop :=
  Forall2 (λ p c, ∃ t, store s !! p = Some (CharValue t c)) ps cs.

(** The string value ["hi"] at address [2], and a call with one
    argument. *)
Definition hiState : State :=
  setStore (λ st, st ++ [StringValue mkString "hi"]) initialState.

Definition conversionFunction (enum : BuiltinEnums) : FunctionValueData :=
  builtinFunction ["argument"] enum.

(** A token with the text [import]. *)
Definition isImport (t : Token) : Prop := text t = "import".

#[global] Instance isImport_dec t : Decision (isImport t).
Proof. unfold isImport. apply _. Defined.

(** The number of import tokens in a stream. *)
Definition importCount (tokenStream : list Token) : nat :=
  length (filter isImport tokenStream).

(** The import pre-processing returns from every token stream, whatever
    the files of the working directory hold. *)
Definition importsAlwaysReachFixedPoint : Prop :=
  ∀ fileSystem s,
    ∃ fuel s', Parser.preprocessImports fileSystem fuel s = Some (Done tt s').

(** No import directive brings in a token [import]. *)
Definition noNestedImport (fileSystem : string → option string) : Prop :=
  ∀ tokenIndex s newStream s',
    Parser.parseImport fileSystem tokenIndex s = Done newStream s' →
    Forall (λ t, ¬ isImport t) newStream.

(** The imports are well-founded: replacing a directive by the tokens of
    its file makes the parser state smaller in [measure]. *)
Definition importsDecrease (measure : Parser.State → nat)
  (fileSystem : string → option string) : Prop :=
  ∀ tokenIndex s t newStream s',
    Parser.tokenStream s !! tokenIndex = Some t → isImport t →
    Parser.parseImport fileSystem tokenIndex s = Done newStream s' →
    (measure (Parser.insertTokens tokenIndex newStream s') < measure s)%nat.

(** The loop has returned a stream without imports, or [at] has thrown. *)
Definition importsGoneOrOutOfRange (r : Result Parser.State unit) : Prop :=
  match r with
  | Done _ s' => Forall (λ t, ¬ isImport t) (Parser.tokenStream s')
  | Throw e _ => e = out_of_range
  | Undefined => False
  end.

(** A working directory whose only file, [a.bnt], holds [import a]. *)
Definition selfImportingFile (sourceFileName : string) : option string :=
  if decide (sourceFileName = "a.bnt") then Some "import a" else None.

(** The tokens of [import a;], and the stream [import a ; ... ;] with
    [k] semicolons. *)
Definition importToken : Token :=
  mkToken KEYWORD (mkFilePosition 1 2 "import ") "import".
Definition aToken : Token :=
  mkToken IDENT (mkFilePosition 1 9 "import a;") "a".
Definition semicolon : Token :=
  mkToken DELIM (mkFilePosition 1 9 "import a;") ";".

Definition selfImport (k : nat) : Parser.State :=
  Parser.mkState (importToken :: aToken :: replicate k semicolon) false.

(** A working directory whose only file, [lib.bnt], holds [x], and the
    tokens of a program that imports it. *)
Definition libraryFile (sourceFileName : string) : option string :=
  if decide (sourceFileName = "lib.bnt") then Some "x" else None.

Definition importsLibrary : Parser.State :=
  let '(tokenStream, inQuotes) :=
    Lexer.makeTokenStream "import lib; y;" false in
  Parser.mkState tokenStream inQuotes.

(** A working directory with a chain of imports: [a.bnt] imports
    [b.bnt], which imports nothing; and the tokens of a program that
    imports [a]. *)
Definition chainFiles (sourceFileName : string) : option string :=
  if decide (sourceFileName = "a.bnt") then Some "import b; p"
  else if decide (sourceFileName = "b.bnt") then Some "q;"
  else None.

Definition importsChain : Parser.State :=
  let '(tokenStream, inQuotes) :=
    Lexer.makeTokenStream "import a; y;" false in
  Parser.mkState tokenStream inQuotes.

(** A measure for [chainFiles]: an [import] weighs 1, the name [a]
    more than the tokens of [a.bnt], the name [b] more than those of
    [b.bnt]. *)
Definition chainWeight (tokenText : string) : nat :=
  if decide (tokenText = "import") then 1
  else if decide (tokenText = "a") then 4
  else if decide (tokenText = "b") then 2
  else 0.

Definition chainMeasure (s : Parser.State) : nat :=
  sum_list_with (λ t, chainWeight (text t)) (Parser.tokenStream s).

(** The text [printValue] writes for a value of a primitive type whose
    tag and class agree. *)
Definition rendered (v : Value) : option string :=
  match v with
  | IntValue t i => if decide (dataType t = INT) then Some (pretty i) else None
  | CharValue t c =>
      if decide (dataType t = CHAR)
      then Some ("'" ++ String c EmptyString ++ "'")%string else None
  | StringValue t s =>
      if decide (dataType t = STRING)
      then Some (String (ascii_of_nat 34) s
                 ++ String (ascii_of_nat 34) EmptyString)%string
      else None
  | BoolValue t b =>
      if decide (dataType t = BOOL)
      then Some (if b then "true" else "false") else None
  | _ => None
  end.

(** The elements at [ps] are written as [texts]. *)
Definition renderedAs (s : State) (ps : list ValuePtr) (texts : list string)
  : Prop :=
  Forall2 (λ p text, ∃ v, store s !! p = Some v ∧ rendered v = Some text)
          ps texts.

(** The state after [text] went to the standard output. *)
Definition printed (text : string) (s : State) : State :=
  mkState (store s) (error s) (builtinError s) (callStack s)
          (stdout s ++ text) (stderr s).

(** A pair of integers and a call of [print2Tuple] on it. *)
Definition pairState : State :=
  setStore (λ st, st ++ [IntValue mkInt 1; IntValue mkInt (-2);
                         TupleValue (mkTuple [mkInt; mkInt]) [2; 3]%nat;
                         TupleValue (mkTuple []) []]) initialState.

(** The characters ['a'] at address [2] and the integer [97] at address
    [3]. *)
Definition letterState : State :=
  setStore (λ st, st ++ [CharValue mkChar "a"; IntValue mkInt 97]) initialState.

(** No function type occurs in [t]. *)
Fixpoint funcFree (t : TypePtr) : bool :=
  match t with
  | FuncType _ _ _ _ _ _ _ _ => false
  | ListType _ (Some l) => funcFree l
  | TupleType _ ts => forallb funcFree ts
  | _ => true
  end.

(** The virtual comparison of [a] with any concrete type is defined and
    writes to neither side. *)
Definition writesNothing (a : TypePtr) : Prop :=
  ∀ b, concrete a = true → concrete b = true →
       ∃ r, Types.compare a b = Some (r, a, b).

(** The names of the generic types [resolveType] reaches in [t]. *)
Fixpoint generics (t : TypePtr) : list string :=
  match t with
  | GenType g => [identifier g]
  | ListType _ (Some l) => generics l
  | TupleType _ ts => concat (map generics ts)
  | FuncType _ _ args _ ret _ _ _ => concat (map generics args) ++ generics ret
  | _ => []
  end.

(** The state [TypeChecker::printError] leaves. *)
Definition diagnosed (token : Token) (errorMessage : string)
  (s : TypeChecker.State) : TypeChecker.State :=
  TypeChecker.mkState true
    (TypeChecker.output s ++ [TypeChecker.Message token errorMessage]).

(** Lexing the characters of [sourceText] one after the other, as the
    loop of [makeTokenStream] does. *)
Definition lexAll (sourceText : string) (s : Lexer.State) : Lexer.State :=
  foldl (λ s character, Lexer.lexCharacter character s) s
        (list_ascii_of_string sourceText).

(** The characters of a word: letters, digits and the underscore. *)
Definition wordCharacter (character : ascii) : bool :=
  Lexer.isalnum character || bool_decide (character = "_"%char).

Definition word (w : string) : Prop :=
  w ≠ EmptyString ∧ forallb wordCharacter (list_ascii_of_string w) = true.

Definition startsWithDigit (w : string) : bool :=
  match w with
  | String first _ => Lexer.isdigit first
  | EmptyString => false
  end.

(** The tokens of the segments [/ name] of an import path, and the path
    they spell after the first name. *)
Definition pathTokens (segments : list (Token * Token)) : list Token :=
  flat_map (λ segment, [segment.1; segment.2]) segments.

Definition importPath (fileName : Token) (segments : list (Token * Token))
  : string :=
  foldl (λ path segment, path ++ "/" ++ text segment.2)%string
        (text fileName) segments.

(** The type of the token the lexer makes of a word. *)
Definition wordType (w : string) : TokenType :=
  if Lexer.isKeyword w then KEYWORD
  else if Lexer.isValue w then VAL
  else if startsWithDigit w then ERROR
  else IDENT.

(** A word that is neither a keyword nor a number and starts with a
    digit. *)
Definition misspelt (w : string) : bool :=
  negb (Lexer.isKeyword w) && negb (Lexer.isValue w) && startsWithDigit w.

(** The lexer after the characters of [w] were added to the current
    block and the current line. *)
Definition typed (w : string) (s : Lexer.State) : Lexer.State :=
  let p := Lexer.currentPosition s in
  Lexer.setCurrentTokenBlock (Lexer.currentTokenBlock s ++ w)%string
    (Lexer.setCurrentPosition
       (mkFilePosition (fileLine p)
                       (fileColumn p + Z.of_nat (String.length w))
                       (currentLineText p ++ w)%string) s).

(** The names of [xsState]: [xs] is the list and [i], [n] are the
    integers [1] and [4]. *)
Definition xsNames : Environment :=
  {["xs" := 5%nat; "i" := 2%nat; "n" := 6%nat]}.

Definition nameOf (ident : string) : Exp :=
  Reference callToken mkUnknown ident EmptyString.

(** The tokens of [import a/b] and of the [/] and the [;] around. *)
Definition slashToken : Token :=
  mkToken DELIM (mkFilePosition 1 10 "import a/b;") "/".
Definition bToken : Token :=
  mkToken IDENT (mkFilePosition 1 11 "import a/b;") "b".

(** A working directory whose only file, [a/b.bnt], holds [x]. *)
Definition nestedFile (sourceFileName : string) : option string :=
  if decide (sourceFileName = "a/b.bnt") then Some "x" else None.

(** The part of [Interpreter::interpret] for operators, lets and
    references without a field; every other expression is left out of
    it. *)
Fixpoint letsAndNames (e : Exp) (environment : Environment)
  : M State (ValuePtr * Environment) :=
  match e with
  | Primitive token _ op leftSide rightSide =>
      Interpreter.interpretPrimitive letsAndNames token op leftSide rightSide
                                     environment
  | Let _ _ ident _ value afterLet =>
      Interpreter.interpretLet letsAndNames ident value afterLet environment
  | Reference token _ ident EmptyString =>
      Interpreter.interpretName token ident environment
  | _ => undefined
  end.

(** [insert(List{}, 7, 1)] and [replace(List{}, 7, 1)]: the empty list
    of integers at address [2], the element [7] at address [3] and the
    index [1] at address [4]. *)
Definition emptyListState : State :=
  setStore (λ st, st ++ [ListValue (mkList mkInt) []; IntValue mkInt 7;
                         IntValue mkInt 1]) initialState.

Definition emptyListArguments : Environment :=
  {["list" := 2%nat; "element" := 3%nat; "index" := 4%nat]}.

End Statements.

Import Statements.

(* ================================================================== *)
(** * Properties of the type comparison *)
(* ================================================================== *)

Section TypeFacts.
Import Types.

(** Induction over type objects that reaches the element type of a
    list, the element types of a tuple, and the argument and return
    types of a function. *)
Lemma TypePtr_nested_ind (P : TypePtr → Prop)
  (Hint : ∀ d, P (IntType d)) (Hchar : ∀ d, P (CharType d))
  (Hstring : ∀ d, P (StringType d)) (Hbool : ∀ d, P (BoolType d))
  (Hnull : ∀ d, P (NullType d)) (Hunknown : ∀ d, P (UnknownType d))
  (Hgen : ∀ g, P (GenType g))
  (Hlist : ∀ d lt, (∀ l, lt = Some l → P l) → P (ListType d lt))
  (Htuple : ∀ d ts, Forall P ts → P (TupleType d ts))
  (Hfunc : ∀ d g args n ret b e i,
      Forall P args → P ret → P (FuncType d g args n ret b e i))
  (Htypeclass : ∀ d i f, P (TypeclassType d i f)) :
  ∀ t, P t.
Proof.
  fix IH 1. intros [d|d|d|d|d|d|g|d lt|d ts|d g args n r b e i|d i f];
    [apply Hint|apply Hchar|apply Hstring|apply Hbool|apply Hnull
    |apply Hunknown|apply Hgen| | | |apply Htypeclass].
  - apply Hlist. destruct lt as [l|]; intros l' Hl; [|discriminate].
    injection Hl as <-. apply IH.
  - apply Htuple. induction ts as [|t ts IHts]; constructor; [apply IH|exact IHts].
  - apply Hfunc; [|apply IH].
    induction args as [|t ts IHts]; constructor; [apply IH|exact IHts].
Qed.

Lemma concrete_dataType t : concrete t = true → dataType t ≠ UNKNOWN.
Proof.
  destruct t as [d|d|d|d|d|d|g|d lt|d ts|d g args n r b e i|d i f]; simpl;
    rewrite ?andb_true_iff, ?bool_decide_eq_true; try discriminate;
    intros H; destruct_and?; subst; try congruence.
Qed.

Lemma compareTupleTypes_refl ts :
  Forall (λ t, concrete t = true → compare t t = Some (true, t, t)) ts →
  forallb concrete ts = true →
  compareTupleTypes compare ts ts = Some (true, ts, ts).
Proof.
  induction 1 as [|t ts Ht _ IH]; simpl; [done|].
  rewrite andb_true_iff. intros [Hc Hcs].
  destruct (decide (dataType t = UNKNOWN)) as [Hu|_].
  { by apply concrete_dataType in Hc. }
  by rewrite (Ht Hc), (IH Hcs).
Qed.

Lemma compareArgumentTypes_refl ts :
  Forall (λ t, concrete t = true → compare t t = Some (true, t, t)) ts →
  forallb concrete ts = true →
  compareArgumentTypes compare ts ts = Some (true, ts, ts).
Proof.
  induction 1 as [|t ts Ht _ IH]; simpl; [done|].
  rewrite andb_true_iff. intros [Hc Hcs].
  by rewrite (Ht Hc), (IH Hcs).
Qed.

(** The virtual comparison of a concrete type with itself succeeds and
    writes nothing. *)
Lemma compare_concrete_refl t :
  concrete t = true → compare t t = Some (true, t, t).
Proof.
  induction t as [d|d|d|d|d|d|g|d lt IH|d ts IH|d g args n r b e i IHa IHr|d i f]
    using TypePtr_nested_ind; simpl;
    rewrite ?andb_true_iff, ?bool_decide_eq_true; intros H;
    destruct_and?; subst; try done; unfold compareBase; simpl.
  - destruct g as [d i]; simpl in *; by subst.
  - destruct lt as [l|]; [|done].
    pose proof (concrete_dataType l ltac:(done)).
    repeat case_decide; try done; destruct_and?; try done.
    by rewrite (IH l eq_refl).
  - repeat case_decide; try done; destruct_and?; try done.
    by rewrite compareTupleTypes_refl.
  - repeat case_decide; try done; destruct_and?; try done;
      try (exfalso; naive_solver).
    rewrite compareArgumentTypes_refl by done. by rewrite IHr.
  - by rewrite bool_decide_eq_true_2.
Qed.

Lemma TypeChecker_compare_concrete_refl t :
  concrete t = true → TypeChecker.compare t t = Some (true, t, t).
Proof.
  intros H. unfold TypeChecker.compare.
  pose proof (concrete_dataType t H).
  repeat case_decide; try done. by apply compare_concrete_refl.
Qed.

End TypeFacts.

Section TypeClaims.
Import Types.

Lemma compare_generic_receiver n t :
  dataType t ≠ UNKNOWN →
  compare (mkGen n) t = Some (bool_decide (GEN = dataType t), mkGen n, t).
Proof. intros H. simpl. unfold compareBase. by case_decide. Qed.

(** C3, as stated, fails: the comparison of [Generic("T")] with
    [Generic("U")] succeeds although the names differ. *)
Lemma generic_names_not_compared :
  ¬ (succeeds (compare (mkGen "T") (mkGen "U")) ↔ "T" = "U").
Proof.
  intros [H _]. assert (Hne : "T" ≠ "U") by discriminate.
  apply Hne, H. by eexists _, _.
Qed.

(** C3 (amended): the structural comparison of two unresolved Generic
    types succeeds whatever their names, since only the tags are
    compared; a Generic receiver compares unequal to every concrete type
    of another variant, and once [resolveType] has substituted it by the
    type its name is bound to, the comparison with that type succeeds. *)
Theorem generic_compare_by_tag (n m : string) :
  compare (mkGen n) (mkGen m) = Some (true, mkGen n, mkGen m)
  ∧ TypeChecker.compare (mkGen n) (mkGen m) = Some (true, mkGen n, mkGen m)
  ∧ (∀ t, concrete t = true → dataType t ≠ GEN →
       compare (mkGen n) t = Some (false, mkGen n, t)
       ∧ TypeChecker.compare (mkGen n) t = Some (false, mkGen n, t))
  ∧ (∀ environment t, environment !! n = Some t → concrete t = true →
       TypeChecker.resolveType (mkGen n) environment = Some t
       ∧ TypeChecker.compare t t = Some (true, t, t)).
Proof.
  split_and!.
  - reflexivity.
  - reflexivity.
  - intros t Hc Hg. pose proof (concrete_dataType t Hc) as Hu.
    assert (compare (mkGen n) t = Some (false, mkGen n, t)) as Heq.
    { rewrite compare_generic_receiver by done.
      by rewrite bool_decide_eq_false_2. }
    split; [done|]. unfold TypeChecker.compare.
    repeat case_decide; done.
  - intros environment t Hn Hc. split.
    + simpl. by rewrite Hn.
    + by apply TypeChecker_compare_concrete_refl.
Qed.

Lemma generic_compare_by_tag_witness :
  compare (mkGen "T") mkInt = Some (false, mkGen "T", mkInt)
  ∧ TypeChecker.resolveType (mkGen "T") {["T" := mkList mkInt]}
    = Some (mkList mkInt).
Proof.
  destruct (generic_compare_by_tag "T" "U") as (_ & _ & H3 & H4). split.
  - apply (H3 mkInt); [reflexivity|discriminate].
  - apply (H4 {["T" := mkList mkInt]} (mkList mkInt));
      [apply lookup_singleton_eq|reflexivity].
Defined.

(** C4: [compare] is reflexive on every concrete type, for the
    unification primitive of the checker and for the virtual comparison
    it delegates to, and leaves the type as it was; with an [Unknown] on
    the left and a concrete type [t] on the right it returns true and the
    left side is [t] afterwards. *)
Theorem compare_reflexive_on_concrete (t : TypePtr) :
  concrete t = true →
  TypeChecker.compare t t = Some (true, t, t)
  ∧ compare t t = Some (true, t, t)
  ∧ ∀ u, dataType u = UNKNOWN → TypeChecker.compare u t = Some (true, t, t).
Proof.
  intros H. split_and!.
  - by apply TypeChecker_compare_concrete_refl.
  - by apply compare_concrete_refl.
  - intros u Hu. unfold TypeChecker.compare. by case_decide.
Qed.

Lemma compare_reflexive_on_concrete_witness :
  let t := mkFunc [] [mkList mkInt; mkTuple [mkGen "T"; mkString]]
                  (mkTypeclass "Point" [("x", mkInt)]) in
  TypeChecker.compare t t = Some (true, t, t)
  ∧ TypeChecker.compare mkUnknown t = Some (true, t, t).
Proof.
  intros t.
  destruct (compare_reflexive_on_concrete t eq_refl) as (H1 & _ & H3).
  split; [exact H1|]. apply H3. reflexivity.
Defined.

End TypeClaims.

(* ================================================================== *)
(** * Properties of the interpreter *)
(* ================================================================== *)

(** Unfolding of the plumbing of [M]. *)
Ltac unfold_m :=
  unfold bind, ret, throw, undefined, get, modify, orUndefined, orOutOfRange.

Section InterpreterFacts.
Import Types Expressions Values Interpreter.

Lemma load_Done (s : State) p v : store s !! p = Some v → load p s = Done v s.
Proof. intros H. unfold load. unfold_m. by rewrite H. Qed.

Lemma asInt_Done (s : State) p t d :
  store s !! p = Some (IntValue t d) → asInt p s = Done d s.
Proof. intros H. unfold asInt, bind. by rewrite (load_Done _ _ _ H). Qed.

(** [/] on two integers: a right operand of zero is reported and
    thrown; otherwise the quotient, truncated towards zero, is returned
    in a new [IntValue], unless it is not an [int]. *)
Lemma doOperation_DIV P token (s : State) l r tl tr a b :
  store s !! l = Some (IntValue tl a) →
  store s !! r = Some (IntValue tr b) →
  doOperation P token DIV l r s =
    if decide (b = 0) then
      Throw RuntimeException (failed token "Error: Division by zero!" s)
    else if decide (INT_MIN ≤ Z.quot a b ≤ INT_MAX) then
      Done (length (store s))
           (setStore (λ st, st ++ [IntValue mkInt (Z.quot a b)]) s)
    else Undefined.
Proof.
  intros Hl Hr. unfold doOperation, bind at 1.
  rewrite (asInt_Done _ _ _ _ Hr). case_decide.
  - destruct s; reflexivity.
  - unfold bind at 1. rewrite (asInt_Done _ _ _ _ Hl).
    unfold bind, checked. by case_decide.
Qed.

(** [%] on two integers: nothing looks at the right operand before the
    remainder is taken. *)
Lemma doOperation_MOD P token (s : State) l r tl tr a b :
  store s !! l = Some (IntValue tl a) →
  store s !! r = Some (IntValue tr b) →
  doOperation P token MOD l r s =
    if decide (b = 0) then Undefined
    else if decide (INT_MIN ≤ Z.quot a b ≤ INT_MAX) then
      Done (length (store s))
           (setStore (λ st, st ++ [IntValue mkInt (Z.rem a b)]) s)
    else Undefined.
Proof.
  intros Hl Hr. unfold doOperation, bind at 1.
  rewrite (asInt_Done _ _ _ _ Hl). unfold bind at 1.
  rewrite (asInt_Done _ _ _ _ Hr). case_decide; [done|].
  unfold bind, checked. by case_decide.
Qed.

(** C1 (the code at the failing input): with integer operands and a
    right operand of zero, [/] sets the error latch, writes
    "Division by zero!" with the stack trace and throws the runtime
    exception, whereas [%] reaches the remainder of a division by zero,
    which is undefined: no error is reported and no latch is set. *)
Theorem modulo_by_zero_is_not_reported P token (s : State) l r tl tr a :
  store s !! l = Some (IntValue tl a) →
  store s !! r = Some (IntValue tr 0) →
  doOperation P token DIV l r s
    = Throw RuntimeException (failed token "Error: Division by zero!" s)
  ∧ doOperation P token MOD l r s = Undefined.
Proof.
  intros Hl Hr. split.
  - by rewrite (doOperation_DIV _ _ _ _ _ _ _ _ _ Hl Hr).
  - by rewrite (doOperation_MOD _ _ _ _ _ _ _ _ _ Hl Hr).
Qed.

Lemma modulo_by_zero_is_not_reported_witness :
  doOperation PrimitiveInt operatorToken DIV 2%nat 3%nat oneAndZero
    = Throw RuntimeException
            (failed operatorToken "Error: Division by zero!" oneAndZero)
  ∧ doOperation PrimitiveInt operatorToken MOD 2%nat 3%nat oneAndZero
    = Undefined.
Proof.
  apply (modulo_by_zero_is_not_reported PrimitiveInt operatorToken oneAndZero
           2%nat 3%nat mkInt mkInt 1); reflexivity.
Defined.

(** For a right operand other than zero both operators return the
    truncated quotient and its remainder. *)
Lemma division_by_nonzero P token (s : State) l r tl tr a b :
  store s !! l = Some (IntValue tl a) →
  store s !! r = Some (IntValue tr b) →
  b ≠ 0 → INT_MIN ≤ Z.quot a b ≤ INT_MAX →
  doOperation P token DIV l r s
    = Done (length (store s))
           (setStore (λ st, st ++ [IntValue mkInt (Z.quot a b)]) s)
  ∧ doOperation P token MOD l r s
    = Done (length (store s))
           (setStore (λ st, st ++ [IntValue mkInt (Z.rem a b)]) s).
Proof.
  intros Hl Hr Hb Hq. split.
  - rewrite (doOperation_DIV _ _ _ _ _ _ _ _ _ Hl Hr).
    by repeat case_decide.
  - rewrite (doOperation_MOD _ _ _ _ _ _ _ _ _ Hl Hr).
    by repeat case_decide.
Qed.

Lemma division_by_nonzero_witness :
  doOperation PrimitiveInt operatorToken DIV 2%nat 3%nat minusSevenAndTwo
    = Done 4%nat
           (setStore (λ st, st ++ [IntValue mkInt (-3)]) minusSevenAndTwo)
  ∧ doOperation PrimitiveInt operatorToken MOD 2%nat 3%nat minusSevenAndTwo
    = Done 4%nat
           (setStore (λ st, st ++ [IntValue mkInt (-1)]) minusSevenAndTwo).
Proof.
  apply (division_by_nonzero PrimitiveInt operatorToken minusSevenAndTwo
           2%nat 3%nat mkInt mkInt (-7) 2); [reflexivity|reflexivity|lia|].
  vm_compute. split; discriminate.
Defined.

End InterpreterFacts.

(* ================================================================== *)
(** * Closures and the function's own name *)
(* ================================================================== *)

Section ClosureFacts.
Import Types Expressions Values.

Variable isBuiltin : string → bool.
Variable getBuiltin : string → BuiltinEnums.

Lemma Interpreter_addName_insert (environment : Environment) name value :
  Interpreter.addName environment name value = <[name := value]> environment.
Proof.
  unfold Interpreter.addName. case_decide; [|done].
  apply map_eq. intros k. destruct (decide (name = k)) as [->|Hne].
  - by rewrite !lookup_insert_eq.
  - by rewrite !lookup_insert_ne, lookup_delete_ne.
Qed.

Lemma TypeChecker_addName_insert (environment : EnvironmentRaw) name type :
  TypeChecker.addName environment name type = <[name := type]> environment.
Proof.
  unfold TypeChecker.addName. case_decide; [|done].
  apply map_eq. intros k. destruct (decide (name = k)) as [->|Hne].
  - by rewrite !lookup_insert_eq.
  - by rewrite !lookup_insert_ne, lookup_delete_ne.
Qed.

(** The function value [interpretProgram] makes for a declaration that
    is not a built-in, given the program environment at that point. *)
Lemma declareFunction_Done programEnvironment function (s : State) :
  isBuiltin (functionName function) = false →
  Interpreter.declareFunction isBuiltin getBuiltin programEnvironment function s
  = Done (<[functionName function := length (store s)]> programEnvironment)
         (setStore
            (λ st, st ++ [FunctionValue (functionReturnType function)
                            (mkFunctionValue
                               (argName <$> functionParameters function)
                               (Expressions.functionBody function)
                               (delete (functionName function) programEnvironment)
                               false BUILTINNUM)]) s).
Proof.
  intros Hb. unfold Interpreter.declareFunction. rewrite Hb.
  unfold bind, alloc, ret. by rewrite Interpreter_addName_insert.
Qed.

(** The loop always returns, and only adds objects to the store. *)
Lemma declareFunctions_Done functions programEnvironment (s : State) :
  ∃ programEnvironment' added,
    Interpreter.declareFunctions isBuiltin getBuiltin functions
                                 programEnvironment s
    = Done programEnvironment' (setStore (λ st, st ++ added) s).
Proof.
  revert programEnvironment s.
  induction functions as [|f fs IH]; intros env s; simpl.
  - exists env, []. unfold ret. f_equal. destruct s; unfold setStore; simpl.
    by rewrite app_nil_r.
  - unfold bind. unfold Interpreter.declareFunction at 1, bind, alloc, ret.
    match goal with |- context [Interpreter.declareFunctions _ _ fs ?e ?s'] =>
      destruct (IH e s') as (env' & added & ->) end.
    eexists env', (_ :: added). f_equal.
    unfold setStore; simpl. by rewrite <- app_assoc.
Qed.

Lemma declareFunctions_app fs1 fs2 programEnvironment (s : State) :
  Interpreter.declareFunctions isBuiltin getBuiltin (fs1 ++ fs2)
                               programEnvironment s
  = bind (Interpreter.declareFunctions isBuiltin getBuiltin fs1
                                       programEnvironment)
         (Interpreter.declareFunctions isBuiltin getBuiltin fs2) s.
Proof.
  revert programEnvironment s.
  induction fs1 as [|f fs IH]; intros env s; simpl; [done|].
  unfold bind.
  destruct (Interpreter.declareFunction _ _ env f s); [|done..].
  rewrite IH. by unfold bind.
Qed.

End ClosureFacts.

Section ClosureClaims.
Import Types Expressions Values.

Variable isBuiltin : string → bool.
Variable getBuiltin : string → BuiltinEnums.

(** The function value made for the [i]-th declaration captures the
    program environment as it is when the loop reaches the declaration,
    without the function's own name; it is what the name is bound to
    right after, and it is still in the store when the loop is over. *)
Lemma captured_environment functions (environment : Environment)
  (s : State) i function :
  functions !! i = Some function →
  isBuiltin (functionName function) = false →
  ∃ before si after s',
    Interpreter.declareFunctions isBuiltin getBuiltin (take i functions)
                                 environment s = Done before si
    ∧ Interpreter.declareFunctions isBuiltin getBuiltin functions
                                   environment s = Done after s'
    ∧ Interpreter.declareFunction isBuiltin getBuiltin before function si
      = Done (<[functionName function := length (store si)]> before)
             (setStore (λ st, st ++ [FunctionValue
                                       (functionReturnType function)
                                       (mkFunctionValue
                                          (argName <$> functionParameters function)
                                          (Expressions.functionBody function)
                                          (delete (functionName function) before)
                                          false BUILTINNUM)]) si)
    ∧ store s' !! length (store si)
      = Some (FunctionValue
                (functionReturnType function)
                (mkFunctionValue
                   (argName <$> functionParameters function)
                   (Expressions.functionBody function)
                   (delete (functionName function) before)
                   false BUILTINNUM))
    ∧ delete (functionName function) before !! functionName function = None.
Proof.
  intros Hi Hb.
  destruct (declareFunctions_Done isBuiltin getBuiltin (take i functions)
              environment s) as (before & added & Hbefore).
  set (si := setStore (λ st, st ++ added) s) in *.
  pose proof (declareFunction_Done isBuiltin getBuiltin before function si Hb)
    as Hdecl.
  match type of Hdecl with _ = Done ?e ?t =>
    destruct (declareFunctions_Done isBuiltin getBuiltin
                (drop (S i) functions) e t) as (after & added' & Hafter) end.
  eexists before, si, after, _. split_and!; [done| |done| |].
  - rewrite <- (take_drop_middle _ _ _ Hi).
    rewrite declareFunctions_app. unfold bind. rewrite Hbefore. simpl.
    unfold bind. rewrite Hdecl. exact Hafter.
  - unfold setStore at 1 2. cbn [store]. rewrite <- app_assoc.
    by apply list_lookup_middle.
  - apply lookup_delete_eq.
Qed.

Section Call.
Variable interpret : Exp → Environment → M State (ValuePtr * Environment).

(** The loop that binds the arguments touches the parameter names
    only. *)
Lemma bindArguments_other arguments :
  ∀ argumentIndex parameterNames environment functionEnvironment
    (s : State) e s' name,
    Interpreter.bindArguments interpret arguments argumentIndex
      parameterNames environment functionEnvironment s = Done e s' →
    name ∉ parameterNames →
    e.2 !! name = functionEnvironment !! name.
Proof.
  induction arguments as [|a rest IH]; simpl;
    intros idx params env fenv s e s' name Hrun Hname.
  - unfold ret in Hrun. by injection Hrun as <- _.
  - unfold bind in Hrun.
    destruct (interpret a env s) as [v s1| |]; [|done..].
    unfold orOutOfRange in Hrun.
    destruct (params !! idx) as [p|] eqn:Hp; [|done].
    unfold ret in Hrun. rewrite (IH _ _ _ _ _ _ _ _ Hrun Hname).
    rewrite Interpreter_addName_insert. apply lookup_insert_ne.
    intros ->. apply Hname. by eapply list_elem_of_lookup_2.
Qed.

(** A name the captured environment does not bind is left as the
    call environment has it. *)
Lemma addCaptured_other captured (functionEnvironment : Environment) name :
  captured !! name = None →
  Interpreter.addCaptured isBuiltin captured functionEnvironment !! name
  = functionEnvironment !! name.
Proof.
  intros Hc. unfold Interpreter.addCaptured.
  apply lookup_union_r. apply map_lookup_filter_None. left. exact Hc.
Qed.

(** In the environment a call builds for a function declared under
    [name], the name resolves as it does for the caller, unless a
    parameter takes it. *)
Lemma call_resolves_name_in_caller arguments parameterNames
  (environment : Environment) (s : State) e s' name declared :
  Interpreter.bindArguments interpret arguments 0 parameterNames
    environment environment s = Done e s' →
  name ∉ parameterNames →
  Interpreter.addCaptured isBuiltin (delete name declared) e.2 !! name
  = environment !! name.
Proof.
  intros Hrun Hname. rewrite addCaptured_other by apply lookup_delete_eq.
  by eapply bindArguments_other.
Qed.
End Call.

Lemma addGenericParameters_other genericParameters :
  ∀ (inner : EnvironmentRaw) name,
    name ∉ identifier <$> genericParameters →
    TypeChecker.addGenericParameters genericParameters inner !! name
    = inner !! name.
Proof.
  induction genericParameters as [|g gs IH]; intros inner name Hname;
    [done|].
  rewrite fmap_cons, not_elem_of_cons in Hname. destruct Hname as [Hg Hgs].
  change (TypeChecker.addGenericParameters (g :: gs) inner)
    with (TypeChecker.addGenericParameters gs
            (match inner !! identifier g with
             | None => TypeChecker.addName inner (identifier g) (GenType g)
             | Some _ => inner
             end)).
  rewrite IH by done.
  destruct (inner !! identifier g); [done|].
  rewrite TypeChecker_addName_insert. by apply lookup_insert_ne.
Qed.

Lemma addParameters_other parameters :
  ∀ (inner inner' : EnvironmentRaw) name,
    TypeChecker.addParameters parameters inner = Some inner' →
    name ∉ argName <$> parameters →
    inner' !! name = inner !! name.
Proof.
  induction parameters as [|p ps IH]; simpl; intros inner inner' name Hrun Hname.
  - by injection Hrun as <-.
  - rewrite not_elem_of_cons in Hname. destruct Hname as [Hp Hps].
    case_decide.
    + destruct (argReturnType p); try done.
      destruct (inner !! identifier gen); [|done].
      rewrite (IH _ _ _ Hrun Hps), TypeChecker_addName_insert.
      by apply lookup_insert_ne.
    + rewrite (IH _ _ _ Hrun Hps), TypeChecker_addName_insert.
      by apply lookup_insert_ne.
Qed.

End ClosureClaims.

Section ClosureTheorem.
Import Types Expressions Values.

Variable isBuiltin : string → bool.
Variable getBuiltin : string → BuiltinEnums.

(** The environment the checker stores in a function's type: the
    environment with every function name bound, without the function's
    own name, then extended by the generic parameters and the
    parameters. *)
Lemma stored_inner_environment functions (environment : EnvironmentRaw)
  functions' environment' i function :
  TypeChecker.evalFunctions isBuiltin getBuiltin functions environment
  = Some (functions', environment') →
  functions !! i = Some function →
  functionIsBuiltin function || isBuiltin (functionName function) = false →
  environment' = TypeChecker.bindFunctions functions environment
  ∧ ∃ function' inner,
      functions' !! i = Some function'
      ∧ functionName function' = functionName function
      ∧ TypeChecker.storedInnerEnvironment function' = Some inner
      ∧ TypeChecker.addParameters (functionParameters function)
          (TypeChecker.addGenericParameters
             (functionGenericParameters function)
             (delete (functionName function) environment'))
        = Some inner
      ∧ (∀ name,
           name ∉ identifier <$> functionGenericParameters function →
           name ∉ argName <$> functionParameters function →
           inner !! name = delete (functionName function) environment' !! name)
      ∧ (functionName function ∉ identifier <$> functionGenericParameters function →
         functionName function ∉ argName <$> functionParameters function →
         inner !! functionName function = None).
Proof.
  unfold TypeChecker.evalFunctions. intros Hrun Hi Hb.
  destruct (mapM _ functions) as [fs'|] eqn:Hmap; [|done].
  injection Hrun as <- <-. split; [done|].
  apply mapM_Some in Hmap.
  destruct (Forall2_lookup_l _ _ _ _ _ Hmap Hi) as (function' & Hi' & Hf).
  destruct function as [tok ty name gens params body b0 e0].
  simpl in Hb, Hf. unfold TypeChecker.innerEnvironment in Hf. simpl in Hf.
  rewrite Hb in Hf. simpl in Hf.
  destruct ty; try done.
  destruct (TypeChecker.addParameters params _) as [inner|] eqn:Hinner; [|done].
  injection Hf as <-. eexists _, inner. simpl.
  assert (∀ k, k ∉ identifier <$> gens → k ∉ argName <$> params →
               inner !! k
               = delete name (TypeChecker.bindFunctions functions environment) !! k)
    as Hother.
  { intros k Hg Hp. rewrite (addParameters_other _ _ _ _ Hinner Hp).
    by apply addGenericParameters_other. }
  split_and!; try done.
  intros Hg Hp. rewrite Hother by done. apply lookup_delete_eq.
Qed.

(** C2, as stated, fails for the checker: the environment stored for
    [func f(f: int) -> int = f;] binds the name [f], to the type of the
    parameter. *)
Lemma inner_environment_binds_parameter_named_as_function :
  ∃ function' environment',
    TypeChecker.evalFunctions BuiltinDefinitions.isBuiltin
      BuiltinDefinitions.getBuiltin [selfNamedParameter] ∅
    = Some ([function'], environment')
    ∧ BuiltinDefinitions.isBuiltin (functionName function') = false
    ∧ (TypeChecker.storedInnerEnvironment function' ≫= (.!! "f"))
      = Some mkInt.
Proof. eexists _, _. split_and!; [reflexivity|reflexivity|]. reflexivity. Qed.

(** C2 (amended): the function value [interpretProgram] binds a
    declaration that is not a built-in to captures the program
    environment of that moment without the function's own name, so the
    capture never binds that name; the environment a call builds resolves
    the name as the caller's environment does, unless a parameter takes
    it.  The checker stores, for each function that is not a built-in,
    the type environment without the function's own name extended by the
    function's generic parameters and parameters: it agrees with the
    former on every other name, and binds the function's own name only
    when one of these parameters has that name. *)
Theorem closure_excludes_own_name :
  (∀ functions (environment : Environment) (s : State) i function,
      functions !! i = Some function →
      isBuiltin (functionName function) = false →
      ∃ before si after s',
        Interpreter.declareFunctions isBuiltin getBuiltin (take i functions)
                                     environment s = Done before si
        ∧ Interpreter.declareFunctions isBuiltin getBuiltin functions
                                       environment s = Done after s'
        ∧ Interpreter.declareFunction isBuiltin getBuiltin before function si
          = Done (<[functionName function := length (store si)]> before)
                 (setStore
                    (λ st, st ++ [FunctionValue
                                    (functionReturnType function)
                                    (mkFunctionValue
                                       (argName <$> functionParameters function)
                                       (Expressions.functionBody function)
                                       (delete (functionName function) before)
                                       false BUILTINNUM)]) si)
        ∧ store s' !! length (store si)
          = Some (FunctionValue
                    (functionReturnType function)
                    (mkFunctionValue
                       (argName <$> functionParameters function)
                       (Expressions.functionBody function)
                       (delete (functionName function) before)
                       false BUILTINNUM))
        ∧ delete (functionName function) before !! functionName function
          = None)
  ∧ (∀ interpret arguments parameterNames (environment : Environment)
       (s : State) e s' name declared,
        Interpreter.bindArguments interpret arguments 0 parameterNames
          environment environment s = Done e s' →
        name ∉ parameterNames →
        Interpreter.addCaptured isBuiltin (delete name declared) e.2 !! name
        = environment !! name)
  ∧ (∀ functions (environment : EnvironmentRaw) functions' environment'
       i function,
        TypeChecker.evalFunctions isBuiltin getBuiltin functions environment
        = Some (functions', environment') →
        functions !! i = Some function →
        functionIsBuiltin function || isBuiltin (functionName function) = false →
        environment' = TypeChecker.bindFunctions functions environment
        ∧ ∃ function' inner,
            functions' !! i = Some function'
            ∧ functionName function' = functionName function
            ∧ TypeChecker.storedInnerEnvironment function' = Some inner
            ∧ TypeChecker.addParameters (functionParameters function)
                (TypeChecker.addGenericParameters
                   (functionGenericParameters function)
                   (delete (functionName function) environment'))
              = Some inner
            ∧ (∀ name,
                 name ∉ identifier <$> functionGenericParameters function →
                 name ∉ argName <$> functionParameters function →
                 inner !! name
                 = delete (functionName function) environment' !! name)
            ∧ (functionName function
                 ∉ identifier <$> functionGenericParameters function →
               functionName function ∉ argName <$> functionParameters function →
               inner !! functionName function = None)).
Proof.
  split_and!.
  - apply captured_environment.
  - intros. by eapply call_resolves_name_in_caller.
  - apply stored_inner_environment.
Qed.

End ClosureTheorem.

Lemma closure_excludes_own_name_witness :
  (∃ after s',
      Interpreter.declareFunctions BuiltinDefinitions.isBuiltin
        BuiltinDefinitions.getBuiltin [Statements.fact] ∅ Values.initialState
      = Done after s'
      ∧ Values.store s' !! 2%nat
        = Some (Values.FunctionValue
                  (Expressions.functionReturnType Statements.fact)
                  (Values.mkFunctionValue ["n"]
                     (Expressions.functionBody Statements.fact)
                     (delete "fact" ∅) false Expressions.BUILTINNUM)))
  ∧ Interpreter.addCaptured BuiltinDefinitions.isBuiltin
      (delete "fact" ∅) (<["n" := 2%nat]> {["fact" := 2%nat]}) !! "fact"
    = ({["fact" := 2%nat]} : gmap string nat) !! "fact"
  ∧ (∃ function' inner,
        TypeChecker.storedInnerEnvironment function' = Some inner
        ∧ inner !! "fact" = None).
Proof.
  destruct (closure_excludes_own_name BuiltinDefinitions.isBuiltin
              BuiltinDefinitions.getBuiltin) as (H1 & H2 & H3).
  split_and!.
  - destruct (H1 [Statements.fact] ∅ Values.initialState 0%nat Statements.fact
                eq_refl eq_refl)
      as (before & si & after & s' & Hb & Ha & _ & Hs & _).
    injection Hb as <- <-. exists after, s'. split; [exact Ha|exact Hs].
  - refine (H2 Statements.interpretArgument
               [Expressions.End Statements.factToken Types.mkNull] ["n"]
               {["fact" := 2%nat]} Values.initialState _ _ "fact" ∅ eq_refl _).
    apply not_elem_of_cons. split; [discriminate|apply not_elem_of_nil].
  - destruct (H3 [Statements.fact] ∅ _ _ 0%nat Statements.fact
                eq_refl eq_refl eq_refl)
      as (_ & function' & inner & _ & _ & Hs & _ & _ & Hn).
    exists function', inner. split; [exact Hs|]. apply Hn.
    + apply not_elem_of_nil.
    + apply not_elem_of_cons. split; [discriminate|apply not_elem_of_nil].
Defined.

(* ================================================================== *)
(** * The rule for [Branch] *)
(* ================================================================== *)

Section BranchFacts.
Import Types Expressions TypeChecker.

Variable eval : Exp → EnvironmentRaw → TypePtr → TC EvalResult.

(** The three checks of [evalBranch], in the order they run, each on
    the state and the environment the one before left. *)
Lemma evalBranch_Done token returnType condition ifBranch elseBranch
  environment expectedType (s s' : State) r :
  evalBranch eval token returnType condition ifBranch elseBranch
             environment expectedType s = Done r s'
  ↔ ∃ c s1 e s2 i,
      eval condition environment mkBool s = Done c s1
      ∧ eval elseBranch (TypeChecker.environment c) expectedType s1 = Done e s2
      ∧ eval ifBranch (TypeChecker.environment e)
             (Expressions.returnType (node e)) s2 = Done i s'
      ∧ r = mkEvalResult
              (Branch token returnType (tree c) (tree i) (tree e))
              (node i) (TypeChecker.environment i)
              (TypeChecker.expectedType e).
Proof.
  unfold evalBranch, bind, ret. split.
  - intros H.
    destruct (eval condition environment mkBool s) as [c s1| |] eqn:Hc;
      [|done..].
    destruct (eval elseBranch _ expectedType s1) as [e s2| |] eqn:He;
      [|done..].
    destruct (eval ifBranch _ _ s2) as [i s3| |] eqn:Hi; [|done..].
    injection H as <- <-. by eexists c, s1, e, s2, i.
  - intros (c & s1 & e & s2 & i & -> & -> & -> & ->). done.
Qed.

(** A literal of a literal type checked against an expected type: the
    node keeps its type, and the latch is left alone exactly when the
    expected type is [Unknown] or carries the same tag. *)
Lemma evalLiteral_Done token t data environment expectedType (s : State) :
  literalType t = true →
  ∃ expectedType' s',
    evalLiteral token t data environment expectedType s
    = Done (mkEvalResult (Literal token t data) (Literal token t data)
                         environment expectedType') s'
    ∧ (dataType expectedType = UNKNOWN → expectedType' = t ∧ s' = s)
    ∧ (dataType expectedType ≠ UNKNOWN →
       if decide (dataType t = dataType expectedType)
       then expectedType' = expectedType ∧ s' = s
       else expectedType' = expectedType
            ∧ s' = mkState true (output s ++ [Mismatch token t expectedType])).
Proof.
  intros Ht. unfold evalLiteral, TypeChecker.compare.
  assert (dataType t ≠ UNKNOWN) as Hu.
  { destruct t as [[]|[]|[]|[]|[]| | | | | |]; done. }
  destruct (decide (dataType t = UNKNOWN)) as [|_]; [done|].
  destruct (decide (dataType expectedType = UNKNOWN)) as [He|He].
  - eexists t, s. by split_and!.
  - assert (Types.compare t expectedType
            = Some (bool_decide (dataType t = dataType expectedType),
                    t, expectedType)) as ->.
    { destruct t as [[]|[]|[]|[]|[]| | | | | |]; try done;
        simpl; unfold compareBase; by case_decide. }
    unfold_m. simpl. case_bool_decide as Heq.
    + eexists expectedType, s. split_and!; try done.
      intros _. by case_decide.
    + eexists expectedType, _. split_and!; try done.
      intros _. by case_decide.
Qed.

End BranchFacts.

Section BranchClaims.
Import Types Expressions TypeChecker.

Variable isUnaryOperator : OperatorTypes → bool.
Variable isBinaryBooleanOperator : OperatorTypes → bool.
Variable isArithmeticOperator : OperatorTypes → bool.
Variable eval : Exp → EnvironmentRaw → TypePtr → TC EvalResult.

(** The two cases of the dispatch in [TypeChecker::eval] that the
    statement goes through. *)
Hypothesis eval_Literal : ∀ token t data environment expectedType,
  eval (Literal token t data) environment expectedType
  = evalLiteral token t data environment expectedType.
Hypothesis eval_Primitive :
  ∀ token t op leftSide rightSide environment expectedType,
    eval (Primitive token t op leftSide rightSide) environment expectedType
    = evalPrimitive isUnaryOperator isBinaryBooleanOperator
        isArithmeticOperator eval token t op leftSide rightSide environment
        expectedType.

Lemma literalType_dataType t : literalType t = true → dataType t ≠ UNKNOWN.
Proof. destruct t as [[]|[]|[]|[]|[]| | | | | |]; done. Qed.

(** A literal checked against its own type, or against a type to
    infer: nothing is reported. *)
Lemma evalLiteral_accepted token t data environment expectedType (s : State) :
  literalType t = true →
  dataType expectedType = UNKNOWN ∨ dataType expectedType = dataType t →
  evalLiteral token t data environment expectedType s
  = Done (mkEvalResult (Literal token t data) (Literal token t data)
            environment
            (if decide (dataType expectedType = UNKNOWN) then t
             else expectedType)) s.
Proof.
  intros Ht He.
  destruct (evalLiteral_Done token t data environment expectedType s Ht)
    as (e' & s' & -> & Hu & Hn).
  destruct (decide (dataType expectedType = UNKNOWN)) as [Hunknown|Hunknown].
  - by destruct (Hu Hunknown) as [-> ->].
  - specialize (Hn Hunknown). destruct He as [He|He]; [done|].
    rewrite decide_True in Hn by congruence. by destruct Hn as [-> ->].
Qed.

(** An arithmetic operator on two integer literals is given the type
    [int], and nothing is reported, whatever type is expected. *)
Lemma evalPrimitive_arithmetic token t op leftToken a rightToken b
  environment expectedType (s : State) :
  isArithmeticOperator op = true →
  op ≠ AND → op ≠ OR → op ≠ NOT →
  (isUnaryOperator op = true → op = PLUS ∨ op = MINUS) →
  let leftSide := Literal leftToken mkInt (IntData a) in
  let rightSide := Literal rightToken mkInt (IntData b) in
  let primitive := Primitive token mkInt op leftSide rightSide in
  evalPrimitive isUnaryOperator isBinaryBooleanOperator isArithmeticOperator
    eval token t op leftSide rightSide environment expectedType s
  = Done (mkEvalResult primitive primitive environment expectedType) s.
Proof using eval_Literal.
  intros Harith Hand Hor Hnot Hunary leftSide rightSide primitive.
  assert (∀ token' data,
    eval (Literal token' mkInt data) environment mkInt s
    = Done (mkEvalResult (Literal token' mkInt data)
              (Literal token' mkInt data) environment mkInt) s) as Hint.
  { intros token' data. rewrite eval_Literal.
    by rewrite (evalLiteral_accepted _ mkInt) by (done || by right). }
  unfold evalPrimitive. rewrite Harith, orb_true_r.
  destruct (isUnaryOperator op) eqn:Hu.
  - rewrite decide_False by done.
    rewrite decide_True by by apply Hunary.
    unfold bind, leftSide, rightSide. by rewrite Hint.
  - rewrite decide_False by (by intros [|]).
    unfold bind, leftSide, rightSide. rewrite Hint. cbn [TypeChecker.environment TypeChecker.expectedType].
    by rewrite Hint.
Qed.

(** C8 (the code at the failing input): [evalBranch] checks the
    condition against [Bool], the else branch against the expected type
    and the then branch against the type of the else branch.  A then arm
    that is a literal is compared with that type, and a mismatch is
    written when the tags differ; a then arm that is an arithmetic
    operator on integer literals is not: [evalPrimitive] gives it the
    type [int] without reading the expected type, so the branch is
    accepted with nothing reported, whatever the type of the else arm. *)
Theorem branch_arms_are_not_forced_to_agree
  token returnType conditionToken c thenToken thenType thenData
  primitiveToken primitiveType op leftToken a rightToken b
  elseToken elseType elseData environment expectedType (s : State) :
  isArithmeticOperator op = true →
  op ≠ AND → op ≠ OR → op ≠ NOT →
  (isUnaryOperator op = true → op = PLUS ∨ op = MINUS) →
  literalType thenType = true →
  literalType elseType = true →
  dataType expectedType = UNKNOWN ∨ dataType expectedType = dataType elseType →
  let condition := Literal conditionToken mkBool (BoolData c) in
  let elseBranch := Literal elseToken elseType elseData in
  let leftSide := Literal leftToken mkInt (IntData a) in
  let rightSide := Literal rightToken mkInt (IntData b) in
  let expectedType' :=
    if decide (dataType expectedType = UNKNOWN) then elseType
    else expectedType in
  evalBranch eval token returnType condition
             (Literal thenToken thenType thenData) elseBranch
             environment expectedType s
  = Done (mkEvalResult
            (Branch token returnType condition
                    (Literal thenToken thenType thenData) elseBranch)
            (Literal thenToken thenType thenData) environment expectedType')
         (if decide (dataType thenType = dataType elseType) then s
          else mkState true
                 (output s ++ [Mismatch thenToken thenType elseType]))
  ∧ evalBranch eval token returnType condition
               (Primitive primitiveToken primitiveType op leftSide rightSide)
               elseBranch environment expectedType s
    = Done (mkEvalResult
              (Branch token returnType condition
                      (Primitive primitiveToken mkInt op leftSide rightSide)
                      elseBranch)
              (Primitive primitiveToken mkInt op leftSide rightSide)
              environment expectedType')
           s.
Proof using eval_Literal eval_Primitive.
  intros Harith Hand Hor Hnot Hunary Hthen Helse Hexpected
         condition elseBranch leftSide rightSide expectedType'.
  assert (eval condition environment mkBool s
          = Done (mkEvalResult condition condition environment mkBool) s)
    as Hcondition.
  { unfold condition. rewrite eval_Literal.
    by rewrite (evalLiteral_accepted _ mkBool) by (done || by right). }
  assert (eval elseBranch environment expectedType s
          = Done (mkEvalResult elseBranch elseBranch environment expectedType')
                 s) as Helse'.
  { unfold elseBranch. rewrite eval_Literal.
    by rewrite (evalLiteral_accepted _ elseType). }
  split.
  - unfold evalBranch, bind. rewrite Hcondition.
    cbn [TypeChecker.environment]. rewrite Helse'.
    cbn [TypeChecker.environment node Expressions.returnType elseBranch].
    rewrite eval_Literal.
    destruct (evalLiteral_Done thenToken thenType thenData environment
                elseType s Hthen) as (e' & s' & -> & _ & Hn).
    specialize (Hn (literalType_dataType _ Helse)).
    cbn [ret tree node TypeChecker.environment TypeChecker.expectedType].
    by case_decide; destruct Hn as [_ ->].
  - unfold evalBranch, bind. rewrite Hcondition.
    cbn [TypeChecker.environment]. rewrite Helse'.
    cbn [TypeChecker.environment node Expressions.returnType elseBranch].
    rewrite eval_Primitive. unfold leftSide, rightSide.
    by rewrite evalPrimitive_arithmetic.
Qed.

End BranchClaims.

Section BranchWitness.
Import Types Expressions TypeChecker.

Lemma branch_arms_are_not_forced_to_agree_witness :
  let condition := Literal conditionToken mkBool (BoolData true) in
  let elseBranch := Literal falseToken mkBool (BoolData false) in
  checkFragment
    (Branch ifToken mkUnknown condition
            (Literal oneToken mkInt (IntData 1)) elseBranch)
    ∅ mkUnknown checkerStart
  = Done (mkEvalResult
            (Branch ifToken mkUnknown condition
                    (Literal oneToken mkInt (IntData 1)) elseBranch)
            (Literal oneToken mkInt (IntData 1)) ∅ mkBool)
         (mkState true [Mismatch oneToken mkInt mkBool])
  ∧ checkFragment
      (Branch ifToken mkUnknown condition (onePlusTwo mkUnknown) elseBranch)
      ∅ mkUnknown checkerStart
    = Done (mkEvalResult
              (Branch ifToken mkUnknown condition (onePlusTwo mkInt)
                      elseBranch)
              (onePlusTwo mkInt) ∅ mkBool)
           checkerStart.
Proof.
  apply (branch_arms_are_not_forced_to_agree unaryOperator
           binaryBooleanOperator arithmeticOperator checkFragment
           (λ _ _ _ _ _, eq_refl) (λ _ _ _ _ _ _ _, eq_refl)
           ifToken mkUnknown conditionToken true oneToken mkInt (IntData 1)
           plusToken mkUnknown PLUS oneToken 1 twoToken 2
           falseToken mkBool (BoolData false) ∅ mkUnknown checkerStart);
    try done.
  by left.
Defined.

End BranchWitness.

(* ================================================================== *)
(** * The list built-ins and their arguments *)
(* ================================================================== *)

Section Frame.
Import Types Expressions Values BuiltinImplementations.

Lemma wp_bind {A B} (m : M State A) (k : A → M State B) Q s :
  wp m (λ a s', wp (k a) Q s') s → wp (bind m k) Q s.
Proof. unfold wp, bind. by destruct (m s). Qed.

Lemma wp_ret {A} (a : A) (Q : A → State → Prop) s : Q a s → wp (ret a) Q s.
Proof. done. Qed.

Lemma wp_mono {A} (m : M State A) (Q Q' : A → State → Prop) s :
  (∀ a s', Q a s' → Q' a s') → wp m Q s → wp m Q' s.
Proof. unfold wp. destruct (m s); auto. Qed.

Lemma readOnly_ret {A} (a : A) : readOnly (ret a).
Proof. by intros s. Qed.

Lemma readOnly_bind {A B} (m : M State A) (k : A → M State B) :
  readOnly m → (∀ a, readOnly (k a)) → readOnly (bind m k).
Proof.
  intros Hm Hk s. apply wp_bind. specialize (Hm s). unfold wp in *.
  destruct (m s) as [a s'| |]; [|done..]. subst. apply Hk.
Qed.

Lemma readOnly_orUndefined {A} (o : option A) : readOnly (orUndefined o).
Proof. intros s. unfold wp. by destruct o. Qed.

Lemma readOnly_orOutOfRange {A} (o : option A) : readOnly (orOutOfRange o).
Proof. intros s. unfold wp. by destruct o. Qed.

Lemma readOnly_load p : readOnly (load p).
Proof.
  intros s. unfold wp, load, bind, get, orUndefined.
  by destruct (store s !! p).
Qed.

Lemma readOnly_asList p : readOnly (asList p).
Proof.
  apply readOnly_bind; [apply readOnly_load|]. intros []; by intros s.
Qed.

Lemma readOnly_asInt p : readOnly (asInt p).
Proof.
  apply readOnly_bind; [apply readOnly_load|]. intros []; by intros s.
Qed.

Lemma readOnly_indexOf p : readOnly (indexOf p).
Proof.
  apply readOnly_bind; [apply readOnly_asInt|]. intros. apply readOnly_ret.
Qed.

Lemma readOnly_getArgumentValue index functionValue environment :
  readOnly (getArgumentValue index functionValue environment).
Proof.
  apply readOnly_bind; intros; apply readOnly_orOutOfRange.
Qed.

Lemma readOnly_listTypeOf t : readOnly (listTypeOf t).
Proof. destruct t; by intros s. Qed.

Lemma keepsLists_refl s : keepsLists s s.
Proof. split; [done|]. intros p t d H. by exists t. Qed.

Lemma stable_readOnly {A} (m : M State A) : readOnly m → stable m.
Proof.
  intros Hm s0 s Hs. eapply wp_mono; [|apply Hm]. by intros ? ? ->.
Qed.

Lemma stable_bind {A B} (m : M State A) (k : A → M State B) :
  stable m → (∀ a, stable (k a)) → stable (bind m k).
Proof.
  intros Hm Hk s0 s Hs. apply wp_bind.
  eapply wp_mono; [|by apply Hm]. intros a s' Hs'. by apply Hk.
Qed.

Lemma stable_writeType p t : stable (writeType p t).
Proof.
  intros s0 s [Hlen Hs]. unfold wp, writeType, modify, keepsLists. simpl.
  destruct (store s !! p) as [v|] eqn:Hp; [|done].
  rewrite length_insert. split; [done|]. intros q t0 d Hq.
  destruct (Hs q t0 d Hq) as [t' Ht'].
  destruct (decide (p = q)) as [Heq|Hne].
  - rewrite <- Heq in Ht' |- *. rewrite Hp in Ht'. injection Ht' as ->.
    exists t. rewrite list_lookup_insert_eq; [done|].
    by eapply lookup_lt_Some.
  - exists t'. by rewrite list_lookup_insert_ne.
Qed.

Lemma stable_printError token errorMessage :
  stable (printError token errorMessage).
Proof. by intros s0 s Hs. Qed.

Lemma stable_alloc v : stable (alloc v).
Proof.
  intros s0 s [Hlen Hs]. unfold wp, alloc, keepsLists. simpl.
  rewrite length_app. split; [lia|]. intros q t d Hq.
  destruct (Hs q t d Hq) as [t' Ht']. exists t'.
  by apply lookup_app_l_Some.
Qed.

End Frame.

Create HintDb stable discriminated.

#[local] Hint Resolve readOnly_ret readOnly_orUndefined readOnly_orOutOfRange
  readOnly_load readOnly_asList readOnly_asInt readOnly_indexOf
  readOnly_getArgumentValue readOnly_listTypeOf : stable.
#[local] Hint Resolve stable_readOnly stable_writeType stable_printError
  stable_alloc : stable.

(** Splits a goal about the steps of a built-in along its binds and case
    distinctions. *)
Ltac stable_steps :=
  repeat first
    [ progress auto with stable
    | apply stable_bind; [|intros ?]
    | match goal with
      | |- stable (match ?x with _ => _ end) => destruct x
      | |- stable (let '(_, _) := ?x in _) => destruct x
      end ].

Section Copying.
Import Types Expressions Values BuiltinImplementations.

Lemma stable_throw {A} e : stable (throw (A := A) e).
Proof. by intros s0 s Hs. Qed.

Lemma stable_undefined {A} : stable (undefined (A := A)).
Proof. by intros s0 s Hs. Qed.

Lemma stable_compareElementType elementValue listValue :
  stable (compareElementType elementValue listValue).
Proof.
  unfold compareElementType. stable_steps; apply stable_undefined.
Qed.

Lemma stable_compareListTypes listValue1 listValue2 :
  stable (compareListTypes listValue1 listValue2).
Proof. unfold compareListTypes. stable_steps. Qed.

Lemma stable_compareWithInt value : stable (compareWithInt value).
Proof. unfold compareWithInt. stable_steps. Qed.

Lemma stable_rangeLoop startIndex endIndex source :
  stable (rangeLoop startIndex endIndex source).
Proof. unfold rangeLoop. auto with stable. Qed.

Lemma muted_readOnly {A} (m : M State A) : readOnly m → muted m.
Proof.
  intros Hm s. eapply wp_mono; [|apply Hm]. by intros ? ? ->.
Qed.

Lemma muted_bind {A B} (m : M State A) (k : A → M State B) :
  muted m → (∀ a, muted (k a)) → muted (bind m k).
Proof.
  intros Hm Hk s. apply wp_bind. specialize (Hm s). unfold wp in *.
  destruct (m s) as [a s'| |]; [|done..].
  specialize (Hk a s'). unfold wp in Hk.
  destruct (k a s'); [congruence|done..].
Qed.

Lemma muted_writeType p t : muted (writeType p t).
Proof. by intros s. Qed.

Lemma muted_alloc v : muted (alloc v).
Proof. by intros s. Qed.

Lemma muted_throw {A} e : muted (throw (A := A) e).
Proof. by intros s. Qed.

Lemma muted_undefined {A} : muted (undefined (A := A)).
Proof. by intros s. Qed.

End Copying.

#[local] Hint Resolve stable_throw stable_undefined stable_compareElementType
  stable_compareListTypes stable_compareWithInt stable_rangeLoop : stable.

Create HintDb muted discriminated.

#[local] Hint Resolve readOnly_ret readOnly_orUndefined readOnly_orOutOfRange
  readOnly_load readOnly_asList readOnly_asInt readOnly_indexOf
  readOnly_getArgumentValue readOnly_listTypeOf : muted.
#[local] Hint Resolve muted_readOnly muted_writeType muted_alloc muted_throw
  muted_undefined : muted.

(** Splits a goal about the messages of the steps of a built-in along
    its binds and case distinctions. *)
Ltac muted_steps :=
  repeat first
    [ progress auto with muted
    | apply muted_bind; [|intros ?]
    | match goal with
      | |- muted (match ?x with _ => _ end) => destruct x
      | |- muted (let '(_, _) := ?x in _) => destruct x
      end ].

Section Reporting.
Import Types Expressions Values BuiltinImplementations.

Lemma muted_compareElementType elementValue listValue :
  muted (compareElementType elementValue listValue).
Proof.
  unfold compareElementType. muted_steps; apply muted_undefined.
Qed.

Lemma muted_compareListTypes listValue1 listValue2 :
  muted (compareListTypes listValue1 listValue2).
Proof. unfold compareListTypes. muted_steps. Qed.

Lemma muted_compareWithInt value : muted (compareWithInt value).
Proof. unfold compareWithInt. muted_steps. Qed.

Lemma muted_rangeLoop startIndex endIndex source :
  muted (rangeLoop startIndex endIndex source).
Proof. unfold rangeLoop. auto with muted. Qed.

Lemma copies_bind {A} token (m : M State A) (k : A → M State ValuePtr) :
  stable m → muted m → (∀ a, copiesOrReports token (k a)) →
  copiesOrReports token (bind m k).
Proof.
  intros Hm Hq Hk s0 s Hs He. apply wp_bind.
  specialize (Hm s0 s Hs). specialize (Hq s). unfold wp in Hm, Hq |- *.
  destruct (m s) as [a s'| |]; [|done..].
  apply Hk; [done|congruence].
Qed.

Lemma copies_error token errorMessage :
  copiesOrReports token (printError token errorMessage;;; ret nullValue)%M.
Proof.
  intros s0 s Hs He. split; [done|]. left. split; [done|]. split; [done|].
  exists errorMessage. simpl. by rewrite He.
Qed.

Lemma copies_makeListType token listValue listData :
  copiesOrReports token (makeListType listValue listData).
Proof.
  intros s0 s Hs He. unfold makeListType. apply wp_bind.
  eapply wp_mono; [|apply readOnly_asList]. intros l ? ->. apply wp_bind.
  eapply wp_mono; [|apply readOnly_listTypeOf]. intros lt ? ->.
  unfold wp, alloc. split.
  - by apply (stable_alloc (ListValue (ListType LIST lt) listData) s0 s).
  - right. destruct Hs as [Hlen _]. split_and!; [done..|].
    eexists _, _. simpl. by apply list_lookup_middle.
Qed.

End Reporting.

#[local] Hint Resolve muted_compareElementType muted_compareListTypes
  muted_compareWithInt muted_rangeLoop : muted.

(** Runs through a copying built-in up to its three ways out. *)
Ltac copies_steps :=
  repeat first
    [ apply copies_error
    | apply copies_makeListType
    | apply copies_bind; [solve [stable_steps]|solve [muted_steps]|intros ?]
    | match goal with
      | |- copiesOrReports _ (if ?c then _ else _) => destruct c
      end ].

Section CopyingBuiltins.
Import Types Expressions Values BuiltinImplementations.

Variable token : Token.
Variable functionValue : FunctionValueData.
Variable environment : Environment.

Lemma insertBuiltin_copies :
  copiesOrReports token (insertBuiltin token functionValue environment).
Proof. unfold insertBuiltin. copies_steps. Qed.

Lemma removeBuiltin_copies :
  copiesOrReports token (removeBuiltin token functionValue environment).
Proof. unfold removeBuiltin. copies_steps. Qed.

Lemma replaceBuiltin_copies :
  copiesOrReports token (replaceBuiltin token functionValue environment).
Proof. unfold replaceBuiltin. copies_steps. Qed.

Lemma pushFrontBuiltin_copies :
  copiesOrReports token (pushFrontBuiltin token functionValue environment).
Proof. unfold pushFrontBuiltin. copies_steps. Qed.

Lemma pushBackBuiltin_copies :
  copiesOrReports token (pushBackBuiltin token functionValue environment).
Proof. unfold pushBackBuiltin. copies_steps. Qed.

Lemma headBuiltin_copies :
  copiesOrReports token (headBuiltin token functionValue environment).
Proof. unfold headBuiltin. copies_steps. Qed.

Lemma tailBuiltin_copies :
  copiesOrReports token (tailBuiltin token functionValue environment).
Proof. unfold tailBuiltin. copies_steps. Qed.

Lemma combineBuiltin_copies :
  copiesOrReports token (combineBuiltin token functionValue environment).
Proof. unfold combineBuiltin. copies_steps. Qed.

Lemma rangeBuiltin_copies :
  copiesOrReports token (rangeBuiltin token functionValue environment).
Proof. unfold rangeBuiltin. copies_steps. Qed.

End CopyingBuiltins.

Section CopyingClaim.
Import Types Expressions Values BuiltinImplementations.

Lemma nonInPlace_copies builtin token functionValue environment :
  builtin ∈ nonInPlace →
  copiesOrReports token (builtin token functionValue environment).
Proof.
  unfold nonInPlace. rewrite !elem_of_cons, elem_of_nil.
  intros [->|[->|[->|[->|[->|[->|[->|[->|[->|[]]]]]]]]]];
    auto using insertBuiltin_copies, removeBuiltin_copies,
      replaceBuiltin_copies, pushFrontBuiltin_copies, pushBackBuiltin_copies,
      headBuiltin_copies, tailBuiltin_copies, combineBuiltin_copies,
      rangeBuiltin_copies.
Qed.

(** A call of [insert], [remove], [replace], [pushFront], [pushBack],
    [head], [tail], [combine] or [range] that returns leaves every list
    value of the store, its arguments among them, with the elements it
    had.  It returns the null object only after it has reported an error
    for the call, and then this is all it has written; otherwise it has
    reported nothing and returns a list value that did not exist before.
    In particular [printList(pushBack(xs, 4))] followed by [printList(xs)]
    prints [(1, 2, 3, 4)] and then [(1, 2, 3)]. *)
Theorem copying_builtins_keep_every_list :
  (∀ builtin token functionValue environment (s s' : State) r,
      builtin ∈ nonInPlace →
      builtin token functionValue environment s = Done r s' →
      keepsLists s s'
      ∧ ((r = nullValue ∧ reportsAnError token s s')
         ∨ (stderr s' = stderr s ∧ freshList s s' r)))
  ∧ ∃ s', printPushBackThenXs xsState = Done nullValue s'
          ∧ stdout s' = ("(1, 2, 3, 4)" ++ endl ++ "(1, 2, 3)" ++ endl)%string.
Proof.
  split.
  - intros builtin token functionValue environment s s' r Hin Hrun.
    pose proof (nonInPlace_copies builtin token functionValue environment
                  Hin s s (keepsLists_refl s) eq_refl) as H.
    unfold wp in H. rewrite Hrun in H.
    destruct H as [Hk [[-> Hr]|(He & Hr & Hl)]].
    + split; [done|by left].
    + split; [done|]. right. split; [done|]. split; [|done].
      by apply lookup_ge_None.
  - eexists. split; vm_compute; reflexivity.
Qed.

Lemma copying_builtins_keep_every_list_witness :
  ∃ s' r,
    pushBackBuiltin callToken (builtinFunction ["list"; "element"] PUSHBACK)
                    {["list" := 5%nat; "element" := 6%nat]} xsState
    = Done r s'
    ∧ elementsAt s' 5%nat [2; 3; 4]%nat
    ∧ elementsAt s' r [2; 3; 4; 6]%nat
    ∧ store xsState !! r = None
    ∧ stderr s' = stderr xsState.
Proof.
  destruct copying_builtins_keep_every_list as [H _].
  eexists _, _.
  match goal with |- ?run ∧ _ =>
    assert run as Hrun by (vm_compute; reflexivity) end.
  split; [exact Hrun|].
  destruct (H _ _ _ _ _ _ _ ltac:(do 4 right; left) Hrun) as [[_ Hk] Hr].
  split_and!.
  - destruct (Hk 5%nat (mkList mkInt) [2; 3; 4]%nat eq_refl) as [t Ht].
    by exists t.
  - eexists. reflexivity.
  - reflexivity.
  - reflexivity.
Defined.

End CopyingClaim.

(* ================================================================== *)
(** * In-place built-ins against their copying counterparts *)
(* ================================================================== *)

Section Steps.
Import Types Expressions Values BuiltinImplementations.

Lemma bind_Done_inv {S A B} (m : M S A) (k : A → M S B) s r s' :
  bind m k s = Done r s' → ∃ a s1, m s = Done a s1 ∧ k a s1 = Done r s'.
Proof. unfold bind. destruct (m s) as [a s1| |]; [|done..]. by exists a, s1. Qed.

Lemma readOnly_Done {A} (m : M State A) s a s' :
  readOnly m → m s = Done a s' → s' = s.
Proof. intros Hm Hs. specialize (Hm s). unfold wp in Hm. by rewrite Hs in Hm. Qed.

(** [compare] on the type objects of two values writes to no stream and
    sets no latch. *)
Lemma writeType_Done p t (s : State) :
  ∃ s', writeType p t s = Done tt s' ∧ stderr s' = stderr s
        ∧ builtinError s' = builtinError s.
Proof. by eexists. Qed.

Lemma compareElementType_stderr elementValue listValue (s s' : State) equal :
  compareElementType elementValue listValue s = Done equal s' →
  stderr s' = stderr s ∧ builtinError s' = builtinError s.
Proof.
  unfold compareElementType. intros H.
  apply bind_Done_inv in H as (e & s1 & He & H).
  apply readOnly_Done in He as ->; [|apply readOnly_load].
  apply bind_Done_inv in H as (l & s1 & Hl & H).
  apply readOnly_Done in Hl as ->; [|apply readOnly_asList].
  destruct l.1 as [| | | | | | |d [lt|]| | |]; try done.
  - apply bind_Done_inv in H as (c & s1 & Hc & H).
    apply readOnly_Done in Hc as ->; [|apply readOnly_orUndefined].
    destruct c as [[eq et] lt'].
    apply bind_Done_inv in H as ([] & s1 & H1 & H).
    apply bind_Done_inv in H as ([] & s2 & H2 & H).
    injection H as _ <-. unfold writeType, modify in H1, H2.
    injection H1 as <-. by injection H2 as <-.
  - by injection H as _ <-.
Qed.

(** How a call of [makeListType] that returns ends. *)
Lemma makeListType_Done listValue listData (s s' : State) r :
  makeListType listValue listData s = Done r s' →
  (∃ t d, store s !! listValue = Some (ListValue t d))
  ∧ elementsAt s' r listData ∧ stderr s' = stderr s.
Proof.
  unfold makeListType. intros H.
  apply bind_Done_inv in H as ([t d] & s1 & Hl & H).
  pose proof Hl as Hro. apply readOnly_Done in Hro as ->; [|apply readOnly_asList].
  apply bind_Done_inv in H as (lt & s1 & Hlt & H).
  apply readOnly_Done in Hlt as ->; [|apply readOnly_listTypeOf].
  unfold alloc in H. injection H as <- <-. split_and!; [|by eexists; apply list_lookup_middle|done].
  unfold asList, bind in Hl.
  destruct (load listValue s) as [v s1| |] eqn:Hv; [|done..].
  destruct v; try done. unfold load, bind, get, orUndefined in Hv.
  destruct (store s !! listValue) eqn:Hst; [|done].
  injection Hv as -> _. by eexists _, _.
Qed.

(** How the in-place write ends on a list value. *)
Lemma writeListData_Done listValue listData (s : State) t d :
  store s !! listValue = Some (ListValue t d) →
  ∃ s', writeListData listValue listData s = Done tt s'
        ∧ elementsAt s' listValue listData ∧ stderr s' = stderr s.
Proof.
  intros H. unfold writeListData, modify. eexists. split; [done|].
  split; [|done]. exists t. simpl. rewrite H.
  apply list_lookup_insert_eq. by eapply lookup_lt_Some.
Qed.

(** The two ways a built-in finishes on the same list value with the same
    elements. *)
Lemma finishes_agree listValue listData (s s1 s2 : State) r1 r2 :
  makeListType listValue listData s = Done r1 s1 →
  (writeListData listValue listData;;; ret listValue)%M s = Done r2 s2 →
  stderr s1 = stderr s ∧ stderr s2 = stderr s
  ∧ ∃ d, elementsAt s1 r1 d ∧ elementsAt s2 r2 d.
Proof.
  intros H1 H2. apply makeListType_Done in H1 as ((t & d & Hl) & He & Hs).
  destruct (writeListData_Done listValue listData s t d Hl)
    as (s' & Hw & He' & Hs').
  unfold bind in H2. rewrite Hw in H2. injection H2 as <- <-.
  split_and!; [done|done|]. by exists listData.
Qed.

End Steps.

(** One step of two runs that start with the same computation. *)
Ltac lockstep H1 H2 :=
  let a := fresh "a" in
  let sa := fresh "s" in
  let E1 := fresh "E" in
  let E2 := fresh "E" in
  apply bind_Done_inv in H1 as (a & sa & E1 & H1);
  apply bind_Done_inv in H2 as (? & ? & E2 & H2);
  rewrite E1 in E2; injection E2 as <- <-;
  first [ apply readOnly_Done in E1 as ->; [|solve [auto with stable]]
        | apply compareElementType_stderr in E1 as [? ?] ].

(** One step of a run that returns, taken by another run that starts
    with the same computation. *)
Ltac follow H :=
  let E := fresh "E" in
  apply bind_Done_inv in H as (? & ? & E & H);
  unfold bind at 1; rewrite E; cbv beta iota.

(** The leaf of two runs that report the same error. *)
Ltac same_error H1 H2 :=
  unfold bind, BuiltinImplementations.printError, modify, ret in H1, H2;
  injection H1 as <- <-; injection H2 as <- <-;
  left; split_and!; [done|done|done|];
  eexists; simpl; by f_equal.

Section InPlace.
Import Types Expressions Values BuiltinImplementations.

Variable token : Token.
Variable functionValue : FunctionValueData.
Variable environment : Environment.

Lemma insertInPlace_agrees (s s1 s2 : State) r1 r2 :
  insertBuiltin token functionValue environment s = Done r1 s1 →
  insertInPlaceBuiltin token functionValue environment s = Done r2 s2 →
  sameElements token s s1 s2 r1 r2.
Proof.
  unfold insertBuiltin, insertInPlaceBuiltin. intros H1 H2.
  do 3 lockstep H1 H2.
  destruct (negb _); [same_error H1 H2|].
  do 3 lockstep H1 H2.
  destruct (_ && _); [same_error H1 H2|].
  lockstep H1 H2. right.
  destruct (finishes_agree _ _ _ _ _ _ _ H1 H2) as (? & ? & ?).
  split_and!; congruence.
Qed.

Lemma removeInPlace_agrees (s s1 s2 : State) r1 r2 :
  removeBuiltin token functionValue environment s = Done r1 s1 →
  removeInPlaceBuiltin token functionValue environment s = Done r2 s2 →
  sameElements token s s1 s2 r1 r2.
Proof.
  unfold removeBuiltin, removeInPlaceBuiltin. intros H1 H2.
  do 2 lockstep H1 H2.
  destruct (bool_decide _); [same_error H1 H2|].
  do 2 lockstep H1 H2.
  destruct (bool_decide _); [same_error H1 H2|].
  lockstep H1 H2. right.
  by destruct (finishes_agree _ _ _ _ _ _ _ H1 H2) as (? & ? & ?).
Qed.

Lemma replaceInPlace_agrees (s s1 s2 : State) r1 r2 :
  replaceBuiltin token functionValue environment s = Done r1 s1 →
  replaceInPlaceBuiltin token functionValue environment s = Done r2 s2 →
  sameElements token s s1 s2 r1 r2.
Proof.
  unfold replaceBuiltin, replaceInPlaceBuiltin. intros H1 H2.
  do 2 lockstep H1 H2.
  destruct (bool_decide (_ = [])); [same_error H1 H2|].
  do 2 lockstep H1 H2.
  destruct (bool_decide _); [same_error H1 H2|].
  do 2 lockstep H1 H2.
  destruct (negb _); [same_error H1 H2|].
  apply bind_Done_inv in H1 as ([] & sx & Hx & H1).
  apply bind_Done_inv in H2 as ([] & sy & Hy & H2).
  case_decide; [|done]. injection Hx as <-. injection Hy as <-. right.
  destruct (finishes_agree _ _ _ _ _ _ _ H1 H2) as (? & ? & ?).
  split_and!; congruence.
Qed.

(** The in-place variant returns whenever the copying built-in does. *)
Lemma insertInPlace_returns (s s1 : State) r1 :
  insertBuiltin token functionValue environment s = Done r1 s1 →
  ∃ r2 s2, insertInPlaceBuiltin token functionValue environment s = Done r2 s2.
Proof.
  unfold insertBuiltin, insertInPlaceBuiltin. intros H.
  do 3 follow H. destruct (negb _); [by eexists _, _|].
  do 3 follow H. destruct (_ && _); [by eexists _, _|].
  follow H. by eexists _, _.
Qed.

Lemma removeInPlace_returns (s s1 : State) r1 :
  removeBuiltin token functionValue environment s = Done r1 s1 →
  ∃ r2 s2, removeInPlaceBuiltin token functionValue environment s = Done r2 s2.
Proof.
  unfold removeBuiltin, removeInPlaceBuiltin. intros H.
  do 2 follow H. destruct (bool_decide _); [by eexists _, _|].
  do 2 follow H. destruct (bool_decide _); [by eexists _, _|].
  follow H. by eexists _, _.
Qed.

Lemma replaceInPlace_returns (s s1 : State) r1 :
  replaceBuiltin token functionValue environment s = Done r1 s1 →
  ∃ r2 s2, replaceInPlaceBuiltin token functionValue environment s = Done r2 s2.
Proof.
  unfold replaceBuiltin, replaceInPlaceBuiltin. intros H.
  do 2 follow H. destruct (bool_decide (_ = [])); [by eexists _, _|].
  do 2 follow H. destruct (bool_decide _); [by eexists _, _|].
  do 2 follow H. destruct (negb _); [by eexists _, _|].
  follow H. by eexists _, _.
Qed.


End InPlace.


(* ================================================================== *)
(** * [range] *)
(* ================================================================== *)

Section Range.
Import Types Expressions Values BuiltinImplementations.

Lemma getArgumentValue_Done index functionValue environment p (s : State) :
  argument index functionValue environment p →
  getArgumentValue index functionValue environment s = Done p s.
Proof.
  intros (name & Hn & Hp). unfold getArgumentValue, bind, orOutOfRange.
  rewrite Hn. simpl. unfold bind. by rewrite Hp.
Qed.

Lemma asList_Done (s : State) p t d :
  store s !! p = Some (ListValue t d) → asList p s = Done (t, d) s.
Proof. intros H. unfold asList, bind. by rewrite (load_Done _ _ _ H). Qed.

Lemma indexOf_Done (s : State) p t z :
  store s !! p = Some (IntValue t z) →
  indexOf p s = Done (Z.to_nat (toUnsigned z)) s.
Proof. intros H. unfold indexOf, bind. by rewrite (asInt_Done _ _ _ _ H). Qed.

Lemma writeType_same (s : State) p v :
  store s !! p = Some v → writeType p (type v) s = Done tt s.
Proof.
  intros H. unfold writeType, modify, setStore. rewrite H.
  assert (setType (type v) v = v) as -> by by destruct v.
  rewrite list_insert_id by done. by destruct s.
Qed.

Lemma compareWithInt_Done (s : State) p z :
  store s !! p = Some (IntValue mkInt z) → compareWithInt p s = Done true s.
Proof.
  intros H. unfold compareWithInt, bind. rewrite (load_Done _ _ _ H). simpl.
  unfold ret, setStore. rewrite H. simpl.
  rewrite list_insert_id by done. by destruct s.
Qed.

Lemma makeListType_new (s : State) listValue d lt data listData :
  store s !! listValue = Some (ListValue (ListType d lt) data) →
  makeListType listValue listData s
  = Done (length (store s))
         (setStore (λ st, st ++ [ListValue (ListType LIST lt) listData]) s).
Proof.
  intros H. unfold makeListType, bind. by rewrite (asList_Done _ _ _ _ H).
Qed.

(** The loop of [range] collects the elements at the positions it runs
    through. *)
Lemma mapM_lookup_seq {A} (xs : list A) n :
  ∀ start, (start + n ≤ length xs)%nat →
           mapM (λ index, xs !! index) (seq start n)
           = Some (take n (drop start xs)).
Proof.
  induction n as [|n IH]; intros start Hlen; simpl.
  - by rewrite take_0.
  - destruct (lookup_lt_is_Some_2 xs start ltac:(lia)) as [x Hx].
    rewrite Hx. simpl. rewrite IH by lia. simpl.
    by rewrite (drop_S _ _ _ Hx).
Qed.

Lemma rangeLoop_Done (s : State) startIndex endIndex source :
  (startIndex ≤ endIndex < length source)%nat →
  rangeLoop startIndex endIndex source s
  = Done (take (S endIndex - startIndex) (drop startIndex source)) s.
Proof.
  intros H. unfold rangeLoop. by rewrite mapM_lookup_seq by lia.
Qed.

Lemma toUnsigned_nonnegative z :
  0 ≤ z ≤ INT_MAX → toUnsigned z = z.
Proof.
  unfold toUnsigned, INT_MAX. intros H. apply Z.mod_small. lia.
Qed.

Lemma toUnsigned_negative z :
  INT_MIN ≤ z < 0 → toUnsigned z = z + 2 ^ 32.
Proof.
  unfold toUnsigned, INT_MIN. intros H.
  rewrite <- (Z.mod_add z 1 (2 ^ 32)) by lia.
  rewrite Z.mul_1_l. apply Z.mod_small. lia.
Qed.

End Range.

Section RangeClaim.
Import Types Expressions Values BuiltinImplementations.

(** C7: on a list [L] and two integers [s] and [e], [range] reports an
    error and returns the null object when [L] is empty, [s > e],
    [s ≥ |L|], [e ≥ |L|], [s < 0] or [e < 0]; otherwise it returns a new
    list value holding the elements of [L] at the positions [s] to [e],
    both included.  (The length of [L] is within [int].) *)
Theorem range_returns_inclusive_sublist token functionValue environment
  (st : State) l ps pe d lt data sv ev :
  argument 0 functionValue environment l →
  argument 1 functionValue environment ps →
  argument 2 functionValue environment pe →
  store st !! l = Some (ListValue (ListType d lt) data) →
  store st !! ps = Some (IntValue mkInt sv) →
  store st !! pe = Some (IntValue mkInt ev) →
  INT_MIN ≤ sv ≤ INT_MAX → INT_MIN ≤ ev ≤ INT_MAX →
  Z.of_nat (length data) ≤ INT_MAX →
  if decide (data = [] ∨ sv > ev ∨ sv >= Z.of_nat (length data)
             ∨ ev >= Z.of_nat (length data) ∨ sv < 0 ∨ ev < 0)
  then ∃ errorMessage,
      rangeBuiltin token functionValue environment st
      = Done nullValue (reported token errorMessage st)
  else
    rangeBuiltin token functionValue environment st
    = Done (length (store st))
           (setStore (λ s, s ++ [ListValue (ListType LIST lt)
                                   (inclusiveSublist sv ev data)]) st).
Proof.
  intros Hl Hps Hpe Hlist Hs He Hsv Hev Hlen.
  unfold rangeBuiltin, bind.
  rewrite (getArgumentValue_Done _ _ _ _ _ Hl),
    (getArgumentValue_Done _ _ _ _ _ Hps),
    (getArgumentValue_Done _ _ _ _ _ Hpe), (asList_Done _ _ _ _ Hlist).
  cbn [fst snd].
  case_bool_decide as Hempty.
  { rewrite decide_True by by left. by eexists. }
  rewrite (compareWithInt_Done _ _ _ Hs). cbn [negb].
  rewrite (compareWithInt_Done _ _ _ He). cbn [negb].
  rewrite (indexOf_Done _ _ _ _ Hs), (indexOf_Done _ _ _ _ He).
  unfold INT_MIN, INT_MAX in *.
  destruct (decide (sv < 0)) as [Hsn|Hsp].
  { rewrite decide_True by lia.
    rewrite (toUnsigned_negative sv) by (unfold INT_MIN; lia).
    rewrite (bool_decide_eq_true_2 (length data ≤ _)%nat) by lia.
    rewrite orb_true_r. by eexists. }
  rewrite (toUnsigned_nonnegative sv) by (unfold INT_MAX; lia).
  destruct (decide (ev < 0)) as [Hen|Hep].
  { rewrite decide_True by lia.
    rewrite (toUnsigned_negative ev) by (unfold INT_MIN; lia).
    rewrite (bool_decide_eq_true_2 (length data ≤ Z.to_nat (ev + _))%nat) by lia.
    rewrite orb_true_r. by eexists. }
  rewrite (toUnsigned_nonnegative ev) by (unfold INT_MAX; lia).
  case_decide as Hbad.
  - destruct Hbad as [Hbad|Hbad]; [done|].
    assert ((Z.to_nat ev < Z.to_nat sv)%nat
            ∨ (length data ≤ Z.to_nat sv)%nat
            ∨ (length data ≤ Z.to_nat ev)%nat) as [H|[H|H]] by lia.
    + rewrite (bool_decide_eq_true_2 _ H). by eexists.
    + rewrite (bool_decide_eq_true_2 _ H), orb_true_r. by eexists.
    + rewrite (bool_decide_eq_true_2 _ H), orb_true_r. by eexists.
  - assert (¬ sv > ev ∧ ¬ sv >= Z.of_nat (length data)
            ∧ ¬ ev >= Z.of_nat (length data)) as (H1 & H2 & H3)
      by (split_and!; intros ?; apply Hbad; tauto).
    rewrite !bool_decide_eq_false_2 by lia. cbn [orb].
    rewrite rangeLoop_Done by lia.
    rewrite (makeListType_new _ _ _ _ _ _ Hlist).
    unfold inclusiveSublist.
    by replace (S (Z.to_nat ev) - Z.to_nat sv)%nat
      with (Z.to_nat (ev - sv + 1)) by lia.
Qed.

Lemma range_returns_inclusive_sublist_witness :
  rangeBuiltin callToken rangeFunction rangeArguments xsState
  = Done 7%nat
         (setStore (λ s, s ++ [ListValue (ListType LIST (Some mkInt))
                                 (inclusiveSublist 1 2 [2; 3; 4]%nat)])
                   xsState).
Proof.
  apply (range_returns_inclusive_sublist callToken rangeFunction
           rangeArguments xsState 5%nat 2%nat 3%nat LIST (Some mkInt)
           [2; 3; 4]%nat 1 2).
  - by exists "list".
  - by exists "start".
  - by exists "end".
  - reflexivity.
  - reflexivity.
  - reflexivity.
  - vm_compute. split; discriminate.
  - vm_compute. split; discriminate.
  - vm_compute. discriminate.
Defined.

End RangeClaim.

(* ================================================================== *)
(** * Conversions between strings and lists of characters *)
(* ================================================================== *)

Section Conversions.
Import Types Expressions Values BuiltinImplementations.

Lemma setStore_app (s : State) xs ys :
  setStore (λ st, st ++ ys) (setStore (λ st, st ++ xs) s)
  = setStore (λ st, st ++ xs ++ ys) s.
Proof. unfold setStore. simpl. by rewrite <- app_assoc. Qed.

(** The loop of [stringToCharList] makes one [CharValue] per character. *)
Lemma charValues_Done stringValue :
  ∀ s : State, ∃ ps added,
    charValues stringValue s = Done ps (setStore (λ st, st ++ added) s)
    ∧ Forall2 (λ p c, (store s ++ added) !! p = Some (CharValue mkChar c))
              ps (list_ascii_of_string stringValue).
Proof.
  induction stringValue as [|c rest IH]; intros s; simpl.
  - exists [], []. split; [|constructor].
    unfold ret, setStore. destruct s; simpl. by rewrite app_nil_r.
  - unfold bind, alloc.
    destruct (IH (setStore (λ st, st ++ [CharValue mkChar c]) s))
      as (ps & added & -> & Hps).
    exists (length (store s) :: ps), (CharValue mkChar c :: added).
    unfold ret. rewrite setStore_app. split; [done|].
    constructor; [by apply list_lookup_middle|].
    simpl in Hps. by rewrite <- app_assoc in Hps.
Qed.

(** The loop of [charListToString] reads the characters back. *)
Lemma charData_Done (s : State) ps cs :
  charsAt s ps cs → charData ps s = Done (string_of_list_ascii cs) s.
Proof.
  induction 1 as [|p c ps cs [t Hp] _ IH]; simpl; [done|].
  unfold bind, asChar. unfold bind. rewrite (load_Done _ _ _ Hp).
  unfold ret. by rewrite IH.
Qed.

Lemma charsAt_app (s : State) ps cs added :
  charsAt s ps cs → charsAt (setStore (λ st, st ++ added) s) ps cs.
Proof.
  unfold charsAt. intros H. eapply Forall2_impl; [exact H|].
  intros p c [t Ht]. exists t. simpl. by apply lookup_app_l_Some.
Qed.

Lemma asString_Done (s : State) p t d :
  store s !! p = Some (StringValue t d) → asString p s = Done d s.
Proof. intros H. unfold asString, bind. by rewrite (load_Done _ _ _ H). Qed.

(** [stringToCharList] on a string value. *)
Lemma stringToCharList_Done functionValue environment (s : State)
  p t stringValue :
  argument 0 functionValue environment p →
  store s !! p = Some (StringValue t stringValue) →
  ∃ ps added,
    stringToCharListBuiltin functionValue environment s
    = Done (length (store s ++ added))
           (setStore (λ st, st ++ added ++ [ListValue (mkList mkChar) ps]) s)
    ∧ charsAt (setStore (λ st, st ++ added ++ [ListValue (mkList mkChar) ps]) s)
              ps (list_ascii_of_string stringValue).
Proof.
  intros Hp Hs. unfold stringToCharListBuiltin, bind.
  rewrite (getArgumentValue_Done _ _ _ _ _ Hp), (asString_Done _ _ _ _ Hs).
  destruct (charValues_Done stringValue s) as (ps & added & -> & Hps).
  exists ps, added. unfold alloc. rewrite setStore_app. split; [done|].
  unfold charsAt. eapply Forall2_impl; [exact Hps|].
  intros q c Hq. exists mkChar. simpl. rewrite app_assoc.
  by apply lookup_app_l_Some.
Qed.

(** [charListToString] on a list of character values. *)
Lemma charListToString_Done functionValue environment (s : State)
  l t ps cs :
  argument 0 functionValue environment l →
  store s !! l = Some (ListValue t ps) →
  charsAt s ps cs →
  charListToStringBuiltin functionValue environment s
  = Done (length (store s))
         (setStore (λ st, st ++ [StringValue mkString
                                   (string_of_list_ascii cs)]) s).
Proof.
  intros Hl Hs Hcs. unfold charListToStringBuiltin, bind.
  rewrite (getArgumentValue_Done _ _ _ _ _ Hl), (asList_Done _ _ _ _ Hs).
  simpl. by rewrite (charData_Done _ _ _ Hcs).
Qed.

End Conversions.

Section ConversionClaim.
Import Types Expressions Values BuiltinImplementations.

(** C10: [charListToString] applied to the result of
    [stringToCharList] on a string returns a string value holding that
    string; [stringToCharList] applied to the result of
    [charListToString] on a list of character values returns a list of
    character values holding the same characters in the same order. *)
Theorem conversions_round_trip :
  (∀ functionValue environment functionValue' environment' (s : State)
     p t stringValue,
      argument 0 functionValue environment p →
      store s !! p = Some (StringValue t stringValue) →
      ∃ l s1,
        stringToCharListBuiltin functionValue environment s = Done l s1
        ∧ (argument 0 functionValue' environment' l →
           ∃ q s2,
             charListToStringBuiltin functionValue' environment' s1
             = Done q s2
             ∧ store s2 !! q = Some (StringValue mkString stringValue)))
  ∧ (∀ functionValue environment functionValue' environment' (s : State)
       l t ps cs,
        argument 0 functionValue environment l →
        store s !! l = Some (ListValue t ps) →
        charsAt s ps cs →
        ∃ q s1,
          charListToStringBuiltin functionValue environment s = Done q s1
          ∧ store s1 !! q
            = Some (StringValue mkString (string_of_list_ascii cs))
          ∧ (argument 0 functionValue' environment' q →
             ∃ l' s2 ps',
               stringToCharListBuiltin functionValue' environment' s1
               = Done l' s2
               ∧ elementsAt s2 l' ps' ∧ charsAt s2 ps' cs)).
Proof.
  split.
  - intros fv env fv' env' s p t str Hp Hs.
    destruct (stringToCharList_Done fv env s p t str Hp Hs)
      as (ps & added & Hrun & Hcs).
    eexists _, _. split; [exact Hrun|]. intros Hl.
    eexists _, _. split.
    + eapply charListToString_Done; [exact Hl| |exact Hcs].
      simpl. rewrite app_assoc. by apply list_lookup_middle.
    + rewrite string_of_list_ascii_of_string.
      simpl. by apply list_lookup_middle.
  - intros fv env fv' env' s l t ps cs Hl Hs Hcs.
    pose proof (charListToString_Done fv env s l t ps cs Hl Hs Hcs) as Hrun1.
    eexists _, _. split; [exact Hrun1|].
    assert (store (setStore (λ st, st ++ [StringValue mkString
                                            (string_of_list_ascii cs)]) s)
            !! length (store s)
            = Some (StringValue mkString (string_of_list_ascii cs))) as Hstr
      by (simpl; by apply list_lookup_middle).
    split; [exact Hstr|]. intros Hq.
    destruct (stringToCharList_Done fv' env' _ _ _ _ Hq Hstr)
      as (ps' & added & Hrun & Hcs').
    rewrite list_ascii_of_string_of_list_ascii in Hcs'.
    eexists _, _, ps'. split; [exact Hrun|]. split; [|exact Hcs'].
    eexists. simpl. rewrite app_assoc. by apply list_lookup_middle.
Qed.

Lemma conversions_round_trip_witness :
  ∃ l s1 q s2,
    stringToCharListBuiltin (conversionFunction STRINGTOCHARLIST)
                            {["argument" := 2%nat]} hiState = Done l s1
    ∧ charListToStringBuiltin (conversionFunction CHARLISTTOSTRING)
                              {["argument" := l]} s1 = Done q s2
    ∧ store s2 !! q = Some (StringValue mkString "hi").
Proof.
  destruct conversions_round_trip as [H _].
  destruct (H (conversionFunction STRINGTOCHARLIST) {["argument" := 2%nat]}
              (conversionFunction CHARLISTTOSTRING) {["argument" := 5%nat]}
              hiState 2%nat mkString "hi")
    as (l & s1 & Hrun & Hback).
  - by exists "argument".
  - reflexivity.
  - assert (l = 5%nat) as ->.
    { vm_compute in Hrun. by injection Hrun as <- _. }
    destruct Hback as (q & s2 & Hrun' & Hq); [by exists "argument"|].
    by exists 5%nat, s1, q, s2.
Defined.

End ConversionClaim.

(* ================================================================== *)
(** * Import pre-processing *)
(* ================================================================== *)

Section ImportFacts.
Import Expressions Parser.

Variable fileSystem : string → option string.

#[local] Abbreviation scan := (Parser.scan fileSystem).
#[local] Abbreviation parseImport := (Parser.parseImport fileSystem).
#[local] Abbreviation preprocessImports := (Parser.preprocessImports fileSystem).

(** Once an import has been seen the flag stays set. *)
Lemma scan_importing fuel :
  ∀ tokenIndex s importing s',
    scan fuel tokenIndex true s = Some (Done importing s') → importing = true.
Proof.
  induction fuel as [|fuel IH]; intros idx s b s'; simpl; [done|].
  destruct (tokenStream s !! idx) as [t|]; [|by intros [= <- _]].
  case_decide; [|by apply IH].
  destruct (parseImport idx s); [by apply IH|done..].
Qed.

(** A pass that ends with the flag unset has changed nothing and has
    seen no import from where it started. *)
Lemma scan_clean fuel :
  ∀ tokenIndex s s',
    scan fuel tokenIndex false s = Some (Done false s') →
    s' = s
    ∧ ∀ j t, (tokenIndex ≤ j)%nat → tokenStream s !! j = Some t → ¬ isImport t.
Proof.
  induction fuel as [|fuel IH]; intros idx s s'; simpl; [done|].
  destruct (tokenStream s !! idx) as [t|] eqn:Ht.
  - case_decide as Himport.
    + destruct (parseImport idx s) as [new s1| |]; [|done..].
      intros H. by apply scan_importing in H.
    + intros H. apply IH in H as [-> H]. split; [done|].
      intros j t' Hj Hj'. destruct (decide (j = idx)) as [->|Hne].
      * rewrite Ht in Hj'. by injection Hj' as <-.
      * apply (H j); [lia|done].
  - intros [= <-]. split; [done|]. intros j t Hj Hj'.
    apply lookup_ge_None in Ht. apply lookup_lt_Some in Hj'. lia.
Qed.

(** [parseImport] is called on a token of the stream: its [erase] calls
    stay inside the stream, and all it throws is what [at] throws. *)
Lemma parseImport_defined tokenIndex s t :
  tokenStream s !! tokenIndex = Some t →
  match parseImport tokenIndex s with
  | Done _ _ => True
  | Throw e _ => e = out_of_range
  | Undefined => False
  end.
Proof.
  intros Ht. unfold Parser.parseImport. rewrite (drop_S _ _ _ Ht).
  destruct (drop (S tokenIndex) (tokenStream s)) as [|fileName rest]; [done|].
  destruct (pathSegments (text fileName) rest) as [[name rest']|]; [|done].
  case_decide; [done|]. by destruct (Lexer.makeTokenStream _ _).
Qed.

Lemma scan_defined fuel :
  ∀ tokenIndex importing s r,
    scan fuel tokenIndex importing s = Some r →
    match r with
    | Done _ _ => True
    | Throw e _ => e = out_of_range
    | Undefined => False
    end.
Proof.
  induction fuel as [|fuel IH]; intros idx b s r; simpl; [done|].
  destruct (tokenStream s !! idx) as [t|] eqn:Ht; [|by intros [= <-]].
  case_decide; [|by apply IH].
  pose proof (parseImport_defined _ _ _ Ht) as Hdefined.
  destruct (parseImport idx s); [by apply IH|by intros [= <-]|done].
Qed.

(** However the loop ends, it ends without an import in the stream or
    with the exception of [at]. *)
Lemma preprocessImports_clean fuel :
  ∀ s r, preprocessImports fuel s = Some r → importsGoneOrOutOfRange r.
Proof.
  induction fuel as [|fuel IH]; intros s r; [done|].
  cbn [Parser.preprocessImports].
  destruct (scan (S fuel) 0 false s) as [[[] s1|e s1|]|] eqn:Hscan; try done.
  - apply IH.
  - intros [= <-]. apply scan_clean in Hscan as [-> H].
    apply Forall_lookup. intros j t Hj. apply (H j); [lia|done].
  - intros [= <-]. by apply scan_defined in Hscan.
  - by apply scan_defined in Hscan.
Qed.

End ImportFacts.

Section ImportTermination.
Import Expressions Parser.

Variable fileSystem : string → option string.

#[local] Abbreviation scan := (Parser.scan fileSystem).
#[local] Abbreviation parseImport := (Parser.parseImport fileSystem).
#[local] Abbreviation preprocessImports := (Parser.preprocessImports fileSystem).

Lemma importCount_app xs ys :
  importCount (xs ++ ys) = (importCount xs + importCount ys)%nat.
Proof. unfold importCount. by rewrite filter_app, length_app. Qed.

Lemma importCount_cons t ts :
  importCount (t :: ts)
  = ((if decide (isImport t) then 1 else 0) + importCount ts)%nat.
Proof. unfold importCount. rewrite filter_cons. by case_decide. Qed.

Lemma importCount_drop k ts : (importCount (drop k ts) ≤ importCount ts)%nat.
Proof.
  rewrite <- (take_drop k ts) at 2. rewrite importCount_app. lia.
Qed.

Lemma importCount_clean ts :
  Forall (λ t, ¬ isImport t) ts → importCount ts = 0%nat.
Proof.
  induction 1 as [|t ts Ht _ IH]; [done|].
  rewrite importCount_cons, IH. by case_decide.
Qed.

(** The path loop only erases tokens. *)
Lemma pathSegments_suffix n :
  ∀ rest sourceFileName sourceFileName' rest',
    (length rest ≤ n)%nat →
    pathSegments sourceFileName rest = Some (sourceFileName', rest') →
    ∃ k, rest' = drop k rest.
Proof.
  induction n as [|n IH]; intros rest name name' rest' Hlen H.
  - destruct rest; [done|simpl in Hlen; lia].
  - destruct rest as [|t rest1]; [done|]. simpl in H. case_decide.
    + destruct rest1 as [|segment rest2]; [done|].
      apply IH in H as [k ->]; [|simpl in Hlen; lia]. by exists (S (S k)).
    + injection H as _ <-. by exists 0%nat.
Qed.

(** The stream after a directive has been replaced by the tokens of its
    file: the tokens before the directive, the new ones, and some of the
    tokens that followed it. *)
Lemma parseImport_Done tokenIndex s t newStream s' :
  tokenStream s !! tokenIndex = Some t →
  parseImport tokenIndex s = Done newStream s' →
  ∃ rest',
    tokenStream (insertTokens tokenIndex newStream s')
    = take tokenIndex (tokenStream s) ++ newStream ++ rest'
    ∧ (importCount rest' ≤ importCount (drop (S tokenIndex) (tokenStream s)))%nat.
Proof.
  intros Ht. unfold Parser.parseImport. rewrite (drop_S _ _ _ Ht).
  destruct (drop (S tokenIndex) (tokenStream s)) as [|fileName rest]; [done|].
  destruct (pathSegments (text fileName) rest) as [[name rest']|] eqn:Hpath;
    [|done].
  destruct (pathSegments_suffix _ _ _ _ _ (Nat.le_refl _) Hpath) as [k ->].
  intros H. exists (drop k rest).
  assert (length (take tokenIndex (tokenStream s)) = tokenIndex) as Hlen.
  { apply length_take_le. apply lookup_lt_Some in Ht. lia. }
  assert (tokenStream s' = take tokenIndex (tokenStream s) ++ drop k rest)
    as Hs'.
  { case_decide; [by injection H as _ <-|].
    destruct (Lexer.makeTokenStream _ _). by injection H as _ <-. }
  split; [|rewrite importCount_cons; pose proof (importCount_drop k rest); lia].
  unfold insertTokens. cbn [tokenStream]. rewrite Hs'.
  by rewrite take_app_length', drop_app_length'.
Qed.

(** The stream after a directive has been replaced, in full: the name
    of the file comes from the tokens after the directive, and the new
    tokens are those of the file. *)
Lemma parseImport_directive tokenIndex s t newStream s' :
  tokenStream s !! tokenIndex = Some t →
  parseImport tokenIndex s = Done newStream s' →
  ∃ fileName rest path k,
    drop (S tokenIndex) (tokenStream s) = fileName :: rest
    ∧ pathSegments (text fileName) rest = Some (path, drop k rest)
    ∧ tokenStream (insertTokens tokenIndex newStream s')
      = take tokenIndex (tokenStream s) ++ newStream ++ drop k rest
    ∧ (newStream = []
       ∨ ∃ stream,
           fileSystem (path ++ ".bnt")%string = Some stream
           ∧ newStream
             = (Lexer.makeTokenStream
                  (if decide (back stream = Some ";"%char) then stream
                   else (stream ++ ";")%string)
                  (inQuotes s)).1).
Proof.
  intros Ht. unfold Parser.parseImport. rewrite (drop_S _ _ _ Ht).
  destruct (drop (S tokenIndex) (tokenStream s)) as [|fileName rest]; [done|].
  destruct (pathSegments (text fileName) rest) as [[path rest']|] eqn:Hpath;
    [|done].
  destruct (pathSegments_suffix _ _ _ _ _ (Nat.le_refl _) Hpath) as [k ->].
  intros H. exists fileName, rest, path, k.
  assert (length (take tokenIndex (tokenStream s)) = tokenIndex) as Hlen.
  { apply length_take_le. apply lookup_lt_Some in Ht. lia. }
  assert (tokenStream s' = take tokenIndex (tokenStream s) ++ drop k rest)
    as Hs'.
  { case_decide; [by injection H as _ <-|].
    destruct (Lexer.makeTokenStream _ _). by injection H as _ <-. }
  split_and!; [done|done| |].
  - unfold insertTokens. cbn [tokenStream]. rewrite Hs'.
    by rewrite take_app_length', drop_app_length'.
  - case_decide as Hempty; [injection H as <- _; by left|].
    right. exists (Lexer.readFile fileSystem (path ++ ".bnt")).
    split.
    + unfold Lexer.readFile in *.
      destruct (_ || _); [done|].
      by destruct (fileSystem (path ++ ".bnt")).
    + destruct (Lexer.makeTokenStream _ _). by injection H as <- _.
Qed.

Section Decreasing.
Variable measure : Parser.State → nat.
Hypothesis decrease : importsDecrease measure fileSystem.

(** Every pass ends, and one that has replaced a directive leaves a
    smaller state. *)
Lemma scan_terminates n :
  ∀ m tokenIndex s importing,
    (measure s ≤ n)%nat →
    (length (tokenStream s) - tokenIndex ≤ m)%nat →
    ∃ N r,
      (∀ fuel, (N ≤ fuel)%nat → scan fuel tokenIndex importing s = Some r)
      ∧ ∀ b s', r = Done b s' →
          (b = importing ∧ s' = s)
          ∨ (b = true ∧ (measure s' < measure s)%nat).
Proof using decrease.
  induction n as [n IHn] using lt_wf_ind.
  induction m as [|m IHm]; intros idx s importing Hn Hm.
  { exists 1%nat, (Done importing s). split.
    - intros [|fuel] Hfuel; [lia|]. simpl.
      by rewrite (lookup_ge_None_2 (tokenStream s) idx) by lia.
    - intros b s' [= <- <-]. by left. }
  destruct (tokenStream s !! idx) as [t|] eqn:Ht; cycle 1.
  { exists 1%nat, (Done importing s). split.
    - intros [|fuel] Hfuel; [lia|]. simpl. by rewrite Ht.
    - intros b s' [= <- <-]. by left. }
  pose proof (lookup_lt_Some _ _ _ Ht) as Hidx.
  destruct (decide (isImport t)) as [Himport|Hother].
  - destruct (parseImport idx s) as [new s1|e s1|] eqn:Hparse.
    + pose proof (decrease idx s t new s1 Ht Himport Hparse) as Hless.
      destruct (IHn (measure (insertTokens idx new s1)) ltac:(lia)
                    (length (tokenStream (insertTokens idx new s1)))
                    (S idx) (insertTokens idx new s1) true)
        as (N & r & Hrun & Hr); [lia..|].
      exists (S N), r. split.
      * intros [|fuel] Hfuel; [lia|]. simpl. rewrite Ht.
        rewrite decide_True by done. rewrite Hparse. apply Hrun. lia.
      * intros b s' Hb. right.
        destruct (Hr b s' Hb) as [[-> ->]|[-> ?]]; split; (done || lia).
    + exists 1%nat, (Throw e s1). split; [|done].
      intros [|fuel] Hfuel; [lia|]. simpl. rewrite Ht.
      rewrite decide_True by done. by rewrite Hparse.
    + exists 1%nat, Undefined. split; [|done].
      intros [|fuel] Hfuel; [lia|]. simpl. rewrite Ht.
      rewrite decide_True by done. by rewrite Hparse.
  - destruct (IHm (S idx) s importing) as (N & r & Hrun & Hr); [lia..|].
    exists (S N), r. split; [|done].
    intros [|fuel] Hfuel; [lia|]. simpl. rewrite Ht.
    rewrite decide_False by done. apply Hrun. lia.
Qed.

(** The loop ends, and keeps its result with more fuel. *)
Lemma preprocessImports_terminates n :
  ∀ s,
    (measure s ≤ n)%nat →
    ∃ N r, ∀ fuel, (N ≤ fuel)%nat → preprocessImports fuel s = Some r.
Proof using decrease.
  induction n as [n IH] using lt_wf_ind. intros s Hn.
  destruct (scan_terminates (measure s) (length (tokenStream s)) 0%nat s false)
    as (N & r & Hrun & Hr); [done|lia|].
  destruct r as [[] s1|e s1|].
  - destruct (Hr true s1 eq_refl) as [[? _]|[_ Hless]]; [done|].
    destruct (IH (measure s1) ltac:(lia) s1 (Nat.le_refl _))
      as (N' & r' & Hrun').
    exists (S (N `max` N')), r'. intros [|fuel] Hfuel; [lia|].
    cbn [Parser.preprocessImports]. rewrite Hrun by lia. apply Hrun'. lia.
  - exists (S N), (Done tt s1). intros [|fuel] Hfuel; [lia|].
    cbn [Parser.preprocessImports]. by rewrite Hrun by lia.
  - exists (S N), (Throw e s1). intros [|fuel] Hfuel; [lia|].
    cbn [Parser.preprocessImports]. by rewrite Hrun by lia.
  - exists (S N), Undefined. intros [|fuel] Hfuel; [lia|].
    cbn [Parser.preprocessImports]. by rewrite Hrun by lia.
Qed.
End Decreasing.

(** Files that hold no import: the number of imports in the stream is a
    measure. *)
Lemma noNestedImport_decreases :
  noNestedImport fileSystem →
  importsDecrease (λ s, importCount (tokenStream s)) fileSystem.
Proof.
  intros HnoImport idx s t new s1 Ht Himport Hparse.
  destruct (parseImport_Done _ _ _ _ _ Ht Hparse) as (rest' & Heq & Hrest).
  assert (importCount new = 0%nat) as Hnew
    by (apply importCount_clean; eapply HnoImport; done).
  rewrite Heq. rewrite <- (take_drop idx (tokenStream s)) at 2.
  rewrite (drop_S _ _ _ Ht), !importCount_app, importCount_cons.
  rewrite decide_True by done. lia.
Qed.

End ImportTermination.

Section SelfImport.
Import Expressions Parser.

#[local] Abbreviation scan := (Parser.scan selfImportingFile).
#[local] Abbreviation preprocessImports :=
  (Parser.preprocessImports selfImportingFile).

(** The program [import a;] is lexed into [import], [a] and [;]. *)
Lemma selfImport_lexed :
  Lexer.makeTokenStream "import a;" false = (tokenStream (selfImport 1), false).
Proof. reflexivity. Qed.

(** The directive brings in its own tokens again and leaves the
    semicolons that followed it. *)
Lemma parseImport_selfImport k :
  Parser.parseImport selfImportingFile 0 (selfImport (S k))
  = Done [importToken; aToken; semicolon]
         (mkState (replicate (S k) semicolon) false).
Proof. reflexivity. Qed.

(** After the directive the pass meets no other import. *)
Lemma scan_semicolons fuel :
  ∀ tokenIndex k,
    (1 ≤ tokenIndex)%nat →
    scan fuel tokenIndex true (selfImport k) = None
    ∨ scan fuel tokenIndex true (selfImport k) = Some (Done true (selfImport k)).
Proof.
  induction fuel as [|fuel IH]; intros idx k Hidx; [by left|].
  cbn [Parser.scan].
  destruct (tokenStream (selfImport k) !! idx) as [t|] eqn:Ht; [|by right].
  assert (text t ≠ "import") as Hother.
  { destruct idx as [|[|idx]]; [lia|by injection Ht as <-|].
    cbn in Ht. apply lookup_replicate in Ht as [-> _]. done. }
  rewrite decide_False by done. apply IH. lia.
Qed.

(** A pass over [import a ; ... ;] leaves the same stream with one more
    semicolon, and asks for another pass. *)
Lemma scan_selfImport fuel k :
  scan fuel 0 false (selfImport (S k)) = None
  ∨ scan fuel 0 false (selfImport (S k))
    = Some (Done true (selfImport (S (S k)))).
Proof.
  destruct fuel as [|fuel]; [by left|].
  change (scan (S fuel) 0 false (selfImport (S k)))
    with (scan fuel 1 true (selfImport (S (S k)))).
  apply scan_semicolons. lia.
Qed.

(** The loop never returns on a file that imports itself. *)
Lemma preprocessImports_selfImport fuel :
  ∀ k, preprocessImports fuel (selfImport (S k)) = None.
Proof.
  induction fuel as [|fuel IH]; intros k; [done|].
  cbn [Parser.preprocessImports].
  destruct (scan_selfImport (S fuel) k) as [->| ->]; [done|]. apply IH.
Qed.

(** C9, as stated, fails: on the program [import a;] in a directory whose
    file [a.bnt] holds [import a], the import pre-processing loop returns
    for no number of iterations; every pass puts the directive back. *)
Lemma self_importing_file_is_imported_forever :
  ¬ importsAlwaysReachFixedPoint.
Proof.
  intros H. destruct (H selfImportingFile (selfImport 1)) as (fuel & s' & Hrun).
  by rewrite preprocessImports_selfImport in Hrun.
Qed.

End SelfImport.

Section ImportClaim.
Import Expressions Parser.

(** A text that has been read is the text of a file. *)
Lemma readFile_nonempty fileSystem sourceFileName :
  Lexer.readFile fileSystem sourceFileName ≠ EmptyString →
  fileSystem sourceFileName = Some (Lexer.readFile fileSystem sourceFileName).
Proof.
  unfold Lexer.readFile. destruct (_ || _); [done|].
  by destruct (fileSystem sourceFileName).
Qed.

(** The tokens a directive brings in are those of a file of the working
    directory, closed by a semicolon. *)
Lemma parseImport_newStream fileSystem tokenIndex s newStream s' :
  parseImport fileSystem tokenIndex s = Done newStream s' →
  newStream = []
  ∨ ∃ sourceFileName stream,
      fileSystem sourceFileName = Some stream
      ∧ newStream
        = (Lexer.makeTokenStream
             (if decide (back stream = Some ";"%char) then stream
              else (stream ++ ";")%string)
             (inQuotes s)).1.
Proof.
  unfold parseImport.
  destruct (drop tokenIndex (tokenStream s)) as [|t [|fileName rest]]; [done..|].
  destruct (pathSegments (text fileName) rest) as [[name rest']|]; [|done].
  case_decide as Hempty; [intros [= <- _]; by left|].
  intros H. right.
  exists (name ++ ".bnt")%string, (Lexer.readFile fileSystem (name ++ ".bnt")).
  split; [by apply readFile_nonempty|].
  destruct (Lexer.makeTokenStream _ _). by injection H as <- _.
Qed.

(** A directive cut short by the end of the stream: [at] throws. *)
Lemma truncated_import_throws fileSystem :
  preprocessImports fileSystem 1 (mkState [importToken; aToken] false)
  = Some (Throw out_of_range (mkState [] false)).
Proof. reflexivity. Qed.

(** The program [import lib; y;] becomes [x; y;]. *)
Lemma library_is_imported :
  match preprocessImports libraryFile 7 importsLibrary with
  | Some (Done _ s') => map text (tokenStream s')
  | _ => []
  end = ["x"; ";"; ";"; "y"; ";"].
Proof. vm_compute. reflexivity. Qed.

Lemma string_app_nil_r (a : string) : (a ++ EmptyString)%string = a.
Proof.
  induction a as [|c a IH]; [done|].
  change (String c (a ++ EmptyString)%string = String c a). by rewrite IH.
Qed.

Lemma string_app_assoc (a b c : string) :
  ((a ++ b) ++ c)%string = (a ++ b ++ c)%string.
Proof.
  induction a as [|x a IH]; [done|].
  change (String x ((a ++ b) ++ c)%string = String x (a ++ b ++ c)%string).
  by rewrite IH.
Qed.

Lemma string_length_app (a b : string) :
  String.length (a ++ b) = (String.length a + String.length b)%nat.
Proof.
  induction a as [|c a IH]; [done|].
  change (String c a ++ b)%string with (String c (a ++ b)%string).
  simpl. by rewrite IH.
Qed.

Lemma string_app_cancel_r (a b c : string) :
  (a ++ c)%string = (b ++ c)%string → a = b.
Proof.
  revert b. induction a as [|x a IH]; intros [|y b] H; [done| | |].
  - apply (f_equal String.length) in H.
    change (String y b ++ c)%string with (String y (b ++ c)%string) in H.
    simpl in H. rewrite !string_length_app in H. simpl in H. lia.
  - apply (f_equal String.length) in H.
    change (String x a ++ c)%string with (String x (a ++ c)%string) in H.
    simpl in H. rewrite !string_length_app in H. simpl in H. lia.
  - change (String x (a ++ c)%string = String y (b ++ c)%string) in H.
    injection H as -> H. by rewrite (IH b H).
Qed.

(** The path starts with the name after [import]; what the loop adds
    starts with a [/]. *)
Lemma pathSegments_name n :
  ∀ rest sourceFileName path rest',
    (length rest ≤ n)%nat →
    pathSegments sourceFileName rest = Some (path, rest') →
    path = sourceFileName
    ∨ ∃ tail, path = (sourceFileName ++ "/" ++ tail)%string.
Proof.
  induction n as [|n IH]; intros rest name path rest' Hlen H.
  - destruct rest; [done|simpl in Hlen; lia].
  - destruct rest as [|t rest1]; [done|]. simpl in H. case_decide as Hslash.
    + destruct rest1 as [|segment rest2]; [done|]. rewrite Hslash in H.
      apply IH in H as [->|[tail ->]]; [| |simpl in Hlen; lia]; right.
      * by exists (text segment).
      * exists (text segment ++ "/" ++ tail)%string.
        by rewrite !string_app_assoc.
    + injection H as <- _. by left.
Qed.

(** A path of one character is the name after [import]. *)
Lemma path_of_one_character c sourceFileName :
  String c EmptyString = sourceFileName
  ∨ (∃ tail, String c EmptyString = (sourceFileName ++ "/" ++ tail)%string) →
  c ≠ "/"%char →
  sourceFileName = String c EmptyString.
Proof.
  intros [<-|[tail H]] Hc; [done|].
  destruct sourceFileName as [|x [|y name]].
  - change (String c EmptyString = String "/" tail) in H. by injection H.
  - change (String c EmptyString = String x (String "/" tail)) in H.
    by injection H.
  - change (String c EmptyString
            = String x (String y (name ++ "/" ++ tail)%string)) in H.
    by injection H.
Qed.

Lemma chainMeasure_drop k (ts : list Token) :
  (sum_list_with (λ t, chainWeight (text t)) (drop k ts)
   ≤ sum_list_with (λ t, chainWeight (text t)) ts)%nat.
Proof.
  rewrite <- (take_drop k ts) at 2. rewrite sum_list_with_app. lia.
Qed.

(** In the directory of the chain every directive brings in less than
    it takes out. *)
Lemma chainFiles_decrease : importsDecrease chainMeasure chainFiles.
Proof.
  intros idx s t new s1 Ht Himport Hparse.
  destruct (parseImport_directive chainFiles _ _ _ _ _ Ht Hparse)
    as (fileName & rest & path & k & Hdrop & Hpath & Heq & Hnew).
  unfold chainMeasure. rewrite Heq.
  rewrite <- (take_drop idx (tokenStream s)) at 2.
  rewrite (drop_S _ _ _ Ht), Hdrop, !sum_list_with_app.
  cbn [sum_list_with].
  pose proof (chainMeasure_drop k rest) as Hrest.
  assert (chainWeight (text t) = 1%nat) as ->.
  { unfold isImport in Himport. by rewrite Himport. }
  destruct Hnew as [->|(stream & Hfile & ->)]; [simpl; lia|].
  pose proof (pathSegments_name _ _ _ _ _ (Nat.le_refl _) Hpath) as Hname.
  unfold chainFiles in Hfile.
  destruct (decide ((path ++ ".bnt")%string = "a.bnt")) as [Ha|_];
    [|destruct (decide ((path ++ ".bnt")%string = "b.bnt")) as [Hb|_];
      [|done]].
  - injection Hfile as <-.
    assert (path = "a") as -> by by apply (string_app_cancel_r _ _ ".bnt").
    rewrite (path_of_one_character _ _ Hname) by done.
    assert (sum_list_with (λ t, chainWeight (text t))
              (Lexer.makeTokenStream
                 (if decide (back "import b; p" = Some ";"%char)
                  then "import b; p" else ("import b; p" ++ ";")%string)
                 (inQuotes s)).1 ≤ 3)%nat as Hfile
      by (destruct (inQuotes s); vm_compute; lia).
    change (chainWeight "a") with 4%nat. lia.
  - injection Hfile as <-.
    assert (path = "b") as -> by by apply (string_app_cancel_r _ _ ".bnt").
    rewrite (path_of_one_character _ _ Hname) by done.
    assert (sum_list_with (λ t, chainWeight (text t))
              (Lexer.makeTokenStream
                 (if decide (back "q;" = Some ";"%char)
                  then "q;" else ("q;" ++ ";")%string)
                 (inQuotes s)).1 ≤ 0)%nat as Hfile
      by (destruct (inQuotes s); vm_compute; lia).
    change (chainWeight "b") with 2%nat. lia.
Qed.

(** The program [import a; y;] in the directory of the chain: the
    tokens of [b.bnt] take the place of the directive in those of
    [a.bnt]. *)
Lemma chain_is_imported :
  match preprocessImports chainFiles 20 importsChain with
  | Some (Done _ s') => map text (tokenStream s')
  | _ => []
  end = ["q"; ";"; ";"; "p"; ";"; ";"; "y"; ";"].
Proof. vm_compute. reflexivity. Qed.

(** C9 (amended): however the import pre-processing loop ends, it has
    either returned a token stream in which no token has the text
    [import], or thrown the [std::out_of_range] of a directive cut short
    by the end of the stream; and it does end, on every token stream, when
    the imports are well-founded: some measure of the parser state gets
    smaller whenever a directive is replaced by the tokens of its file.
    The number of [import] tokens is such a measure when no file holds
    one; for files that import other files a measure that weighs the
    file names does, as for the chain of [chainFiles]. *)
Theorem imports_end_clean_when_well_founded fileSystem :
  (∀ fuel s r,
      preprocessImports fileSystem fuel s = Some r → importsGoneOrOutOfRange r)
  ∧ (∀ measure, importsDecrease measure fileSystem →
     ∀ s, ∃ N r,
       (∀ fuel, (N ≤ fuel)%nat → preprocessImports fileSystem fuel s = Some r)
       ∧ importsGoneOrOutOfRange r).
Proof.
  split; [intros fuel; apply preprocessImports_clean|].
  intros measure Hdecrease s.
  destruct (preprocessImports_terminates fileSystem measure Hdecrease _ s
              (Nat.le_refl _)) as (N & r & Hrun).
  exists N, r. split; [done|].
  by apply (preprocessImports_clean fileSystem N s), Hrun.
Qed.

Lemma imports_end_clean_when_well_founded_witness :
  importsDecrease chainMeasure chainFiles
  ∧ ∃ N r,
      (∀ fuel, (N ≤ fuel)%nat →
               preprocessImports chainFiles fuel importsChain = Some r)
      ∧ importsGoneOrOutOfRange r.
Proof.
  split; [exact chainFiles_decrease|].
  apply (proj2 (imports_end_clean_when_well_founded chainFiles) chainMeasure),
    chainFiles_decrease.
Defined.

End ImportClaim.

(* ================================================================== *)
(** * The list built-ins on well-typed arguments *)
(* ================================================================== *)

Section ListBuiltins.
Import Types Expressions Values BuiltinImplementations.

Variable token : Token.
Variable functionValue : FunctionValueData.
Variable environment : Environment.

(** An element whose type is the element type of the list passes the
    check, and the check writes nothing. *)
Lemma compareElementType_same (s : State) e l v d lt L :
  store s !! e = Some v →
  store s !! l = Some (ListValue (ListType d (Some lt)) L) →
  type v = lt → concrete lt = true →
  compareElementType e l s = Done true s.
Proof.
  intros He Hl Hv Hc. unfold compareElementType, bind.
  rewrite (load_Done _ _ _ He), (asList_Done _ _ _ _ Hl). cbn -[writeType].
  rewrite Hv, (compare_concrete_refl _ Hc). cbn -[writeType].
  rewrite <- Hv at 1. rewrite (writeType_same _ _ _ He).
  pose proof (writeType_same s l _ Hl) as Hw. cbn [type] in Hw.
  by rewrite Hw.
Qed.

(** Two lists of the same type pass the check of [combine] and
    [append], and the check writes nothing. *)
Lemma compareListTypes_same (s : State) l1 l2 t L1 L2 :
  store s !! l1 = Some (ListValue t L1) →
  store s !! l2 = Some (ListValue t L2) →
  concrete t = true →
  compareListTypes l1 l2 s = Done true s.
Proof.
  intros H1 H2 Hc. unfold compareListTypes, bind.
  rewrite (asList_Done _ _ _ _ H1), (asList_Done _ _ _ _ H2).
  cbn -[writeType]. rewrite (compare_concrete_refl _ Hc). cbn -[writeType].
  pose proof (writeType_same s l1 _ H1) as Hw1. cbn [type] in Hw1.
  pose proof (writeType_same s l2 _ H2) as Hw2. cbn [type] in Hw2.
  by rewrite Hw1, Hw2.
Qed.

(** [pushFront] and [pushBack] on a list [L] and an element of its
    element type return a new list of the same type that holds the
    element before, respectively after, the elements of [L]; nothing else
    changes. *)
Theorem pushes_add_at_the_ends (s : State) l e v lt L :
  argument 0 functionValue environment l →
  argument 1 functionValue environment e →
  store s !! l = Some (ListValue (mkList lt) L) →
  store s !! e = Some v → type v = lt → concrete lt = true →
  pushFrontBuiltin token functionValue environment s
  = Done (length (store s))
         (setStore (λ st, st ++ [ListValue (mkList lt) (e :: L)]) s)
  ∧ pushBackBuiltin token functionValue environment s
    = Done (length (store s))
           (setStore (λ st, st ++ [ListValue (mkList lt) (L ++ [e])]) s).
Proof.
  intros Hl He Hlist Hv Ht Hc.
  pose proof (compareElementType_same s e l v LIST lt L Hv Hlist Ht Hc) as Hcmp.
  split.
  - unfold pushFrontBuiltin, bind.
    rewrite (getArgumentValue_Done _ _ _ _ _ Hl),
      (getArgumentValue_Done _ _ _ _ _ He), Hcmp. cbn [negb].
    rewrite (asList_Done _ _ _ _ Hlist). cbn [fst snd].
    unfold vectorInsert. rewrite decide_True by lia. cbn [orUndefined ret].
    by rewrite (makeListType_new _ _ _ _ _ _ Hlist).
  - unfold pushBackBuiltin, bind.
    rewrite (getArgumentValue_Done _ _ _ _ _ Hl),
      (getArgumentValue_Done _ _ _ _ _ He), Hcmp. cbn [negb].
    rewrite (asList_Done _ _ _ _ Hlist). cbn [fst snd].
    unfold vectorInsert. rewrite decide_True by done. cbn [orUndefined ret].
    rewrite (makeListType_new _ _ _ _ _ _ Hlist).
    by rewrite firstn_all, drop_all.
Qed.

(** [head] returns a new list with every element of [L] but the last,
    [tail] a new list with every element but the first; on the empty list
    both report an error and return the null object. *)
Theorem head_drops_the_last_and_tail_the_first (s : State) l d lt L :
  argument 0 functionValue environment l →
  store s !! l = Some (ListValue (ListType d lt) L) →
  headBuiltin token functionValue environment s
  = (if decide (L = []) then
       Done nullValue
            (reported token ("Error: Cannot get sublist from empty list: "
                             ++ currentLineText (position token)) s)
     else Done (length (store s))
               (setStore (λ st, st ++ [ListValue (ListType LIST lt)
                                         (removelast L)]) s))
  ∧ tailBuiltin token functionValue environment s
    = (if decide (L = []) then
         Done nullValue
              (reported token ("Error: Cannot get sublist from empty list: "
                               ++ currentLineText (position token)) s)
       else Done (length (store s))
                 (setStore (λ st, st ++ [ListValue (ListType LIST lt)
                                           (drop 1 L)]) s)).
Proof.
  intros Hl Hlist. split.
  - unfold headBuiltin, bind.
    rewrite (getArgumentValue_Done _ _ _ _ _ Hl), (asList_Done _ _ _ _ Hlist).
    cbn [fst snd]. case_bool_decide; case_decide; try done.
    destruct L as [|x L']; [done|]. cbn [vectorPopBack orUndefined ret].
    by rewrite (makeListType_new _ _ _ _ _ _ Hlist).
  - unfold tailBuiltin, bind.
    rewrite (getArgumentValue_Done _ _ _ _ _ Hl), (asList_Done _ _ _ _ Hlist).
    cbn [fst snd]. case_bool_decide; case_decide; try done.
    destruct L as [|x L']; [done|]. unfold vectorErase.
    rewrite decide_True by (simpl; lia). cbn [orUndefined ret].
    by rewrite (makeListType_new _ _ _ _ _ _ Hlist).
Qed.

(** [front] and [back] return the first and the last element of [L]
    themselves, not copies, and change nothing; on the empty list both
    report an error and return the null object. *)
Theorem front_and_back_return_the_end_elements (s : State) l t L :
  argument 0 functionValue environment l →
  store s !! l = Some (ListValue t L) →
  frontBuiltin token functionValue environment s
  = match head L with
    | Some x => Done x s
    | None => Done nullValue (reported token (emptyElement token) s)
    end
  ∧ backBuiltin token functionValue environment s
    = match last L with
      | Some x => Done x s
      | None => Done nullValue (reported token (emptyElement token) s)
      end.
Proof.
  intros Hl Hlist. split.
  - unfold frontBuiltin, bind.
    rewrite (getArgumentValue_Done _ _ _ _ _ Hl), (asList_Done _ _ _ _ Hlist).
    by destruct L.
  - unfold backBuiltin, bind.
    rewrite (getArgumentValue_Done _ _ _ _ _ Hl), (asList_Done _ _ _ _ Hlist).
    cbn [fst snd]. rewrite last_lookup.
    destruct L as [|x L']; [done|]. case_bool_decide; [done|].
    replace (length (x :: L') - 1)%nat with (pred (length (x :: L'))) by lia.
    by destruct (lookup_lt_is_Some_2 (x :: L') (pred (length (x :: L')))
                   ltac:(simpl; lia)) as [y ->].
Qed.

(** The index an [int] becomes as [unsigned int], against the length of
    a list. *)
Lemma index_in_range z (L : list ValuePtr) :
  INT_MIN ≤ z ≤ INT_MAX → Z.of_nat (length L) ≤ INT_MAX →
  (0 ≤ z < Z.of_nat (length L) → Z.to_nat (toUnsigned z) = Z.to_nat z)
  ∧ (¬ 0 ≤ z < Z.of_nat (length L) →
     (length L ≤ Z.to_nat (toUnsigned z))%nat)
  ∧ (z ≠ 0 → Z.to_nat (toUnsigned z) ≠ 0%nat).
Proof.
  intros Hz HL. unfold INT_MIN, INT_MAX in *. split_and!.
  - intros H. rewrite toUnsigned_nonnegative; [done|unfold INT_MAX; lia].
  - intros H. destruct (decide (z < 0)).
    + rewrite toUnsigned_negative by (unfold INT_MIN; lia). lia.
    + rewrite toUnsigned_nonnegative by (unfold INT_MAX; lia). lia.
  - intros H. destruct (decide (z < 0)).
    + rewrite toUnsigned_negative by (unfold INT_MIN; lia). lia.
    + rewrite toUnsigned_nonnegative by (unfold INT_MAX; lia). lia.
Qed.

(** [insert] on a list [L] that is not empty, an element of its element
    type and an index [z]: for [0 ≤ z < |L|] a new list with the element
    before position [z]; for any other index, [|L|] included, an error and
    the null object.  On the empty list the index is not checked: [0]
    gives the one-element list, any other index is an iterator outside
    the vector. *)
Theorem insert_puts_the_element_before_the_index (s : State)
  l e i v lt L ti z :
  argument 0 functionValue environment l →
  argument 1 functionValue environment e →
  argument 2 functionValue environment i →
  store s !! l = Some (ListValue (mkList lt) L) →
  store s !! e = Some v → type v = lt → concrete lt = true →
  store s !! i = Some (IntValue ti z) →
  INT_MIN ≤ z ≤ INT_MAX → Z.of_nat (length L) ≤ INT_MAX →
  insertBuiltin token functionValue environment s
  = if decide (L = []) then
      if decide (z = 0) then
        Done (length (store s))
             (setStore (λ st, st ++ [ListValue (mkList lt) [e]]) s)
      else Undefined
    else if decide (0 ≤ z < Z.of_nat (length L)) then
      Done (length (store s))
           (setStore (λ st, st ++ [ListValue (mkList lt)
                                     (take (Z.to_nat z) L ++ e
                                      :: drop (Z.to_nat z) L)]) s)
    else Done nullValue (reported token (outOfBounds token) s).
Proof.
  intros Hl He Hi Hlist Hv Ht Hc Hindex Hz HL.
  destruct (index_in_range z L Hz HL) as (Hin & Hout & Hne).
  unfold insertBuiltin, bind.
  rewrite (getArgumentValue_Done _ _ _ _ _ Hl),
    (getArgumentValue_Done _ _ _ _ _ He),
    (compareElementType_same s e l v LIST lt L Hv Hlist Ht Hc). cbn [negb].
  rewrite (getArgumentValue_Done _ _ _ _ _ Hi), (indexOf_Done _ _ _ _ Hindex),
    (asList_Done _ _ _ _ Hlist). cbn [fst snd].
  destruct (decide (L = [])) as [->|Hne'].
  - rewrite bool_decide_eq_true_2 by done. cbn [negb andb].
    unfold vectorInsert. destruct (decide (z = 0)) as [->|Hz0].
    + rewrite decide_True by done. cbn [orUndefined ret].
      by rewrite (makeListType_new _ _ _ _ _ _ Hlist).
    + rewrite decide_False; [done|]. specialize (Hne Hz0). simpl. lia.
  - rewrite (bool_decide_eq_false_2 (L = [])) by done. cbn [negb andb].
    destruct (decide (0 ≤ z < Z.of_nat (length L))) as [Hr|Hr].
    + rewrite (Hin Hr). rewrite bool_decide_eq_false_2 by lia.
      unfold vectorInsert. rewrite decide_True by lia. cbn [orUndefined ret].
      by rewrite (makeListType_new _ _ _ _ _ _ Hlist).
    + by rewrite bool_decide_eq_true_2 by by apply Hout.
Qed.

(** [remove] on a list [L] and an index [z]: on the empty list and for
    an index outside [0 ≤ z < |L|] an error and the null object;
    otherwise a new list without the element at [z]. *)
Theorem remove_erases_the_element_at_the_index (s : State) l i d lt L ti z :
  argument 0 functionValue environment l →
  argument 1 functionValue environment i →
  store s !! l = Some (ListValue (ListType d lt) L) →
  store s !! i = Some (IntValue ti z) →
  INT_MIN ≤ z ≤ INT_MAX → Z.of_nat (length L) ≤ INT_MAX →
  removeBuiltin token functionValue environment s
  = if decide (L = []) then
      Done nullValue
           (reported token ("Error: Cannot remove from empty list: "
                            ++ currentLineText (position token)) s)
    else if decide (0 ≤ z < Z.of_nat (length L)) then
      Done (length (store s))
           (setStore (λ st, st ++ [ListValue (ListType LIST lt)
                                     (delete (Z.to_nat z) L)]) s)
    else Done nullValue (reported token (outOfBounds token) s).
Proof.
  intros Hl Hi Hlist Hindex Hz HL.
  destruct (index_in_range z L Hz HL) as (Hin & Hout & _).
  unfold removeBuiltin, bind.
  rewrite (getArgumentValue_Done _ _ _ _ _ Hl), (asList_Done _ _ _ _ Hlist).
  cbn [fst snd]. case_bool_decide; case_decide; try done.
  rewrite (getArgumentValue_Done _ _ _ _ _ Hi), (indexOf_Done _ _ _ _ Hindex).
  destruct (decide (0 ≤ z < Z.of_nat (length L))) as [Hr|Hr].
  - rewrite (Hin Hr). rewrite bool_decide_eq_false_2 by lia.
    unfold vectorErase. rewrite decide_True by lia. cbn [orUndefined ret].
    by rewrite (makeListType_new _ _ _ _ _ _ Hlist).
  - by rewrite bool_decide_eq_true_2 by by apply Hout.
Qed.

(** [replace] on a list [L], an element of its element type and an
    index [z]: on the empty list and for an index outside
    [0 ≤ z < |L|] an error and the null object; otherwise a new list with
    the element in the place of the one at [z]. *)
Theorem replace_puts_the_element_at_the_index (s : State)
  l e i v lt L ti z :
  argument 0 functionValue environment l →
  argument 1 functionValue environment e →
  argument 2 functionValue environment i →
  store s !! l = Some (ListValue (mkList lt) L) →
  store s !! e = Some v → type v = lt → concrete lt = true →
  store s !! i = Some (IntValue ti z) →
  INT_MIN ≤ z ≤ INT_MAX → Z.of_nat (length L) ≤ INT_MAX →
  replaceBuiltin token functionValue environment s
  = if decide (L = []) then
      Done nullValue
           (reported token
              ("Error: Cannot replace with element in empty list: "
               ++ currentLineText (position token)) s)
    else if decide (0 ≤ z < Z.of_nat (length L)) then
      Done (length (store s))
           (setStore (λ st, st ++ [ListValue (mkList lt)
                                     (<[Z.to_nat z := e]> L)]) s)
    else Done nullValue (reported token (outOfBounds token) s).
Proof.
  intros Hl He Hi Hlist Hv Ht Hc Hindex Hz HL.
  destruct (index_in_range z L Hz HL) as (Hin & Hout & _).
  unfold replaceBuiltin, bind.
  rewrite (getArgumentValue_Done _ _ _ _ _ Hl), (asList_Done _ _ _ _ Hlist).
  cbn [fst snd]. case_bool_decide; case_decide; try done.
  rewrite (getArgumentValue_Done _ _ _ _ _ Hi), (indexOf_Done _ _ _ _ Hindex).
  destruct (decide (0 ≤ z < Z.of_nat (length L))) as [Hr|Hr].
  - rewrite (Hin Hr). rewrite bool_decide_eq_false_2 by lia.
    rewrite (getArgumentValue_Done _ _ _ _ _ He),
      (compareElementType_same s e l v LIST lt L Hv Hlist Ht Hc).
    cbn [negb]. rewrite decide_True by lia. cbn [ret].
    by rewrite (makeListType_new _ _ _ _ _ _ Hlist).
  - by rewrite bool_decide_eq_true_2 by by apply Hout.
Qed.

(** C5 (the code at the failing input): [insert] on an empty list does
    not look at the index.  With an index other than [0] it reaches
    [listData.insert] with an iterator past the end of the vector, which
    is undefined: no list is returned and no error is reported.  On the
    same arguments [replace] reports the empty list and returns the null
    object. *)
Theorem insert_into_an_empty_list_is_unguarded (s : State)
  l e i v lt ti z :
  argument 0 functionValue environment l →
  argument 1 functionValue environment e →
  argument 2 functionValue environment i →
  store s !! l = Some (ListValue (mkList lt) []) →
  store s !! e = Some v → type v = lt → concrete lt = true →
  store s !! i = Some (IntValue ti z) →
  INT_MIN ≤ z ≤ INT_MAX → z ≠ 0 →
  insertBuiltin token functionValue environment s = Undefined
  ∧ replaceBuiltin token functionValue environment s
    = Done nullValue
           (reported token
              ("Error: Cannot replace with element in empty list: "
               ++ currentLineText (position token)) s).
Proof.
  intros Hl He Hi Hlist Hv Ht Hc Hindex Hz Hz0.
  destruct (index_in_range z [] Hz) as (_ & _ & Hne);
    [unfold INT_MAX; simpl; lia|].
  split.
  - unfold insertBuiltin, bind.
    rewrite (getArgumentValue_Done _ _ _ _ _ Hl),
      (getArgumentValue_Done _ _ _ _ _ He),
      (compareElementType_same s e l v LIST lt [] Hv Hlist Ht Hc). cbn [negb].
    rewrite (getArgumentValue_Done _ _ _ _ _ Hi), (indexOf_Done _ _ _ _ Hindex),
      (asList_Done _ _ _ _ Hlist). cbn [fst snd].
    rewrite bool_decide_eq_true_2 by done. cbn [negb andb].
    unfold vectorInsert. rewrite decide_False; [done|].
    specialize (Hne Hz0). simpl. lia.
  - unfold replaceBuiltin, bind.
    rewrite (getArgumentValue_Done _ _ _ _ _ Hl), (asList_Done _ _ _ _ Hlist).
    cbn [fst snd]. by rewrite bool_decide_eq_true_2 by done.
Qed.

End ListBuiltins.

Section MoreListBuiltins.
Import Types Expressions Values BuiltinImplementations.

Variable token : Token.
Variable functionValue : FunctionValueData.
Variable environment : Environment.

Lemma writeListData_list (s : State) p t L listData :
  store s !! p = Some (ListValue t L) →
  writeListData p listData s
  = Done tt (setStore (λ st, <[p := ListValue t listData]> st) s).
Proof. intros H. unfold writeListData, modify, setStore. by rewrite H. Qed.

(** [combine] on two lists of the same type returns a new list with the
    elements of the first followed by those of the second, also when the
    two are one list.  [append] writes these elements into the first list
    and returns it; when the two are one list, the vector is inserted
    into itself, which is undefined. *)
Theorem combine_concatenates_and_append_writes_the_first (s : State)
  l1 l2 lt L1 L2 :
  argument 0 functionValue environment l1 →
  argument 1 functionValue environment l2 →
  store s !! l1 = Some (ListValue (mkList lt) L1) →
  store s !! l2 = Some (ListValue (mkList lt) L2) →
  concrete lt = true →
  combineBuiltin token functionValue environment s
  = Done (length (store s))
         (setStore (λ st, st ++ [ListValue (mkList lt) (L1 ++ L2)]) s)
  ∧ appendBuiltin token functionValue environment s
    = if decide (l1 = l2) then Undefined
      else Done l1 (setStore (λ st, <[l1 := ListValue (mkList lt) (L1 ++ L2)]> st)
                             s).
Proof.
  intros Ha1 Ha2 H1 H2 Hc.
  assert (concrete (mkList lt) = true) as Hc' by (simpl; by rewrite Hc).
  pose proof (compareListTypes_same s l1 l2 _ L1 L2 H1 H2 Hc') as Hcmp.
  split.
  - unfold combineBuiltin, bind.
    rewrite (getArgumentValue_Done _ _ _ _ _ Ha1),
      (getArgumentValue_Done _ _ _ _ _ Ha2), Hcmp. cbn [negb].
    rewrite (asList_Done _ _ _ _ H1), (asList_Done _ _ _ _ H2). cbn [fst snd].
    by rewrite (makeListType_new _ _ _ _ _ _ H1).
  - unfold appendBuiltin, bind.
    rewrite (getArgumentValue_Done _ _ _ _ _ Ha1),
      (getArgumentValue_Done _ _ _ _ _ Ha2), Hcmp. cbn [negb].
    rewrite (asList_Done _ _ _ _ H1), (asList_Done _ _ _ _ H2). cbn [fst snd].
    case_decide; [done|]. cbn [ret].
    by rewrite (writeListData_list _ _ _ _ _ H1).
Qed.

(** [pushFrontInPlace] and [pushBackInPlace] on a list [L] and an
    element of its element type write the element before, respectively
    after, the elements of [L] into the list itself and return it. *)
Theorem in_place_pushes_write_the_list (s : State) l e v lt L :
  argument 0 functionValue environment l →
  argument 1 functionValue environment e →
  store s !! l = Some (ListValue (mkList lt) L) →
  store s !! e = Some v → type v = lt → concrete lt = true →
  pushFrontInPlaceBuiltin token functionValue environment s
  = Done l (setStore (λ st, <[l := ListValue (mkList lt) (e :: L)]> st) s)
  ∧ pushBackInPlaceBuiltin token functionValue environment s
    = Done l (setStore (λ st, <[l := ListValue (mkList lt) (L ++ [e])]> st) s).
Proof.
  intros Hl He Hlist Hv Ht Hc.
  pose proof (compareElementType_same s e l v LIST lt L Hv Hlist Ht Hc) as Hcmp.
  split.
  - unfold pushFrontInPlaceBuiltin, bind.
    rewrite (getArgumentValue_Done _ _ _ _ _ Hl),
      (getArgumentValue_Done _ _ _ _ _ He), Hcmp. cbn [negb].
    rewrite (asList_Done _ _ _ _ Hlist). cbn [fst snd].
    unfold vectorInsert. rewrite decide_True by lia. cbn [orUndefined ret].
    by rewrite (writeListData_list _ _ _ _ _ Hlist).
  - unfold pushBackInPlaceBuiltin, bind.
    rewrite (getArgumentValue_Done _ _ _ _ _ Hl),
      (getArgumentValue_Done _ _ _ _ _ He), Hcmp. cbn [negb].
    rewrite (asList_Done _ _ _ _ Hlist). cbn [fst snd].
    unfold vectorInsert. rewrite decide_True by done. cbn [orUndefined ret].
    rewrite (writeListData_list _ _ _ _ _ Hlist).
    by rewrite firstn_all, drop_all.
Qed.

Lemma toInt_small z : INT_MIN ≤ z ≤ INT_MAX → toInt z = z.
Proof.
  unfold toInt, INT_MIN, INT_MAX. intros H.
  rewrite Z.mod_small by lia. lia.
Qed.

(** [size] returns a new integer holding the number of elements of the
    list, [isEmpty] a new boolean that is true exactly when the list has
    no element. *)
Theorem size_and_isEmpty_count_the_elements (s : State) l t L :
  argument 0 functionValue environment l →
  store s !! l = Some (ListValue t L) →
  Z.of_nat (length L) ≤ INT_MAX →
  sizeBuiltin functionValue environment s
  = Done (length (store s))
         (setStore (λ st, st ++ [IntValue mkInt (Z.of_nat (length L))]) s)
  ∧ isEmptyBuiltin functionValue environment s
    = Done (length (store s))
           (setStore (λ st, st ++ [BoolValue mkBool (bool_decide (L = []))])
                     s).
Proof.
  intros Hl Hlist HL. split.
  - unfold sizeBuiltin, bind.
    rewrite (getArgumentValue_Done _ _ _ _ _ Hl), (asList_Done _ _ _ _ Hlist).
    cbn [fst snd]. rewrite toInt_small; [done|]. unfold INT_MIN. lia.
  - unfold isEmptyBuiltin, bind.
    rewrite (getArgumentValue_Done _ _ _ _ _ Hl), (asList_Done _ _ _ _ Hlist).
    done.
Qed.

End MoreListBuiltins.

(* ================================================================== *)
(** * Conversions between characters and integers, and printing *)
(* ================================================================== *)

Section CharInt.
Import Types Expressions Values BuiltinImplementations.

Lemma asChar_Done (s : State) p t d :
  store s !! p = Some (CharValue t d) → asChar p s = Done d s.
Proof. intros H. unfold asChar, bind. by rewrite (load_Done _ _ _ H). Qed.

Lemma charToInt_range c : -128 ≤ Interpreter.charToInt c ≤ 127.
Proof.
  unfold Interpreter.charToInt. pose proof (N_ascii_bounded c).
  case_decide; lia.
Qed.

Lemma toChar_charToInt c : toChar (Interpreter.charToInt c) = c.
Proof.
  unfold toChar, Interpreter.charToInt. pose proof (N_ascii_bounded c).
  case_decide.
  - rewrite Z.mod_small by lia. by rewrite N2Z.id, ascii_N_embedding.
  - rewrite <- (Z.mod_add _ 1 256) by lia.
    rewrite Z.mod_small by lia.
    replace (Z.of_N (N_of_ascii c) - 256 + 1 * 256) with (Z.of_N (N_of_ascii c))
      by lia.
    by rewrite N2Z.id, ascii_N_embedding.
Qed.

Lemma charToInt_toChar z : -128 ≤ z ≤ 127 → Interpreter.charToInt (toChar z) = z.
Proof.
  intros Hz. unfold toChar, Interpreter.charToInt.
  pose proof (Z.mod_pos_bound z 256 ltac:(lia)).
  rewrite N_ascii_embedding by lia. rewrite Z2N.id by lia.
  destruct (decide (z < 0)).
  - rewrite <- (Z.mod_add z 1 256) by lia. rewrite Z.mod_small by lia.
    case_decide; lia.
  - rewrite Z.mod_small by lia. case_decide; lia.
Qed.

(** [intToChar] applied to the result of [charToInt] on a character
    returns a character value holding that character; [charToInt]
    applied to the result of [intToChar] on an integer from -128 to 127
    returns an integer value holding that integer. *)
Theorem char_and_int_conversions_round_trip :
  (∀ functionValue environment functionValue' environment' (s : State) p t c,
      argument 0 functionValue environment p →
      store s !! p = Some (CharValue t c) →
      ∃ q s1,
        charToIntBuiltin functionValue environment s = Done q s1
        ∧ (argument 0 functionValue' environment' q →
           ∃ r s2,
             intToCharBuiltin functionValue' environment' s1 = Done r s2
             ∧ store s2 !! r = Some (CharValue mkChar c)))
  ∧ (∀ functionValue environment functionValue' environment' (s : State)
       p t z,
        argument 0 functionValue environment p →
        store s !! p = Some (IntValue t z) →
        -128 ≤ z ≤ 127 →
        ∃ q s1,
          intToCharBuiltin functionValue environment s = Done q s1
          ∧ (argument 0 functionValue' environment' q →
             ∃ r s2,
               charToIntBuiltin functionValue' environment' s1 = Done r s2
               ∧ store s2 !! r = Some (IntValue mkInt z))).
Proof.
  split.
  - intros fv env fv' env' s p t c Hp Hc.
    eexists _, _. split.
    { unfold charToIntBuiltin, bind.
      rewrite (getArgumentValue_Done _ _ _ _ _ Hp).
      rewrite (asChar_Done _ _ _ _ Hc). reflexivity. }
    intros Hq. eexists _, _. split.
    { unfold intToCharBuiltin, bind.
      rewrite (getArgumentValue_Done _ _ _ _ _ Hq).
      erewrite asInt_Done; [reflexivity|]. apply list_lookup_middle. done. }
    rewrite toChar_charToInt. unfold setStore at 1 3. cbn [store].
    by apply list_lookup_middle.
  - intros fv env fv' env' s p t z Hp Hz Hr.
    eexists _, _. split.
    { unfold intToCharBuiltin, bind.
      rewrite (getArgumentValue_Done _ _ _ _ _ Hp), (asInt_Done _ _ _ _ Hz).
      reflexivity. }
    intros Hq. eexists _, _. split.
    { unfold charToIntBuiltin, bind.
      rewrite (getArgumentValue_Done _ _ _ _ _ Hq).
      erewrite asChar_Done; [reflexivity|]. by apply list_lookup_middle. }
    rewrite charToInt_toChar by done. unfold setStore at 1 3. cbn [store].
    by apply list_lookup_middle.
Qed.

End CharInt.

Section Printing.
Import Types Expressions Values BuiltinImplementations.

Variable token : Token.
Variable functionValue : FunctionValueData.
Variable environment : Environment.

Lemma printed_nil (s : State) : printed EmptyString s = s.
Proof. unfold printed. rewrite string_app_nil_r. by destruct s. Qed.

Lemma printed_printed a b (s : State) :
  printed b (printed a s) = printed (a ++ b) s.
Proof. unfold printed. simpl. by rewrite string_app_assoc. Qed.

Lemma cout_printed text (s : State) : cout text s = Done tt (printed text s).
Proof. done. Qed.

(** [printValue] on a value of a primitive type writes its text and
    reports nothing. *)
Lemma printValue_rendered (s : State) p v text collectionType :
  store s !! p = Some v → rendered v = Some text →
  printValue token p collectionType s = Done tt (printed text s).
Proof.
  intros Hp Hv. unfold printValue, bind. rewrite (load_Done _ _ _ Hp).
  destruct v as [t|t i|t c|t x|t b|t|t d|t d|t f|t f]; simpl in Hv; try done;
    case_decide as Ht; [|done| |done| |done| |done]; injection Hv as <-;
    cbn [type]; unfold isPrimitiveType; rewrite Ht;
    repeat case_bool_decide; try done; cbn [negb orb ret].
  - by rewrite (asInt_Done _ _ _ _ Hp).
  - by rewrite (asChar_Done _ _ _ _ Hp).
  - by rewrite (asString_Done _ _ _ _ Hp).
  - unfold asBool, bind. by rewrite (load_Done _ _ _ Hp).
Qed.

Lemma renderedAs_printed text (s : State) ps texts :
  renderedAs s ps texts → renderedAs (printed text s) ps texts.
Proof. done. Qed.

(** The loop writes the texts of the elements, separated by a comma and
    a space. *)
Lemma printTupleElements_rendered collectionType (s : State) ps texts :
  renderedAs s ps texts →
  ∀ s' : State,
    store s' = store s →
    printTupleElements token ps collectionType s'
    = Done tt (printed (String.concat ", " texts) s').
Proof.
  induction 1 as [|p text ps texts (v & Hp & Hv) Hrest IH]; intros s' Hs'.
  - simpl. by rewrite printed_nil.
  - rewrite <- Hs' in Hp. destruct Hrest as [|p' text' ps' texts' Hp' Hrest'].
    + simpl. by apply printValue_rendered with v.
    + change (printTupleElements token (p :: p' :: ps') collectionType s')
        with (bind (printValue token p collectionType)
                (λ _, bind (cout ", ")
                        (λ _, printTupleElements token (p' :: ps')
                                                 collectionType)) s').
      unfold bind at 1. rewrite (printValue_rendered _ _ _ _ _ Hp Hv).
      unfold bind at 1. rewrite cout_printed, printed_printed.
      rewrite IH by done. rewrite printed_printed.
      change (String.concat ", " (text :: text' :: texts'))
        with (text ++ ", " ++ String.concat ", " (text' :: texts'))%string.
      by rewrite string_app_assoc.
Qed.

Lemma printElements_eq ps :
  printElements token ps = printTupleElements token ps "printList".
Proof.
  induction ps as [|p [|p' ps] IH]; [done..|].
  change (printElements token (p :: p' :: ps))
    with (bind (printValue token p "printList")
               (λ _, bind (cout ", ") (λ _, printElements token (p' :: ps)))).
  by rewrite IH.
Qed.

(** [printList] on a list of values of primitive types writes their
    texts between parentheses, separated by a comma and a space, and a
    line end, and returns the null object; for the empty list it writes
    [()]. *)
Theorem printList_writes_the_elements (s : State) l t ps texts :
  argument 0 functionValue environment l →
  store s !! l = Some (ListValue t ps) →
  renderedAs s ps texts →
  printListBuiltin token functionValue environment s
  = Done nullValue
         (printed ("(" ++ String.concat ", " texts ++ ")" ++ endl) s).
Proof.
  intros Hl Hlist Hps. unfold printListBuiltin, bind.
  rewrite (getArgumentValue_Done _ _ _ _ _ Hl), (asList_Done _ _ _ _ Hlist).
  rewrite cout_printed. cbn [fst snd]. case_bool_decide as Hempty.
  - subst ps. inversion Hps; subst. rewrite cout_printed, printed_printed.
    done.
  - rewrite printElements_eq.
    rewrite (printTupleElements_rendered _ s ps texts Hps) by done.
    by rewrite cout_printed, !printed_printed.
Qed.

(** [print2Tuple], [print3Tuple] and [print4Tuple] write a tuple of
    values of primitive types the same way, whatever its size; on the
    empty tuple they write the opening parenthesis and throw
    [std::out_of_range]. *)
Theorem printTuple_writes_the_elements (s : State) p t ps texts :
  argument 0 functionValue environment p →
  store s !! p = Some (TupleValue t ps) →
  renderedAs s ps texts →
  let result :=
    if decide (ps = []) then Throw out_of_range (printed "(" s)
    else Done nullValue
              (printed ("(" ++ String.concat ", " texts ++ ")" ++ endl) s) in
  print2TupleBuiltin token functionValue environment s = result
  ∧ print3TupleBuiltin token functionValue environment s = result
  ∧ print4TupleBuiltin token functionValue environment s = result.
Proof.
  intros Hp Htuple Hps result.
  assert (∀ collectionType,
             printTuple token ps collectionType s
             = if decide (ps = []) then Throw out_of_range (printed "(" s)
               else Done tt (printed ("(" ++ String.concat ", " texts
                                      ++ ")" ++ endl) s)) as Hprint.
  { intros collectionType. unfold printTuple, bind. rewrite cout_printed.
    case_bool_decide; case_decide; try done.
    rewrite (printTupleElements_rendered _ s ps texts Hps) by done.
    by rewrite cout_printed, !printed_printed. }
  assert (asTuple p s = Done (t, ps) s) as Has.
  { unfold asTuple, bind. by rewrite (load_Done _ _ _ Htuple). }
  unfold print2TupleBuiltin, print3TupleBuiltin, print4TupleBuiltin, bind.
  rewrite (getArgumentValue_Done _ _ _ _ _ Hp), Has. cbn [fst snd].
  rewrite !Hprint. unfold result. by case_decide.
Qed.

End Printing.

Section BuiltinWitnesses.
Import Types Expressions Values BuiltinImplementations.

#[local] Abbreviation listElement :=
  ({["list" := 5%nat; "element" := 6%nat]} : Environment).
#[local] Abbreviation listOnly := ({["list" := 5%nat]} : Environment).

Lemma pushes_add_at_the_ends_witness :
  pushFrontBuiltin callToken (builtinFunction ["list"; "element"] PUSHFRONT)
                   listElement xsState
  = Done 7%nat (setStore (λ st, st ++ [ListValue (mkList mkInt)
                                         [6; 2; 3; 4]%nat]) xsState)
  ∧ pushBackBuiltin callToken (builtinFunction ["list"; "element"] PUSHFRONT)
                    listElement xsState
    = Done 7%nat (setStore (λ st, st ++ [ListValue (mkList mkInt)
                                           [2; 3; 4; 6]%nat]) xsState).
Proof.
  apply (pushes_add_at_the_ends callToken
           (builtinFunction ["list"; "element"] PUSHFRONT) listElement xsState
           5%nat 6%nat (IntValue mkInt 4) mkInt [2; 3; 4]%nat);
    try reflexivity; eexists; split; reflexivity.
Defined.

Lemma head_drops_the_last_and_tail_the_first_witness :
  headBuiltin callToken (builtinFunction ["list"] HEAD) listOnly xsState
  = Done 7%nat (setStore (λ st, st ++ [ListValue (mkList mkInt) [2; 3]%nat])
                         xsState)
  ∧ tailBuiltin callToken (builtinFunction ["list"] HEAD) listOnly xsState
    = Done 7%nat (setStore (λ st, st ++ [ListValue (mkList mkInt) [3; 4]%nat])
                           xsState).
Proof.
  apply (head_drops_the_last_and_tail_the_first callToken
           (builtinFunction ["list"] HEAD) listOnly xsState 5%nat LIST
           (Some mkInt) [2; 3; 4]%nat);
    try reflexivity; eexists; split; reflexivity.
Defined.

Lemma front_and_back_return_the_end_elements_witness :
  frontBuiltin callToken (builtinFunction ["list"] FRONT) listOnly xsState
  = Done 2%nat xsState
  ∧ backBuiltin callToken (builtinFunction ["list"] FRONT) listOnly xsState
    = Done 4%nat xsState.
Proof.
  apply (front_and_back_return_the_end_elements callToken
           (builtinFunction ["list"] FRONT) listOnly xsState 5%nat
           (mkList mkInt) [2; 3; 4]%nat);
    try reflexivity; eexists; split; reflexivity.
Defined.

Lemma insert_puts_the_element_before_the_index_witness :
  insertBuiltin callToken (insertFunction INSERT) insertArguments xsState
  = Done 7%nat (setStore (λ st, st ++ [ListValue (mkList mkInt)
                                         [2; 6; 3; 4]%nat]) xsState).
Proof.
  apply (insert_puts_the_element_before_the_index callToken
           (insertFunction INSERT) insertArguments xsState 5%nat 6%nat 2%nat
           (IntValue mkInt 4) mkInt [2; 3; 4]%nat mkInt 1);
    try reflexivity; try (eexists; split; reflexivity);
    unfold INT_MIN, INT_MAX; simpl; lia.
Defined.

Lemma insert_into_an_empty_list_is_unguarded_witness :
  insertBuiltin callToken (insertFunction INSERT) emptyListArguments
                emptyListState
  = Undefined
  ∧ replaceBuiltin callToken (insertFunction REPLACE) emptyListArguments
                   emptyListState
    = Done nullValue
           (reported callToken
              ("Error: Cannot replace with element in empty list: "
               ++ currentLineText (position callToken)) emptyListState).
Proof.
  split.
  - apply (insert_into_an_empty_list_is_unguarded callToken
             (insertFunction INSERT) emptyListArguments emptyListState
             2%nat 3%nat 4%nat (IntValue mkInt 7) mkInt mkInt 1);
      try reflexivity; try (eexists; split; reflexivity);
      unfold INT_MIN, INT_MAX; simpl; lia.
  - apply (insert_into_an_empty_list_is_unguarded callToken
             (insertFunction REPLACE) emptyListArguments emptyListState
             2%nat 3%nat 4%nat (IntValue mkInt 7) mkInt mkInt 1);
      try reflexivity; try (eexists; split; reflexivity);
      unfold INT_MIN, INT_MAX; simpl; lia.
Defined.

Lemma remove_erases_the_element_at_the_index_witness :
  removeBuiltin callToken (builtinFunction ["list"; "index"] REMOVE)
                {["list" := 5%nat; "index" := 2%nat]} xsState
  = Done 7%nat (setStore (λ st, st ++ [ListValue (mkList mkInt) [2; 4]%nat])
                         xsState).
Proof.
  apply (remove_erases_the_element_at_the_index callToken
           (builtinFunction ["list"; "index"] REMOVE)
           {["list" := 5%nat; "index" := 2%nat]} xsState 5%nat 2%nat LIST
           (Some mkInt) [2; 3; 4]%nat mkInt 1);
    try reflexivity; try (eexists; split; reflexivity);
    unfold INT_MIN, INT_MAX; simpl; lia.
Defined.

Lemma replace_puts_the_element_at_the_index_witness :
  replaceBuiltin callToken (insertFunction REPLACE) insertArguments xsState
  = Done 7%nat (setStore (λ st, st ++ [ListValue (mkList mkInt)
                                         [2; 6; 4]%nat]) xsState).
Proof.
  apply (replace_puts_the_element_at_the_index callToken
           (insertFunction REPLACE) insertArguments xsState 5%nat 6%nat 2%nat
           (IntValue mkInt 4) mkInt [2; 3; 4]%nat mkInt 1);
    try reflexivity; try (eexists; split; reflexivity);
    unfold INT_MIN, INT_MAX; simpl; lia.
Defined.

Lemma combine_concatenates_and_append_writes_the_first_witness :
  combineBuiltin callToken (builtinFunction ["a"; "b"] COMBINE)
                 {["a" := 5%nat; "b" := 5%nat]} xsState
  = Done 7%nat (setStore (λ st, st ++ [ListValue (mkList mkInt)
                                         [2; 3; 4; 2; 3; 4]%nat]) xsState)
  ∧ appendBuiltin callToken (builtinFunction ["a"; "b"] COMBINE)
                  {["a" := 5%nat; "b" := 5%nat]} xsState
    = Undefined.
Proof.
  apply (combine_concatenates_and_append_writes_the_first callToken
           (builtinFunction ["a"; "b"] COMBINE) {["a" := 5%nat; "b" := 5%nat]}
           xsState 5%nat 5%nat mkInt [2; 3; 4]%nat [2; 3; 4]%nat);
    try reflexivity; eexists; split; reflexivity.
Defined.

Lemma in_place_pushes_write_the_list_witness :
  pushFrontInPlaceBuiltin callToken
    (builtinFunction ["list"; "element"] PUSHFRONT) listElement xsState
  = Done 5%nat (setStore (λ st, <[5%nat := ListValue (mkList mkInt)
                                               [6; 2; 3; 4]%nat]> st) xsState)
  ∧ pushBackInPlaceBuiltin callToken
      (builtinFunction ["list"; "element"] PUSHFRONT) listElement xsState
    = Done 5%nat (setStore (λ st, <[5%nat := ListValue (mkList mkInt)
                                                 [2; 3; 4; 6]%nat]> st) xsState).
Proof.
  apply (in_place_pushes_write_the_list callToken
           (builtinFunction ["list"; "element"] PUSHFRONT) listElement xsState
           5%nat 6%nat (IntValue mkInt 4) mkInt [2; 3; 4]%nat);
    try reflexivity; eexists; split; reflexivity.
Defined.

Lemma size_and_isEmpty_count_the_elements_witness :
  sizeBuiltin (builtinFunction ["list"] SIZE) listOnly xsState
  = Done 7%nat (setStore (λ st, st ++ [IntValue mkInt 3]) xsState)
  ∧ isEmptyBuiltin (builtinFunction ["list"] SIZE) listOnly xsState
    = Done 7%nat (setStore (λ st, st ++ [BoolValue mkBool false]) xsState).
Proof.
  apply (size_and_isEmpty_count_the_elements
           (builtinFunction ["list"] SIZE) listOnly xsState 5%nat
           (mkList mkInt) [2; 3; 4]%nat);
    try reflexivity; try (eexists; split; reflexivity).
  unfold INT_MAX. simpl. lia.
Defined.

Lemma char_and_int_conversions_round_trip_witness :
  ∃ q s1 r s2,
    charToIntBuiltin (conversionFunction CHARTOINT) {["argument" := 2%nat]}
                     letterState = Done q s1
    ∧ store s1 !! q = Some (IntValue mkInt 97)
    ∧ intToCharBuiltin (conversionFunction INTTOCHAR) {["argument" := q]} s1
      = Done r s2
    ∧ store s2 !! r = Some (CharValue mkChar "a").
Proof.
  destruct char_and_int_conversions_round_trip as [H _].
  destruct (H (conversionFunction CHARTOINT) {["argument" := 2%nat]}
              (conversionFunction INTTOCHAR) {["argument" := 4%nat]}
              letterState 2%nat mkChar "a"%char)
    as (q & s1 & Hrun & Hback).
  - by exists "argument".
  - reflexivity.
  - vm_compute in Hrun. injection Hrun as <- <-.
    destruct Hback as (r & s2 & Hrun' & Hr); [by exists "argument"|].
    eexists _, _, r, s2. split_and!; [reflexivity|reflexivity|exact Hrun'|exact Hr].
Defined.

Lemma printList_writes_the_elements_witness :
  printListBuiltin callToken (builtinFunction ["list"] PRINTLIST) listOnly
                   xsState
  = Done nullValue (printed ("(1, 2, 3)" ++ endl) xsState).
Proof.
  apply (printList_writes_the_elements callToken
           (builtinFunction ["list"] PRINTLIST) listOnly xsState 5%nat
           (mkList mkInt) [2; 3; 4]%nat ["1"; "2"; "3"]);
    [by exists "list"|reflexivity|].
  repeat constructor; eexists; split; reflexivity.
Defined.

Lemma printTuple_writes_the_elements_witness :
  print2TupleBuiltin callToken (builtinFunction ["tuple"] PRINT2TUPLE)
                     {["tuple" := 4%nat]} pairState
  = Done nullValue (printed ("(1, -2)" ++ endl) pairState)
  ∧ print2TupleBuiltin callToken (builtinFunction ["tuple"] PRINT2TUPLE)
                       {["tuple" := 5%nat]} pairState
    = Throw out_of_range (printed "(" pairState).
Proof.
  split.
  - apply (printTuple_writes_the_elements callToken
             (builtinFunction ["tuple"] PRINT2TUPLE) {["tuple" := 4%nat]}
             pairState 4%nat (mkTuple [mkInt; mkInt]) [2; 3]%nat ["1"; "-2"]);
      [by exists "tuple"|reflexivity|].
    repeat constructor; eexists; split; reflexivity.
  - apply (printTuple_writes_the_elements callToken
             (builtinFunction ["tuple"] PRINT2TUPLE) {["tuple" := 5%nat]}
             pairState 5%nat (mkTuple []) [] []);
      [by exists "tuple"|reflexivity|constructor].
Defined.

End BuiltinWitnesses.

(* ================================================================== *)
(** * The comparison of two concrete types *)
(* ================================================================== *)

Section CompareConcrete.
Import Types.

Lemma compareTupleTypes_frame ts :
  Forall writesNothing ts →
  ∀ ots, forallb concrete ts = true → forallb concrete ots = true →
         ∃ r, compareTupleTypes compare ts ots = Some (r, ts, ots).
Proof.
  induction 1 as [|t ts Ht _ IH]; intros [|o ots]; simpl; eauto.
  rewrite !andb_true_iff. intros [Hc Hcs] [Ho Hos].
  rewrite decide_False by by apply concrete_dataType.
  destruct (Ht o Hc Ho) as [[] ->]; [|by eexists].
  destruct (IH ots Hcs Hos) as [r ->]. by eexists.
Qed.

Lemma compareArgumentTypes_frame ts :
  Forall writesNothing ts →
  ∀ ots, forallb concrete ts = true → forallb concrete ots = true →
         ∃ r, compareArgumentTypes compare ts ots = Some (r, ts, ots).
Proof.
  induction 1 as [|t ts Ht _ IH]; intros [|o ots]; simpl; eauto.
  rewrite !andb_true_iff. intros [Hc Hcs] [Ho Hos].
  destruct (Ht o Hc Ho) as [[] ->]; [|by eexists].
  destruct (IH ots Hcs Hos) as [r ->]. by eexists.
Qed.

(** The class of a concrete type is the class of its tag. *)
Lemma concrete_list o :
  concrete o = true → dataType o = LIST →
  ∃ l, o = ListType LIST (Some l) ∧ concrete l = true.
Proof.
  destruct o as [?|?|?|?|?|?|[]|? [?|]|? ?|? ? ? ? ? ? ? ?|? ? ?]; simpl;
    rewrite ?andb_true_iff, ?bool_decide_eq_true; intros H Ht;
    destruct_and?; simplify_eq. by eexists.
Qed.

Lemma concrete_tuple o :
  concrete o = true → dataType o = TUPLE →
  ∃ ts, o = TupleType TUPLE ts ∧ forallb concrete ts = true.
Proof.
  destruct o as [?|?|?|?|?|?|[]|? [?|]|? ?|? ? ? ? ? ? ? ?|? ? ?]; simpl;
    rewrite ?andb_true_iff, ?bool_decide_eq_true; intros H Ht;
    destruct_and?; simplify_eq. by eexists.
Qed.

Lemma concrete_func o :
  concrete o = true → dataType o = FUNC →
  ∃ g a n r b e i, o = FuncType FUNC g a n r b e i
                   ∧ forallb concrete a = true ∧ concrete r = true.
Proof.
  destruct o as [?|?|?|?|?|?|[]|? [?|]|? ?|? ? ? ? ? ? ? ?|? ? ?]; simpl;
    rewrite ?andb_true_iff, ?bool_decide_eq_true; intros H Ht;
    destruct_and?; simplify_eq. by eexists _, _, _, _, _, _, _.
Qed.

Lemma concrete_typeclass o :
  concrete o = true → dataType o = TYPECLASS →
  ∃ i f, o = TypeclassType TYPECLASS i f.
Proof.
  destruct o as [?|?|?|?|?|?|[]|? [?|]|? ?|? ? ? ? ? ? ? ?|? ? ?]; simpl;
    rewrite ?andb_true_iff, ?bool_decide_eq_true; intros H Ht;
    destruct_and?; simplify_eq. by eexists _, _.
Qed.

Lemma compare_writes_nothing a : writesNothing a.
Proof.
  induction a as [d|d|d|d|d|d|g|d lt IH|d ts IH|d g args n r b e i IHa IHr|d i f]
    using TypePtr_nested_ind; intros o Ha Ho;
    pose proof (concrete_dataType o Ho) as Hu;
    simpl in Ha; rewrite ?andb_true_iff, ?bool_decide_eq_true in Ha;
    destruct_and?; simplify_eq/=; unfold compareBase;
    try (rewrite decide_False by done; by eexists).
  - destruct lt as [l|]; [|done].
    rewrite decide_False by done.
    pose proof (concrete_dataType l ltac:(done)) as Hl.
    case_decide as Htag; [|by eexists].
    destruct (concrete_list o Ho ltac:(done)) as (ol & -> & Hol).
    rewrite decide_False by done.
    destruct (IH l eq_refl ol ltac:(done) Hol) as [r ->]. by eexists.
  - case_decide as Htag; [by eexists|].
    destruct (concrete_tuple o Ho) as (ots & -> & Hots).
    { by destruct (decide (TUPLE = dataType o)). }
    case_decide; [by eexists|].
    destruct (compareTupleTypes_frame ts IH ots) as [r ->]; [done..|].
    by eexists.
  - case_decide as Htag; [|by eexists]. destruct Htag as [_ Htag].
    destruct (concrete_func o Ho Htag)
      as (og & oa & on & oret & ob & oe & oi & -> & Hoa & Hor).
    case_decide; [by eexists|].
    destruct (compareArgumentTypes_frame args IHa oa)
      as [[] ->]; [done..| |by eexists].
    destruct (IHr oret ltac:(done) Hor) as [r' ->]. by eexists.
  - case_decide as Htag; [|by eexists].
    destruct (concrete_typeclass o Ho ltac:(done)) as (oi & ofields & ->).
    by eexists.
Qed.

(** The virtual comparison and the unification primitive of the
    checker, applied to two concrete types, are defined and leave both as
    they were. *)
Theorem comparison_of_concrete_types_writes_nothing a b :
  concrete a = true → concrete b = true →
  ∃ r, compare a b = Some (r, a, b)
       ∧ TypeChecker.compare a b = Some (r, a, b).
Proof.
  intros Ha Hb. destruct (compare_writes_nothing a b Ha Hb) as [r Hr].
  exists r. split; [done|]. unfold TypeChecker.compare.
  rewrite !decide_False by by apply concrete_dataType. done.
Qed.

(** Two concrete types with different tags compare unequal, unless the
    receiver is a function type. *)
Lemma compare_tags_differ a b :
  concrete a = true → concrete b = true →
  dataType a ≠ FUNC → dataType a ≠ dataType b →
  compare a b = Some (false, a, b).
Proof.
  intros Ha Hb Hf Hne. pose proof (concrete_dataType b Hb) as Hu.
  destruct a as [?|?|?|?|?|?|[]|? [?|]|? ?|? ? ? ? ? ? ? ?|? ? ?];
    simpl in *; rewrite ?andb_true_iff, ?bool_decide_eq_true in Ha;
    destruct_and?; simplify_eq/=; unfold compareBase; simpl;
    repeat case_decide; try done; try naive_solver;
    by rewrite bool_decide_eq_false_2.
Qed.

Lemma funcFree_dataType a :
  concrete a = true → funcFree a = true → dataType a ≠ FUNC.
Proof.
  destruct a as [?|?|?|?|?|?|[]|? [?|]|? ?|? ? ? ? ? ? ? ?|? ? ?];
    simpl; rewrite ?andb_true_iff, ?bool_decide_eq_true; intros Ha Hf;
    destruct_and?; simplify_eq/=; done.
Qed.

Lemma compareTupleTypes_sym ts :
  Forall (λ t, ∀ o r, concrete t = true → concrete o = true →
                      funcFree t = true → funcFree o = true →
                      compare t o = Some (r, t, o) →
                      compare o t = Some (r, o, t)) ts →
  ∀ os r,
    forallb concrete ts = true → forallb concrete os = true →
    forallb funcFree ts = true → forallb funcFree os = true →
    length ts = length os →
    compareTupleTypes compare ts os = Some (r, ts, os) →
    compareTupleTypes compare os ts = Some (r, os, ts).
Proof.
  induction 1 as [|t ts Ht Hts IH]; intros [|o os] r; simpl; try done.
  rewrite !andb_true_iff. intros [Hc Hcs] [Ho Hos] [Hf Hfs] [Hof Hofs] Hlen.
  rewrite !decide_False by by apply concrete_dataType.
  destruct (compare_writes_nothing t o Hc Ho) as [rt Hrt]. rewrite Hrt.
  rewrite (Ht o rt Hc Ho Hf Hof Hrt). destruct rt.
  - assert (Forall writesNothing ts) as Hw
      by (apply Forall_forall; intros; apply compare_writes_nothing).
    destruct (compareTupleTypes_frame ts Hw os Hcs Hos) as [r' Hr'].
    rewrite Hr'. intros [= <-].
    by rewrite (IH os r' Hcs Hos Hfs Hofs ltac:(lia) Hr').
  - by intros [= <-].
Qed.

Lemma compare_concrete_sym a :
  ∀ b r, concrete a = true → concrete b = true →
         funcFree a = true → funcFree b = true →
         compare a b = Some (r, a, b) → compare b a = Some (r, b, a).
Proof.
  induction a as [d|d|d|d|d|d|g|d lt IH|d ts IH|d g args n r0 b0 e i IHa IHr|d i f]
    using TypePtr_nested_ind; intros o r Ha Ho Hfa Hfo.
  all: match goal with
       | |- compare ?a ?b = _ → _ =>
           destruct (decide (dataType a = dataType b)) as [Htag|Htag];
           [|rewrite (compare_tags_differ a b Ha Ho
                        (funcFree_dataType a Ha Hfa) Htag);
             intros [= <-];
             apply compare_tags_differ;
             [done|done|by apply funcFree_dataType|congruence]]
       end.
  all: simpl in Ha; rewrite ?andb_true_iff, ?bool_decide_eq_true in Ha;
    destruct_and?; simplify_eq/=.
  all: try (destruct o as [?|?|?|?|?|?|[]|? [?|]|? ?|? ? ? ? ? ? ? ?|? ? ?];
            simpl in Ho; rewrite ?andb_true_iff, ?bool_decide_eq_true in Ho;
            destruct_and?; simplify_eq/=; unfold compareBase; simpl;
            by intros [= <-]).
  - destruct g as [gd gi]. simpl in *. subst gd.
    destruct o as [?|?|?|?|?|?|[]|? [?|]|? ?|? ? ? ? ? ? ? ?|? ? ?];
      simpl in Ho; rewrite ?andb_true_iff, ?bool_decide_eq_true in Ho;
      destruct_and?; simplify_eq/=; unfold compareBase; simpl;
      by intros [= <-].
  - destruct lt as [l|]; [|done].
    destruct (concrete_list o Ho ltac:(done)) as (ol & -> & Hol).
    simpl in Hfo. pose proof (concrete_dataType l ltac:(done)).
    pose proof (concrete_dataType ol Hol).
    rewrite !decide_False by done. rewrite !decide_True by done.
    rewrite !decide_False by done.
    destruct (compare_writes_nothing l ol ltac:(done) Hol) as [rl Hrl].
    rewrite Hrl. intros [= <-]. simpl.
    repeat case_decide; try done; try naive_solver.
    by rewrite (IH l eq_refl ol rl).
  - destruct (concrete_tuple o Ho ltac:(done)) as (os & -> & Hos).
    simpl in Hfo. rewrite !decide_False by naive_solver.
    case_decide as Hlen.
    + intros [= <-]. simpl. repeat case_decide; try done; naive_solver.
    + assert (Forall writesNothing ts) as Hw
        by (apply Forall_forall; intros; apply compare_writes_nothing).
      destruct (compareTupleTypes_frame ts Hw os) as [r' Hr']; [done..|].
      rewrite Hr'. intros [= <-]. simpl.
      repeat case_decide; try done; try naive_solver.
      by rewrite (compareTupleTypes_sym ts IH os r').
  - destruct (concrete_typeclass o Ho ltac:(done)) as (oi & ofields & ->).
    rewrite decide_True by done. intros [= <-]. simpl.
    do 3 f_equal. apply bool_decide_ext. naive_solver.
Qed.

(** On concrete types in which no function type occurs the virtual
    comparison is symmetric. *)
Theorem comparison_is_symmetric_without_function_types a b :
  concrete a = true → concrete b = true →
  funcFree a = true → funcFree b = true →
  ∃ r, compare a b = Some (r, a, b) ∧ compare b a = Some (r, b, a).
Proof.
  intros Ha Hb Hfa Hfb.
  destruct (compare_writes_nothing a b Ha Hb) as [r Hr].
  exists r. split; [done|]. by apply compare_concrete_sym.
Qed.

(** A function type as receiver compares equal to every concrete type
    that is not a function type, while that type as receiver compares
    unequal to the function type. *)
Theorem function_type_equals_every_other_type f t :
  concrete f = true → dataType f = FUNC →
  concrete t = true → dataType t ≠ FUNC →
  compare f t = Some (true, f, t) ∧ compare t f = Some (false, t, f).
Proof.
  intros Hf Htag Ht Hne. split.
  - destruct (concrete_func f Hf Htag)
      as (g & a & n & r & b & e & i & -> & _). simpl.
    repeat case_decide; destruct_and?; done.
  - apply compare_tags_differ; [done|done|done|congruence].
Qed.

(** What the virtual comparison does with an argument that is a new
    [Unknown]: a tuple or typeclass receiver answers false and a function
    receiver true, both leaving it alone; every other receiver answers
    true and writes its own tag into the argument, whose class stays
    [UnknownType].  A list receiver compared with that argument once more
    reads it as a [ListType], which is undefined. *)
Theorem comparison_tags_an_unknown_argument t :
  concrete t = true →
  compare t mkUnknown
  = (if decide (dataType t = TUPLE ∨ dataType t = TYPECLASS)
     then Some (false, t, mkUnknown)
     else if decide (dataType t = FUNC) then Some (true, t, mkUnknown)
     else Some (true, t, UnknownType (dataType t)))
  ∧ (dataType t = LIST → compare t (UnknownType (dataType t)) = None).
Proof.
  intros Ht.
  destruct t as [?|?|?|?|?|?|[]|? [?|]|? ?|? ? ? ? ? ? ? ?|? ? ?];
    simpl in Ht; rewrite ?andb_true_iff, ?bool_decide_eq_true in Ht;
    destruct_and?; simplify_eq/=; (split; [|try done]);
    unfold compareBase; simpl; repeat case_decide; destruct_and?;
    try done; try (exfalso; intuition congruence).
Qed.

End CompareConcrete.

Lemma comparison_of_concrete_types_writes_nothing_witness :
  ∃ r, Types.compare (Types.mkList Types.mkInt)
                     (Types.mkTuple [Types.mkInt; Types.mkChar])
       = Some (r, Types.mkList Types.mkInt,
               Types.mkTuple [Types.mkInt; Types.mkChar])
       ∧ TypeChecker.compare (Types.mkList Types.mkInt)
                             (Types.mkTuple [Types.mkInt; Types.mkChar])
         = Some (r, Types.mkList Types.mkInt,
                 Types.mkTuple [Types.mkInt; Types.mkChar]).
Proof.
  apply (comparison_of_concrete_types_writes_nothing
           (Types.mkList Types.mkInt)
           (Types.mkTuple [Types.mkInt; Types.mkChar])); reflexivity.
Defined.

Lemma comparison_is_symmetric_without_function_types_witness :
  ∃ r, Types.compare (Types.mkTuple [Types.mkGen "T"; Types.mkInt])
                     (Types.mkTuple [Types.mkGen "U"; Types.mkInt])
       = Some (r, Types.mkTuple [Types.mkGen "T"; Types.mkInt],
               Types.mkTuple [Types.mkGen "U"; Types.mkInt])
       ∧ Types.compare (Types.mkTuple [Types.mkGen "U"; Types.mkInt])
                       (Types.mkTuple [Types.mkGen "T"; Types.mkInt])
         = Some (r, Types.mkTuple [Types.mkGen "U"; Types.mkInt],
                 Types.mkTuple [Types.mkGen "T"; Types.mkInt]).
Proof.
  apply (comparison_is_symmetric_without_function_types
           (Types.mkTuple [Types.mkGen "T"; Types.mkInt])
           (Types.mkTuple [Types.mkGen "U"; Types.mkInt])); reflexivity.
Defined.

Lemma function_type_equals_every_other_type_witness :
  Types.compare (Types.mkFunc [] [Types.mkInt] Types.mkBool) Types.mkString
  = Some (true, Types.mkFunc [] [Types.mkInt] Types.mkBool, Types.mkString)
  ∧ Types.compare Types.mkString (Types.mkFunc [] [Types.mkInt] Types.mkBool)
    = Some (false, Types.mkString,
            Types.mkFunc [] [Types.mkInt] Types.mkBool).
Proof.
  apply (function_type_equals_every_other_type
           (Types.mkFunc [] [Types.mkInt] Types.mkBool) Types.mkString);
    try reflexivity. discriminate.
Defined.

Lemma comparison_tags_an_unknown_argument_witness :
  Types.compare (Types.mkList Types.mkInt) Types.mkUnknown
  = Some (true, Types.mkList Types.mkInt, Types.UnknownType Types.LIST)
  ∧ Types.compare (Types.mkList Types.mkInt) (Types.UnknownType Types.LIST)
    = None.
Proof.
  destruct (comparison_tags_an_unknown_argument (Types.mkList Types.mkInt)
              eq_refl) as [H1 H2].
  split; [exact H1|exact (H2 eq_refl)].
Defined.

(* ================================================================== *)
(** * Substitution of generics, and names *)
(* ================================================================== *)

Section TypesAndNames.
Import Types Expressions Values.

Lemma resolveEach_concrete environment ts :
  Forall (λ t, concrete t = true →
    ∃ t', TypeChecker.resolveType t environment = Some t'
          ∧ concrete t' = true
          ∧ ((∀ n, n ∈ generics t → environment !! n = None) → t' = t)) ts →
  forallb concrete ts = true →
  ∃ ts', TypeChecker.resolveEach
           (λ t, TypeChecker.resolveType t environment) ts = Some ts'
         ∧ forallb concrete ts' = true
         ∧ ((∀ n, n ∈ concat (map generics ts) → environment !! n = None) →
            ts' = ts).
Proof.
  induction 1 as [|t ts Ht _ IH]; simpl; [by eexists|].
  rewrite andb_true_iff. intros [Hc Hcs].
  destruct (Ht Hc) as (t' & -> & Hc' & Hid).
  destruct (IH Hcs) as (ts' & -> & Hcs' & Hids).
  eexists; split; [done|]. split; [by simpl; rewrite Hc', Hcs'|].
  intros Hn. rewrite Hid, Hids; [done| |];
    intros n Hin; apply Hn, elem_of_app; auto.
Qed.

(** Substituting the generics of a type of the grammar always
    yields a type of the grammar when the environment binds such types,
    and the very same type when the environment binds none of the
    generics that occur in it. *)
Theorem resolving_keeps_the_grammar_and_unbound_generics
  (environment : Types.EnvironmentRaw) t :
  concrete t = true →
  (∀ n t', environment !! n = Some t' → concrete t' = true) →
  ∃ t', TypeChecker.resolveType t environment = Some t'
        ∧ concrete t' = true
        ∧ ((∀ n, n ∈ generics t → environment !! n = None) → t' = t).
Proof.
  intros Hc Henv. revert Hc.
  induction t as [d|d|d|d|d|d|g|d lt IH|d ts IH|d g args n r b e i IHa IHr|d i f]
    using TypePtr_nested_ind; simpl;
    rewrite ?andb_true_iff, ?bool_decide_eq_true; intros Hc;
    destruct_and?; subst; try discriminate;
    try (by eexists; repeat split).
  - rewrite decide_True by done.
    destruct (environment !! identifier g) as [envType|] eqn:He.
    + eexists; split; [done|]. split; [by eapply Henv|].
      intros Hn. rewrite Hn in He; [done|]. simpl; set_solver.
    + eexists; split; [done|]. split; [|done].
      simpl. by rewrite bool_decide_eq_true.
  - destruct lt as [l|]; [|done].
    destruct (IH l eq_refl) as (l' & -> & Hc' & Hid); [done|].
    rewrite decide_True by done.
    eexists; split; [done|]. split.
    + simpl. by rewrite Hc'.
    + intros Hn. by rewrite Hid.
  - rewrite decide_True by done.
    destruct (resolveEach_concrete environment ts IH) as (ts' & -> & Hc' & Hid);
      [done|].
    eexists; split; [done|]. split.
    + simpl. by rewrite Hc'.
    + intros Hn. by rewrite Hid.
  - rewrite decide_True by done.
    destruct (resolveEach_concrete environment args IHa)
      as (args' & -> & Hc' & Hid); [done|].
    destruct IHr as (r' & -> & Hcr & Hidr); [done|].
    eexists; split; [done|]. split.
    + simpl. by rewrite Hc', Hcr.
    + intros Hn. rewrite Hid, Hidr; [done| |];
        intros m Hin; apply Hn, elem_of_app; auto.
Qed.

(** A name added to an environment is found again and leaves the
    other names as they were.  For a name that is not bound the type
    checker reports it and answers with a new unknown type, where the
    interpreter reports it and throws. *)
Theorem added_names_are_found_and_missing_names_reported
  token name other missing type value
  (types : Types.EnvironmentRaw) (values : Environment)
  (c : TypeChecker.State) (s : State) :
  other ≠ name →
  types !! missing = None →
  values !! missing = None →
  let message := ("Error: " ++ missing ++ " does not exist in this scope")%string in
  TypeChecker.getName token (TypeChecker.addName types name type) name c
  = Done type c
  ∧ TypeChecker.getName token (TypeChecker.addName types name type) other c
    = TypeChecker.getName token types other c
  ∧ TypeChecker.getName token types missing c
    = Done mkUnknown (diagnosed token message c)
  ∧ Interpreter.getName token (Interpreter.addName values name value) name s
    = Done value s
  ∧ Interpreter.getName token (Interpreter.addName values name value) other s
    = Interpreter.getName token values other s
  ∧ Interpreter.getName token values missing s
    = Throw RuntimeException (failed token message s).
Proof.
  intros Hne Ht Hv message.
  unfold TypeChecker.getName, TypeChecker.addName,
    Interpreter.getName, Interpreter.addName.
  rewrite Ht, Hv.
  repeat split.
  - by rewrite lookup_insert_eq.
  - rewrite lookup_insert_ne by done. case_decide; [|done].
    by rewrite lookup_delete_ne.
  - by rewrite lookup_insert_eq.
  - rewrite lookup_insert_ne by done. case_decide; [|done].
    by rewrite lookup_delete_ne.
Qed.

End TypesAndNames.

(* ================================================================== *)
(** * Operators and list access in the interpreter *)
(* ================================================================== *)

Section InterpreterOperations.
Import Types Expressions Values Interpreter.

Variable isBuiltin : string → bool.
Variable runBuiltin : Token → FunctionValueData → Environment → M State ValuePtr.
Variable interpret : Exp → Environment → M State (ValuePtr * Environment).

Lemma toUnsigned_in_bounds z n :
  INT_MIN ≤ z ≤ INT_MAX → Z.of_nat n ≤ INT_MAX →
  (Z.of_nat n ≤ toUnsigned z) ↔ (z < 0 ∨ Z.of_nat n ≤ z).
Proof.
  unfold INT_MIN, INT_MAX, toUnsigned. intros Hz Hn.
  destruct (decide (0 ≤ z)).
  - rewrite Z.mod_small by lia. lia.
  - replace (z mod 2 ^ 32) with (z + 2 ^ 32); [lia|].
    apply Z.mod_unique_pos with (q := -1); lia.
Qed.

(** An application whose callee is a list reads the list at the index
    its first argument evaluates to.  The list is read as it is after the
    argument was evaluated; an index that is negative or not below the
    length is reported as out of bounds and throws. *)
Theorem indexing_a_list_checks_the_bounds
  token ident argument rest environment (s s1 s2 : State)
  l p env1 env2 t L t' L' ti z :
  interpret ident environment s = Done (l, env1) s1 →
  store s1 !! l = Some (ListValue t L) →
  dataType t = LIST →
  interpret argument env1 s1 = Done (p, env2) s2 →
  store s2 !! p = Some (IntValue ti z) →
  INT_MIN ≤ z ≤ INT_MAX →
  store s2 !! l = Some (ListValue t' L') →
  Z.of_nat (length L') ≤ INT_MAX →
  interpretApplication isBuiltin runBuiltin interpret token ident
    (argument :: rest) environment s
  = match (if decide (0 ≤ z) then L' !! Z.to_nat z else None) with
    | Some x => Done (x, env2) s2
    | None =>
        Throw RuntimeException
          (failed token
             ("Error: Out of bounds list access: "
              ++ currentLineText (position token)) s2)
    end.
Proof.
  intros Hi Hl Ht Ha Hp Hz Hl' Hlen.
  unfold interpretApplication, bind. rewrite Hi. cbn [fst snd].
  rewrite (load_Done _ _ _ Hl). cbn [type]. rewrite Ht.
  cbn [orOutOfRange lookup list_lookup ret].
  rewrite Ha. cbn [fst snd].
  rewrite (asInt_Done _ _ _ _ Hp), (asList_Done _ _ _ _ Hl').
  cbn [fst snd].
  pose proof (toUnsigned_in_bounds z (length L') Hz Hlen) as Hb.
  case_decide as Hu.
  - apply Hb in Hu. case_decide as H0.
    + rewrite lookup_ge_None_2 by lia. done.
    + done.
  - assert (0 ≤ z < Z.of_nat (length L')) as Hin by (rewrite Hb in Hu; lia).
    rewrite decide_True by lia.
    unfold toUnsigned. rewrite Z.mod_small by (unfold INT_MAX in Hlen; lia).
    destruct (lookup_lt_is_Some_2 L' (Z.to_nat z)) as [x ->]; [lia|]. done.
Qed.

(** On two integer operands the comparison operators answer by the
    order of the integers, binary [NOT] answers as [==] does, and [+],
    [-] and [*] give the exact result when it is an [int] and are
    undefined when it is not.  The result is a new value; the operands
    stay as they are. *)
Theorem integer_operators_compute_on_the_operands
  token leftSide rightSide environment (s s1 s2 : State)
  l r env1 env2 tl tr a b :
  interpret leftSide environment s = Done (l, env1) s1 →
  interpret rightSide env1 s1 = Done (r, env2) s2 →
  store s2 !! l = Some (IntValue tl a) →
  dataType tl = INT →
  store s2 !! r = Some (IntValue tr b) →
  let result op :=
    interpretPrimitive interpret token op leftSide rightSide environment s in
  let made v :=
    Done (length (store s2), env2) (setStore (λ st, st ++ [v]) s2) in
  let truth (answer : bool) := made (BoolValue mkBool answer) in
  let number z :=
    if decide (INT_MIN ≤ z ≤ INT_MAX) then made (IntValue mkInt z)
    else Undefined in
  result GRT = truth (bool_decide (a > b)%Z)
  ∧ result LST = truth (bool_decide (a < b))
  ∧ result GRTEQ = truth (bool_decide (a >= b)%Z)
  ∧ result LSTEQ = truth (bool_decide (a ≤ b))
  ∧ result EQ = truth (bool_decide (a = b))
  ∧ result NOTEQ = truth (bool_decide (a ≠ b))
  ∧ result NOT = truth (bool_decide (a = b))
  ∧ result PLUS = number (a + b) ∧ result MINUS = number (a - b)
  ∧ result TIMES = number (a * b).
Proof.
  intros Hl Hr Hlv Ht Hrv result made truth number.
  assert (∀ op, result op
    = match doOperation PrimitiveInt token op l r s2 with
      | Done v s' => Done (v, env2) s'
      | Throw e s' => Throw e s'
      | Undefined => Undefined
      end) as Hop.
  { intros op. unfold result, interpretPrimitive, bind.
    rewrite Hl. cbn [fst snd]. rewrite Hr. cbn [fst snd].
    rewrite (load_Done _ _ _ Hlv). cbn [type].
    rewrite Ht. by destruct (doOperation _ _ _ _ _ _). }
  rewrite !Hop. unfold doOperation, bind, truth, made, number.
  cbn [read PrimitiveInt less equal].
  rewrite !(asInt_Done _ _ _ _ Hlv), !(asInt_Done _ _ _ _ Hrv).
  unfold newBool, newInt, alloc, checked.
  repeat split; try (by repeat case_decide);
    repeat match goal with
           | |- context [(?x <? ?y)%Z] => destruct (Z.ltb_spec x y)
           | |- context [(?x =? ?y)%Z] => destruct (Z.eqb_spec x y)
           end;
    cbn [negb]; repeat case_bool_decide; try done; lia.
Qed.

End InterpreterOperations.

(* ================================================================== *)
(** * Comments and words in the lexer *)
(* ================================================================== *)

Section LexerFacts.
Import Expressions Lexer.

Lemma list_ascii_of_string_app (a b : string) :
  list_ascii_of_string (a ++ b) = list_ascii_of_string a ++ list_ascii_of_string b.
Proof.
  induction a as [|c a IH]; [done|].
  change (String c a ++ b)%string with (String c (a ++ b)%string).
  simpl. by rewrite IH.
Qed.

Lemma lexAll_app a b s : lexAll (a ++ b) s = lexAll b (lexAll a s).
Proof. unfold lexAll. by rewrite list_ascii_of_string_app, foldl_app. Qed.

Lemma makeTokenStream_lexAll sourceStream q :
  makeTokenStream sourceStream q
  = let s1 := lexAll sourceStream (Lexer q) in
    let s2 := if decide (currentTokenBlock s1 = EmptyString) then s1
              else lexCharacter newline s1 in
    (tokenStream s2, inQuotes s2).
Proof. done. Qed.

Lemma lexCharacter_updateFilePosition character s :
  updateFilePosition (lexCharacter character s) = false.
Proof.
  unfold lexCharacter.
  destruct (filterComments character s) as [kept s1].
  match goal with |- context [if updateFilePosition ?x then _ else _] =>
    destruct (updateFilePosition x) eqn:Hu; [done|exact Hu] end.
Qed.

Lemma lexAll_updateFilePosition a s :
  updateFilePosition s = false → updateFilePosition (lexAll a s) = false.
Proof.
  unfold lexAll. generalize (list_ascii_of_string a). intros cs. revert s.
  induction cs as [|c cs IH]; intros s Hs; [done|].
  simpl. apply IH, lexCharacter_updateFilePosition.
Qed.

Lemma lex_in_comment text s :
  inQuotes s = false → updateFilePosition s = false →
  newline ∉ list_ascii_of_string text →
  lexAll text (setInComment true s) = setInComment true s.
Proof.
  unfold lexAll. intros Hq Hu.
  induction (list_ascii_of_string text) as [|c cs IH]; intros Hn; [done|].
  simpl. rewrite <- IH at 2 by set_solver. f_equal.
  unfold lexCharacter, filterComments.
  assert (c ≠ newline) by set_solver.
  case_decide; [|rewrite decide_False by done];
    cbn [inQuotes setInComment inComment negb updateFilePosition];
    rewrite ?Hq, ?Hu; cbn [negb updateFilePosition setInComment];
    rewrite ?Hu; destruct s; done.
Qed.

Lemma lex_hash s :
  inQuotes s = false → updateFilePosition s = false →
  lexCharacter "#" s = setInComment true s.
Proof.
  intros Hq Hu. unfold lexCharacter, filterComments.
  rewrite decide_True by done. rewrite Hq. cbn [negb].
  cbn [updateFilePosition setInComment]. by rewrite Hu.
Qed.

Lemma lex_newline_after_comment s :
  lexCharacter newline (setInComment true s) = lexCharacter newline s.
Proof.
  unfold lexCharacter, filterComments.
  rewrite decide_False by done. rewrite decide_True by done.
  by destruct s.
Qed.

(** A [#] outside of quotes starts a comment that runs to the end of
    the line: the token stream is the one of the source text without the
    comment, whether the comment ends in a newline or ends the text. *)
Theorem comment_is_skipped before text after q :
  inQuotes (lexAll before (Lexer q)) = false →
  newline ∉ list_ascii_of_string text →
  makeTokenStream (before ++ "#" ++ text ++ single newline ++ after) q
  = makeTokenStream (before ++ single newline ++ after) q
  ∧ makeTokenStream (before ++ "#" ++ text) q = makeTokenStream before q.
Proof.
  intros Hq Hn.
  assert (updateFilePosition (lexAll before (Lexer q)) = false) as Hu
    by by apply lexAll_updateFilePosition.
  assert (lexAll text (lexAll "#" (lexAll before (Lexer q)))
          = setInComment true (lexAll before (Lexer q))) as Hc.
  { change (lexAll "#" ?s) with (lexCharacter "#" s).
    rewrite lex_hash by done. by apply lex_in_comment. }
  rewrite !makeTokenStream_lexAll. split.
  - rewrite !lexAll_app, Hc.
    change (lexAll (single newline) ?s) with (lexCharacter newline s).
    by rewrite lex_newline_after_comment.
  - rewrite !lexAll_app, Hc. cbn zeta.
    change (currentTokenBlock (setInComment true ?s))
      with (currentTokenBlock s).
    case_decide; [done|]. by rewrite lex_newline_after_comment.
Qed.

Lemma wordCharacter_plain c :
  wordCharacter c = true →
  c ≠ "#"%char ∧ c ≠ newline ∧ c ≠ " "%char ∧ c ≠ tab ∧ c ≠ carriageReturn
  ∧ c ≠ doubleQuote ∧ c ≠ singleQuote
  ∧ isCharDelimiter c = false ∧ isValidCharacter c = true.
Proof.
  intros Hc. repeat split; try (intros ->; by vm_compute in Hc).
  - apply bool_decide_eq_false. intros Hin.
    unfold CHAR_DELIMS in Hin. simpl in Hin.
    repeat (apply elem_of_cons in Hin as [->|Hin]; [by vm_compute in Hc|]).
    by apply elem_of_nil in Hin.
  - unfold isValidCharacter. unfold wordCharacter in Hc.
    destruct (isalnum c); [done|]. simpl in Hc. rewrite Hc.
    by rewrite orb_true_r.
Qed.

Lemma lex_word_character c s :
  wordCharacter c = true →
  inComment s = false → inQuotes s = false → updateFilePosition s = false →
  lexCharacter c s = addToBlock c (advance 1 c s).
Proof.
  intros Hc Hi Hq Hu.
  destruct (wordCharacter_plain c Hc)
    as (H1 & H2 & H3 & H4 & H5 & H6 & H7 & _ & Hv).
  unfold lexCharacter, filterComments, filterWhitespace.
  rewrite !(decide_False (P := c = _)) by done.
  rewrite Hi. cbn [negb].
  rewrite !(decide_False (P := _ ∨ _)) by (intros [?|?]; done).
  rewrite Hv. cbn [orb].
  cbn [updateFilePosition addToBlock advance setCurrentTokenBlock
       setCurrentPosition].
  by rewrite Hu.
Qed.

Lemma typed_flags w s :
  inComment (typed w s) = inComment s ∧ inQuotes (typed w s) = inQuotes s
  ∧ updateFilePosition (typed w s) = updateFilePosition s.
Proof. done. Qed.

Lemma lexAll_word w : ∀ s,
  forallb wordCharacter (list_ascii_of_string w) = true →
  inComment s = false → inQuotes s = false → updateFilePosition s = false →
  lexAll w s = typed w s.
Proof.
  induction w as [|c w IH]; intros s Hw Hi Hq Hu.
  - unfold lexAll, typed. simpl. destruct s as [? ? [? ? ?] ? ? ? ?].
    cbn. by rewrite Z.add_0_r, !string_app_nil_r.
  - simpl in Hw. apply andb_true_iff in Hw as [Hc Hw].
    change (lexAll (String c w) s) with (lexAll w (lexCharacter c s)).
    rewrite lex_word_character by done.
    change (addToBlock c (advance 1 c s)) with (typed (single c) s).
    rewrite IH by done.
    unfold typed. destruct s as [? ? [? ? ?] ? ? ? ?]. cbn.
    rewrite !string_app_assoc.
    change (single c ++ w)%string with (String c w).
    unfold setCurrentTokenBlock, setCurrentPosition. cbn.
    do 2 f_equal. lia.
Qed.

Lemma lexBlock_word w : ∀ tokenString s,
  forallb wordCharacter (list_ascii_of_string w) = true →
  inQuotes s = false →
  lexBlock w tokenString s = ((tokenString ++ w)%string, s).
Proof.
  induction w as [|c w IH]; intros tokenString s Hw Hq.
  - simpl. by rewrite string_app_nil_r.
  - simpl in Hw. apply andb_true_iff in Hw as [Hc Hw].
    destruct (wordCharacter_plain c Hc)
      as (_ & _ & _ & _ & _ & H6 & H7 & Hd & _).
    cbn [lexBlock]. rewrite Hd, !bool_decide_eq_false_2 by done.
    cbn [andb orb]. rewrite IH by done.
    by rewrite string_app_assoc.
Qed.

Lemma word_no_delimiter w :
  word w →
  bool_decide (w ∈ DELIMITERS) = false
  ∧ ¬ (w = "'" ∨ w = single doubleQuote).
Proof.
  intros [Hne Hw]. destruct w as [|c w]; [done|].
  simpl in Hw. apply andb_true_iff in Hw as [Hc _].
  split.
  - apply bool_decide_eq_false. intros Hin. unfold DELIMITERS in Hin.
    repeat (apply elem_of_cons in Hin as [Heq|Hin];
            [injection Heq as -> _; by vm_compute in Hc|]).
    by apply elem_of_nil in Hin.
  - intros [Heq|Heq]; injection Heq as -> _; by vm_compute in Hc.
Qed.

Lemma between_spec low high c :
  between low high c = true ↔ (low ≤ nat_of_ascii c ≤ high)%nat.
Proof. unfold between. by rewrite bool_decide_eq_true. Qed.

Lemma word_matchesIdent w :
  word w → matchesIdent w = negb (startsWithDigit w).
Proof.
  intros [Hne Hw]. destruct w as [|c w]; [done|].
  simpl in Hw. apply andb_true_iff in Hw as [Hc Hw].
  cbn [matchesIdent startsWithDigit].
  replace (forallb _ (list_ascii_of_string w)) with true.
  - rewrite andb_true_r. unfold wordCharacter, isalnum, isdigit in Hc.
    unfold isdigit. revert Hc.
    case_bool_decide as Hu; [subst c; by vm_compute|].
    repeat match goal with
           | |- context [between ?a ?b c] =>
               let H := fresh in
               destruct (between a b c) eqn:H;
                 [apply between_spec in H
                 |apply not_true_iff_false in H; rewrite between_spec in H]
           end; cbn; intros; first [done|lia].
  - symmetry. apply forallb_forall. intros x Hx.
    rewrite forallb_forall in Hw. specialize (Hw x Hx).
    unfold wordCharacter, isalnum in Hw.
    destruct (isdigit x), (between 65 90 x), (between 97 122 x); done.
Qed.

(** A word (letters, digits and underscores) that a blank ends becomes
    one token with the text of the word: a keyword or a number if it is
    one, an error that sets the latch if it starts with a digit without
    being a number, and an identifier otherwise.  The token is placed one
    column after the column the lexer was at before the word.  (The
    column is not negative in a lexer, which the message of the error
    relies on.) *)
Theorem a_word_before_a_blank_is_one_token w s :
  word w →
  currentTokenBlock s = EmptyString →
  inComment s = false → inQuotes s = false → updateFilePosition s = false →
  0 ≤ fileColumn (currentPosition s) →
  let p := currentPosition s in
  let line := (currentLineText p ++ w ++ " ")%string in
  lexAll (w ++ " ") s
  = mkState
      (tokenStream s
       ++ [mkToken (wordType w)
                   (mkFilePosition (fileLine p) (fileColumn p + 1) line) w])
      EmptyString
      (mkFilePosition (fileLine p)
                      (fileColumn p + Z.of_nat (String.length w) + 1) line)
      false false (error s || misspelt w) false.
Proof.
  intros Hword Hb Hi Hq Hu _ p line.
  pose proof Hword as [Hne Hw].
  destruct (word_no_delimiter w Hword) as [Hd Hquote].
  rewrite lexAll_app, (lexAll_word w s) by done.
  change (lexAll " " ?x) with (lexCharacter " " x).
  unfold lexCharacter, filterComments.
  rewrite !(decide_False (P := " "%char = _)) by done.
  change (inComment (typed w s)) with (inComment s). rewrite Hi.
  cbn [negb]. unfold filterWhitespace.
  rewrite decide_True by (by left). rewrite decide_False by done.
  change (inQuotes (typed w s)) with (inQuotes s). rewrite Hq. cbn [negb].
  set (s1 := advance 1 " " (typed w s)).
  assert (currentTokenBlock s1 = w) as Hblock.
  { unfold s1, typed. cbn. by rewrite Hb. }
  rewrite Hblock, lexBlock_word by done.
  change (EmptyString ++ w)%string with w.
  unfold flush. rewrite decide_False by done.
  unfold pushToken, makeToken, isDelimiter.
  rewrite Hd, (bool_decide_eq_false_2 _ Hquote).
  unfold isIdentity. change (inQuotes s1) with (inQuotes s). rewrite Hq.
  rewrite orb_false_r, word_matchesIdent by done.
  clear Hblock. unfold wordType, misspelt, s1, typed, printError.
  subst p line. destruct s as [? ? [? ? ?] ? ? ? ?].
  cbn in Hb, Hi, Hq, Hu. subst.
  destruct (isKeyword w), (isValue w), (startsWithDigit w);
    unfold setCurrentTokenBlock, setTokenStream, setCurrentPosition, advance,
      setError; cbn;
    rewrite ?orb_true_r, ?orb_false_r, ?string_app_assoc;
    replace (fileColumn0 + Z.of_nat (String.length w) + 1
             - Z.of_nat (String.length w)) with (fileColumn0 + 1) by lia;
    done.
Qed.

End LexerFacts.

(* ================================================================== *)
(** * Import directives *)
(* ================================================================== *)

Section ImportFacts.
Import Expressions Parser.

Variable fileSystem : string → option string.

Lemma substring_all (b : string) : String.substring 0 (String.length b) b = b.
Proof. induction b as [|c b IH]; [done|]. simpl. by rewrite IH. Qed.

Lemma substring_suffix (a b : string) :
  String.substring (String.length a) (String.length b) (a ++ b) = b.
Proof.
  induction a as [|c a IH]; [apply substring_all|].
  change (String c a ++ b)%string with (String c (a ++ b)%string).
  exact IH.
Qed.

Lemma readFile_bnt name :
  name ≠ EmptyString →
  Lexer.readFile fileSystem (name ++ ".bnt")
  = default EmptyString (fileSystem (name ++ ".bnt")%string).
Proof.
  intros Hne. unfold Lexer.readFile, Lexer.endsWith, Lexer.extension.
  rewrite string_length_app.
  replace (String.length name + String.length ".bnt"
           - String.length ".bnt")%nat with (String.length name) by lia.
  rewrite substring_suffix. rewrite (bool_decide_true (_ = _)) by done.
  rewrite bool_decide_false; [by destruct (fileSystem _)|].
  destruct name; [done|]. simpl. lia.
Qed.

Lemma pathSegments_path segments : ∀ name next rest,
  Forall (λ segment : Token * Token, text segment.1 = "/") segments →
  text next ≠ "/" →
  pathSegments name (pathTokens segments ++ next :: rest)
  = Some (foldl (λ path segment, path ++ "/" ++ text segment.2)%string
                name segments,
          next :: rest).
Proof.
  induction segments as [|[slash segment] segments IH];
    intros name next rest Hs Hn.
  - simpl. by rewrite decide_False.
  - inversion Hs as [|? ? Hslash Hs']; subst. simpl in Hslash.
    cbn [pathTokens flat_map app fst snd pathSegments].
    rewrite decide_True by done. rewrite Hslash.
    by apply IH.
Qed.

Lemma pathSegments_cut segments : ∀ name tail,
  Forall (λ segment : Token * Token, text segment.1 = "/") segments →
  tail = [] ∨ (∃ slash, text slash = "/" ∧ tail = [slash]) →
  pathSegments name (pathTokens segments ++ tail) = None.
Proof.
  induction segments as [|[slash segment] segments IH]; intros name tail Hs Ht.
  - destruct Ht as [->|(slash & Hslash & ->)]; [done|].
    simpl. by rewrite decide_True.
  - inversion Hs as [|? ? Hslash Hs']; subst. simpl in Hslash.
    cbn [pathTokens flat_map app fst snd pathSegments].
    rewrite decide_True by done. by apply IH.
Qed.

Lemma importPath_nonempty fileName segments :
  text fileName ≠ EmptyString → importPath fileName segments ≠ EmptyString.
Proof.
  unfold importPath. generalize (text fileName).
  induction segments as [|segment segments IH]; intros name Hne; [done|].
  simpl. apply IH. by destruct name.
Qed.

(** The directive [import a/b/c] reads the file [a/b/c.bnt].  The
    directive is taken out of the token stream up to the token after the
    path; the tokens returned for its place are those of the text of the
    file, followed by a [;] unless the text ends in one, and none at all
    when the file is missing or empty. *)
Theorem import_reads_the_file_of_the_path
  before importing fileName segments next rest q :
  text fileName ≠ EmptyString →
  Forall (λ segment : Token * Token, text segment.1 = "/") segments →
  text next ≠ "/" →
  let s := mkState (before ++ importing :: fileName
                    :: pathTokens segments ++ next :: rest) q in
  let stream :=
    default EmptyString
      (fileSystem (importPath fileName segments ++ ".bnt")%string) in
  let lexed :=
    Lexer.makeTokenStream
      (if decide (back stream = Some ";"%char) then stream
       else (stream ++ ";")%string) q in
  parseImport fileSystem (length before) s
  = if decide (stream = EmptyString)
    then Done [] (mkState (before ++ next :: rest) q)
    else Done lexed.1 (mkState (before ++ next :: rest) lexed.2).
Proof.
  intros Hname Hs Hn s stream lexed.
  unfold parseImport, s. cbn [tokenStream inQuotes].
  rewrite drop_app_length, take_app_length.
  rewrite pathSegments_path by done.
  fold (importPath fileName segments).
  rewrite readFile_bnt by by apply importPath_nonempty.
  fold stream. case_decide; [done|].
  fold lexed. by destruct lexed.
Qed.

Lemma scan_skips before : ∀ fuel done importing rest q,
  Forall (λ t, text t ≠ "import") before →
  scan fileSystem (length before + fuel) (length done) importing
       (mkState (done ++ before ++ rest) q)
  = scan fileSystem fuel (length done + length before) importing
         (mkState (done ++ before ++ rest) q).
Proof.
  induction before as [|t before IH]; intros fuel done importing rest q Hb.
  - simpl. by rewrite Nat.add_0_r.
  - inversion Hb as [|? ? Ht Hb']; subst.
    cbn [length Nat.add scan tokenStream app].
    rewrite list_lookup_middle by done. rewrite decide_False by done.
    replace (S (length done)) with (length (done ++ [t]))
      by (rewrite length_app; simpl; lia).
    replace (done ++ t :: before ++ rest)
      with ((done ++ [t]) ++ before ++ rest) by by rewrite <- app_assoc.
    rewrite IH by done. f_equal. rewrite length_app. simpl. lia.
Qed.

(** An import directive that the end of the token stream cuts short - a
    bare [import], or a path after which nothing or only a [/] follows -
    makes the pre-processing throw [std::out_of_range]; the tokens of the
    directive are gone from the stream by then, whatever files exist. *)
Theorem import_cut_short_throws before importing directive q fuel :
  Forall (λ t, text t ≠ "import") before →
  text importing = "import" →
  directive = []
  ∨ (∃ fileName segments tail,
        directive = fileName :: pathTokens segments ++ tail
        ∧ Forall (λ segment : Token * Token, text segment.1 = "/") segments
        ∧ (tail = [] ∨ ∃ slash, text slash = "/" ∧ tail = [slash])) →
  (length before < fuel)%nat →
  preprocessImports fileSystem fuel
    (mkState (before ++ importing :: directive) q)
  = Some (Throw out_of_range (mkState before q)).
Proof.
  intros Hb Hi Hd Hfuel.
  destruct fuel as [|fuel]; [lia|].
  cbn [preprocessImports].
  replace (S fuel) with (length before + S (fuel - length before))%nat by lia.
  pose proof (scan_skips before (S (fuel - length before)) [] false
                (importing :: directive) q Hb) as Hscan.
  cbn [app length Nat.add] in Hscan. rewrite Hscan.
  cbn [scan tokenStream].
  rewrite list_lookup_middle by done. rewrite decide_True by done.
  unfold parseImport. cbn [tokenStream inQuotes].
  rewrite drop_app_length, take_app_length.
  destruct Hd as [->|(fileName & segments & tail & -> & Hs & Ht)]; [done|].
  rewrite pathSegments_cut by done.
  destruct (pathTokens segments ++ tail); done.
Qed.

(** The names [Parser::dummy] makes are pairwise distinct, and none of
    them matches the pattern of an identifier, so none is a name a
    program can spell. *)
Theorem dummy_names_are_fresh m n name1 count1 name2 count2 :
  dummy m = Some (name1, count1) →
  dummy n = Some (name2, count2) →
  m ≠ n →
  name1 ≠ name2 ∧ Lexer.matchesIdent name1 = false ∧ count1 = m + 1.
Proof.
  unfold dummy. intros H1 H2 Hne.
  repeat case_decide; try done.
  injection H1 as <- <-. injection H2 as <- <-.
  repeat split.
  intros Heq. apply Hne.
  change ("dummy$" ++ ?x)%string
    with (String "d" (String "u" (String "m" (String "m" (String "y"
            (String "$" x)))))) in Heq.
  injection Heq as Heq. by apply (inj pretty).
Qed.

End ImportFacts.

Section MoreWitnesses.
Import Types Expressions Values.

Lemma resolving_keeps_the_grammar_and_unbound_generics_witness :
  ∃ t', TypeChecker.resolveType (mkTuple [mkGen "T"; mkList (mkGen "U")])
                                {["T" := mkList mkInt]} = Some t'
        ∧ concrete t' = true
        ∧ ((∀ n, n ∈ generics (mkTuple [mkGen "T"; mkList (mkGen "U")]) →
                 ({["T" := mkList mkInt]} : EnvironmentRaw) !! n = None) →
           t' = mkTuple [mkGen "T"; mkList (mkGen "U")]).
Proof.
  apply (resolving_keeps_the_grammar_and_unbound_generics
           {["T" := mkList mkInt]} (mkTuple [mkGen "T"; mkList (mkGen "U")]));
    [reflexivity|].
  intros n t' Hn. apply lookup_singleton_Some in Hn as [_ <-]. reflexivity.
Defined.

Lemma added_names_are_found_and_missing_names_reported_witness :
  TypeChecker.getName callToken (TypeChecker.addName ∅ "x" mkInt) "x"
                      (TypeChecker.mkState false [])
  = Done mkInt (TypeChecker.mkState false [])
  ∧ TypeChecker.getName callToken ∅ "z" (TypeChecker.mkState false [])
    = Done mkUnknown
        (diagnosed callToken "Error: z does not exist in this scope"
                   (TypeChecker.mkState false []))
  ∧ Interpreter.getName callToken xsNames "z" xsState
    = Throw RuntimeException
        (failed callToken "Error: z does not exist in this scope" xsState).
Proof.
  destruct (added_names_are_found_and_missing_names_reported
              callToken "x" "y" "z" mkInt 2%nat ∅ xsNames
              (TypeChecker.mkState false []) xsState)
    as (H1 & _ & H3 & _ & _ & H6); [discriminate|reflexivity|reflexivity|].
  exact (conj H1 (conj H3 H6)).
Defined.

Lemma indexing_a_list_checks_the_bounds_witness :
  Interpreter.interpretApplication (λ _, false) (λ _ _ _, undefined)
    letsAndNames callToken (nameOf "xs") [nameOf "i"] xsNames xsState
  = Done (3%nat, xsNames) xsState.
Proof.
  apply (indexing_a_list_checks_the_bounds (λ _, false) (λ _ _ _, undefined)
           letsAndNames callToken (nameOf "xs") (nameOf "i") [] xsNames
           xsState xsState xsState 5%nat 2%nat xsNames xsNames
           (mkList mkInt) [2; 3; 4]%nat (mkList mkInt) [2; 3; 4]%nat mkInt 1);
    try reflexivity; vm_compute; intuition discriminate.
Defined.

Lemma integer_operators_compute_on_the_operands_witness :
  Interpreter.interpretPrimitive letsAndNames operatorToken LST
    (nameOf "i") (nameOf "n") xsNames xsState
  = Done (7%nat, xsNames)
         (setStore (λ st, st ++ [BoolValue mkBool true]) xsState)
  ∧ Interpreter.interpretPrimitive letsAndNames operatorToken MINUS
      (nameOf "i") (nameOf "n") xsNames xsState
    = Done (7%nat, xsNames)
           (setStore (λ st, st ++ [IntValue mkInt (-3)]) xsState).
Proof.
  destruct (integer_operators_compute_on_the_operands letsAndNames
              operatorToken (nameOf "i") (nameOf "n") xsNames
              xsState xsState xsState 2%nat 6%nat xsNames xsNames
              mkInt mkInt 1 4)
    as (_ & Hlst & _ & _ & _ & _ & _ & _ & Hminus & _); try reflexivity.
  exact (conj Hlst Hminus).
Defined.

Lemma comment_is_skipped_witness :
  Lexer.makeTokenStream ("x; " ++ "#" ++ " a note" ++ Lexer.single Lexer.newline
                         ++ "y;") false
  = Lexer.makeTokenStream ("x; " ++ Lexer.single Lexer.newline ++ "y;") false
  ∧ Lexer.makeTokenStream ("x; " ++ "#" ++ " a note") false
    = Lexer.makeTokenStream "x; " false.
Proof.
  apply (comment_is_skipped "x; " " a note" "y;" false); [reflexivity|].
  apply (bool_decide_unpack _). vm_compute. exact I.
Defined.

Lemma a_word_before_a_blank_is_one_token_witness :
  lexAll ("2nd" ++ " ") (Lexer.Lexer false)
  = Lexer.mkState
      [mkToken ERROR (mkFilePosition 1 2 "2nd ") "2nd"] EmptyString
      (mkFilePosition 1 5 "2nd ") false false true false.
Proof.
  apply (a_word_before_a_blank_is_one_token "2nd" (Lexer.Lexer false));
    try reflexivity; [|simpl; lia].
  split; [discriminate|reflexivity].
Defined.

Lemma import_reads_the_file_of_the_path_witness :
  let s := Parser.mkState ([semicolon] ++ importToken :: aToken
                           :: pathTokens [(slashToken, bToken)]
                           ++ semicolon :: []) false in
  let stream :=
    default EmptyString
      (nestedFile (importPath aToken [(slashToken, bToken)] ++ ".bnt")%string) in
  let lexed :=
    Lexer.makeTokenStream
      (if decide (Parser.back stream = Some ";"%char) then stream
       else (stream ++ ";")%string) false in
  Parser.parseImport nestedFile (length [semicolon]) s
  = if decide (stream = EmptyString)
    then Done [] (Parser.mkState ([semicolon] ++ semicolon :: []) false)
    else Done lexed.1 (Parser.mkState ([semicolon] ++ semicolon :: []) lexed.2).
Proof.
  apply (import_reads_the_file_of_the_path nestedFile [semicolon] importToken
           aToken [(slashToken, bToken)] semicolon [] false);
    [discriminate|repeat constructor|discriminate].
Defined.

Lemma import_cut_short_throws_witness :
  Parser.preprocessImports nestedFile 2
    (Parser.mkState [semicolon; importToken; aToken; slashToken] false)
  = Some (Throw out_of_range (Parser.mkState [semicolon] false)).
Proof.
  apply (import_cut_short_throws nestedFile [semicolon] importToken
           [aToken; slashToken] false 2);
    [repeat constructor; discriminate|reflexivity| |simpl; lia].
  right. exists aToken, [], [slashToken].
  split; [reflexivity|]. split; [constructor|].
  right. exists slashToken. split; reflexivity.
Defined.

Lemma dummy_names_are_fresh_witness :
  ("dummy$0" ≠ "dummy$1")
  ∧ Lexer.matchesIdent "dummy$0" = false ∧ 1 = 0 + 1.
Proof.
  apply (dummy_names_are_fresh 0 1 "dummy$0" 1 "dummy$1" 2);
    [reflexivity|reflexivity|discriminate].
Defined.

End MoreWitnesses.

(* ================================================================== *)
(** * The scope of a let in the interpreter *)
(* ================================================================== *)

Section LetScope.
Import Types Expressions Values Interpreter.

Variable interpret : Exp → Environment → M State (ValuePtr * Environment).

(** The two cases of the dispatch in [Interpreter::interpret] that the
    statement goes through. *)
Hypothesis interpret_Let : ∀ token t ident valueType value afterLet environment,
  interpret (Let token t ident valueType value afterLet) environment
  = interpretLet interpret ident value afterLet environment.
Hypothesis interpret_Reference : ∀ token t ident environment,
  interpret (Reference token t ident EmptyString) environment
  = interpretName token ident environment.

Lemma interpretName_bound token x v (environment : Environment) (s : State) w :
  environment !! x = Some v → store s !! v = Some w →
  interpretName token x environment s = Done (v, environment) s.
Proof.
  intros Hx Hv. unfold interpretName, getName, bind. rewrite Hx.
  cbn [ret]. by rewrite (load_Done _ _ _ Hv).
Qed.

(** A let binds its name in the environment of the expression around
    it: in [(val x = e; x) + x] the right operand reads the value the let
    in the left operand bound, whatever [x] was bound to before, and the
    binding is still there after the sum.  So the sum is twice the value of
    [e], and [(val x = e; x) == x] is true. *)
Theorem a_let_in_an_operand_rebinds_the_name
  token tokenLet tLet valueType value tokenLeft tLeft tokenRight tRight x
  environment (s s1 : State) v env1 tv a :
  interpret value environment s = Done (v, env1) s1 →
  store s1 !! v = Some (IntValue tv a) →
  dataType tv = INT →
  let operation op :=
    interpretPrimitive interpret token op
      (Let tokenLet tLet x valueType value
           (Reference tokenLeft tLeft x EmptyString))
      (Reference tokenRight tRight x EmptyString) environment s in
  let made w :=
    Done (length (store s1), addName env1 x v)
         (setStore (λ st, st ++ [w]) s1) in
  operation PLUS
  = (if decide (INT_MIN ≤ a + a ≤ INT_MAX) then made (IntValue mkInt (a + a))
     else Undefined)
  ∧ operation EQ = made (BoolValue mkBool true).
Proof using interpret_Let interpret_Reference.
  intros Hvalue Hv Ht operation made.
  assert (addName env1 x v !! x = Some v) as Hx.
  { unfold addName. by rewrite lookup_insert_eq. }
  assert (∀ op, operation op
    = match doOperation PrimitiveInt token op v v s1 with
      | Done r s' => Done (r, addName env1 x v) s'
      | Throw e s' => Throw e s'
      | Undefined => Undefined
      end) as Hop.
  { intros op. unfold operation, interpretPrimitive, bind.
    rewrite interpret_Let. unfold interpretLet, bind.
    rewrite Hvalue. cbn [fst snd].
    rewrite interpret_Reference, (interpretName_bound _ _ _ _ _ _ Hx Hv).
    cbn [fst snd].
    rewrite interpret_Reference, (interpretName_bound _ _ _ _ _ _ Hx Hv).
    cbn [fst snd]. rewrite (load_Done _ _ _ Hv). cbn [type]. rewrite Ht.
    by destruct (doOperation _ _ _ _ _ _). }
  rewrite !Hop. unfold doOperation, bind, made.
  cbn [read PrimitiveInt less equal].
  rewrite !(asInt_Done _ _ _ _ Hv).
  unfold newBool, newInt, alloc, checked. rewrite Z.eqb_refl.
  split; [by case_decide|done].
Qed.

End LetScope.

Section LetScopeWitness.
Import Types Expressions Values.

Lemma a_let_in_an_operand_rebinds_the_name_witness :
  letsAndNames
    (Primitive operatorToken mkUnknown PLUS
       (Let callToken mkUnknown "i" mkInt (nameOf "n") (nameOf "i"))
       (nameOf "i")) xsNames xsState
  = Done (7%nat, Interpreter.addName xsNames "i" 6%nat)
         (setStore (λ st, st ++ [IntValue mkInt 8])
                          xsState).
Proof.
  refine (proj1 (a_let_in_an_operand_rebinds_the_name letsAndNames _ _
                   operatorToken callToken mkUnknown mkInt
                   (nameOf "n") callToken mkUnknown callToken
                   mkUnknown "i" xsNames xsState xsState 6%nat xsNames
                   mkInt 4 _ _ _)); reflexivity.
Defined.

End LetScopeWitness.
